(** * The mipmap reader of websdr (websdr/mipmap_reader.H)

    A shallow embedding of [mipmapChunkFinder], [mipmapReaderView] and
    [mipmapReader], and the properties of the chunk indexer, the view
    resolver and the two extraction paths.

    Conventions of the embedding.
    - A C++ [int] is a [Z] kept in [[-2^31, 2^31)]: every arithmetic
      operation of the source is followed by [Int32.wrap]. Signed overflow
      is undefined in C++; the theorems carry the bounds under which no
      operation overflows, so that [wrap] is the identity where they apply.
    - [/] and [%] on [int] truncate towards zero: [Z.quot] and [Z.rem]. In
      the indexer a division by a branch factor 0 (undefined in the source)
      takes the value [Z.quot] and [Z.rem] give; in the reader a division by
      zero is the outcome [Undefined].
    - A fixed-size array [int a[LEVELS]] is a [list Z] of length [LEVELS];
      the template parameter [LEVELS] is a section variable. An array index
      is a [nat].
    - A member function that changes the object returns the changed object.
      A call that can assert or throw returns an [outcome]; a loop whose end
      depends on the data takes fuel.
    - The [double] of [requestView] is modelled exactly (module [Double]);
      the [double] arithmetic of the extraction is a parameter. *)

From Stdlib Require Import ZArith Lia List Bool String QArith.
From stdpp Require Import base numbers list gmap.

Local Open Scope Z_scope.

(** ** 32-bit integers *)

Module Int32.

Definition min_int : Z := - 2 ^ 31.
Definition max_int : Z := 2 ^ 31 - 1.

(** Reduction of an integer to the two's-complement range of [int]. *)
Definition wrap (z : Z) : Z := (z + 2 ^ 31) mod 2 ^ 32 - 2 ^ 31.

Definition add (a b : Z) : Z := wrap (a + b).
Definition sub (a b : Z) : Z := wrap (a - b).
Definition mul (a b : Z) : Z := wrap (a * b).
Definition neg (a : Z) : Z := wrap (- a).
Definition div (a b : Z) : Z := wrap (Z.quot a b).
Definition rem (a b : Z) : Z := wrap (Z.rem a b).

End Int32.

(** ** Loops *)

(** [for (int i = lo; i < hi; i++) body] over a state [s]: [for_loop n lo]
    runs the [n] iterations [lo], [lo+1], ... *)
Fixpoint for_loop {St : Type} (n i : nat) (body : nat -> St -> St) (s : St) : St :=
  match n with
  | O => s
  | S n' => for_loop n' (S i) body (body i s)
  end.

Definition for_range {St : Type} (lo hi : nat) (body : nat -> St -> St) (s : St) : St :=
  for_loop (hi - lo) lo body s.

(** ** mipmapChunkFinder *)

Record mipmapChunkFinder : Type := Finder {
  levelSteps : list Z;
  levelSizes : list Z;
  levelIndex : list Z;
  totalChunkCount : Z;
  currLevel : nat;
  currIndex : Z
}.

Definition set_levelSteps (v : list Z) (f : mipmapChunkFinder) : mipmapChunkFinder :=
  Finder v (levelSizes f) (levelIndex f) (totalChunkCount f) (currLevel f) (currIndex f).
Definition set_levelSizes (v : list Z) (f : mipmapChunkFinder) : mipmapChunkFinder :=
  Finder (levelSteps f) v (levelIndex f) (totalChunkCount f) (currLevel f) (currIndex f).
Definition set_levelIndex (v : list Z) (f : mipmapChunkFinder) : mipmapChunkFinder :=
  Finder (levelSteps f) (levelSizes f) v (totalChunkCount f) (currLevel f) (currIndex f).
Definition set_totalChunkCount (v : Z) (f : mipmapChunkFinder) : mipmapChunkFinder :=
  Finder (levelSteps f) (levelSizes f) (levelIndex f) v (currLevel f) (currIndex f).
Definition set_currLevel (v : nat) (f : mipmapChunkFinder) : mipmapChunkFinder :=
  Finder (levelSteps f) (levelSizes f) (levelIndex f) (totalChunkCount f) v (currIndex f).
Definition set_currIndex (v : Z) (f : mipmapChunkFinder) : mipmapChunkFinder :=
  Finder (levelSteps f) (levelSizes f) (levelIndex f) (totalChunkCount f) (currLevel f) v.

(** [a[i]] for an array [a]; a read outside the array (undefined in the
    source) yields 0. *)
Definition at_ (a : list Z) (i : nat) : Z := default 0 (a !! i).

Section Finder.

Variable LEVELS : nat.

(** The member initialisers [= {}]: all arrays zero. *)
Definition new_finder (steps : list Z) : mipmapChunkFinder :=
  Finder steps (replicate LEVELS 0) (replicate LEVELS 0) 0 0%nat 0.

(** [mipmapChunkFinder::init] *)
Definition init (f : mipmapChunkFinder) : mipmapChunkFinder :=
  let f := set_levelSizes (<[0%nat := 1]> (levelSizes f)) f in
  let f := for_range 1 LEVELS (fun i f =>
             set_levelSizes
               (<[i := Int32.add (Int32.mul (at_ (levelSizes f) (i - 1))
                                            (at_ (levelSteps f) (i - 1))) 1]>
                  (levelSizes f)) f) f in
  set_totalChunkCount
    (Int32.mul (at_ (levelSizes f) (LEVELS - 1)) (at_ (levelSteps f) (LEVELS - 1))) f.

(** [mipmapChunkFinder::goToChunk]. The [%] and [/] of the source are
    undefined for a branch factor of zero; here they are those of
    [Int32.rem] and [Int32.div], and what is proved of a call that returns
    is proved on a valid indexer ([finder_ok]), whose branch factors are
    all at least 1. *)
Definition goToChunk (level : nat) (index : Z) (f : mipmapChunkFinder) : mipmapChunkFinder :=
  let f := set_currLevel level f in
  let tmpIndex := index in
  let '(f, tmpIndex) :=
    for_range level LEVELS (fun i '(f, tmpIndex) =>
      (set_levelIndex (<[i := Int32.rem tmpIndex (at_ (levelSteps f) i)]> (levelIndex f)) f,
       Int32.div tmpIndex (at_ (levelSteps f) i))) (f, tmpIndex) in
  let f := set_currIndex 0 f in
  let f := for_range level LEVELS (fun i f =>
             set_currIndex
               (Int32.add (currIndex f)
                          (Int32.mul (at_ (levelIndex f) i) (at_ (levelSizes f) i))) f) f in
  if (0 <? level)%nat
  then set_currIndex
         (Int32.add (currIndex f)
                    (Int32.mul (at_ (levelSteps f) (level - 1))
                               (at_ (levelSizes f) (level - 1)))) f
  else f.

(** The carry loop of [advanceChunk]:
    [for (i = level+1; i < LEVELS; i++) { currIndex++; if (...) {...; break;} ... }];
    [n] is the number of iterations left. *)
Fixpoint carry_loop (n i : nat) (f : mipmapChunkFinder) : mipmapChunkFinder :=
  match n with
  | O => f
  | S n' =>
      let f := set_currIndex (Int32.add (currIndex f) 1) f in
      if negb (at_ (levelIndex f) i =? Int32.sub (at_ (levelSteps f) i) 1)
      then set_levelIndex (<[i := Int32.add (at_ (levelIndex f) i) 1]> (levelIndex f)) f
      else carry_loop n' (S i) (set_levelIndex (<[i := 0]> (levelIndex f)) f)
  end.

(** [mipmapChunkFinder::advanceChunk] *)
Definition advanceChunk (f : mipmapChunkFinder) : mipmapChunkFinder :=
  let level := currLevel f in
  let f := set_currIndex (Int32.add (currIndex f) (at_ (levelSizes f) level)) f in
  let f :=
    if at_ (levelIndex f) level =? Int32.sub (at_ (levelSteps f) level) 1
    then
      let f := carry_loop (LEVELS - (level + 1)) (level + 1) f in
      set_levelIndex (<[level := 0]> (levelIndex f)) f
    else
      set_levelIndex (<[level := Int32.add (at_ (levelIndex f) level) 1]> (levelIndex f)) f in
  if totalChunkCount f <=? currIndex f
  then set_currIndex (Int32.sub (currIndex f) (totalChunkCount f)) f
  else f.

End Finder.

(** ** Exact (unbounded) quantities of a level configuration

    The counterparts over [Z] of what [init] computes, used to state when a
    configuration is valid (no step of the indexer overflows an [int]) and
    to express the physical slot of a chunk. *)

(** Subtree sizes of the levels with branch factors [B], the first level
    having subtree size [w]: [w; w*b0+1; (w*b0+1)*b1+1; ...]. *)
Fixpoint sizes_from (w : Z) (B : list Z) : list Z :=
  match B with
  | [] => []
  | b :: B' => w :: sizes_from (w * b + 1) B'
  end.

(** The subtree size one level above the last level of [B]. *)
Fixpoint top_from (w : Z) (B : list Z) : Z :=
  match B with
  | [] => w
  | b :: B' => top_from (w * b + 1) B'
  end.

Definition exact_sizes (steps : list Z) : list Z := sizes_from 1 steps.
Definition exact_total (steps : list Z) : Z := top_from 1 steps - 1.

(** Number of nodes of the lowest level of [B]: the product of the branch
    factors. *)
Fixpoint node_count (B : list Z) : Z :=
  match B with
  | [] => 1
  | b :: B' => b * node_count B'
  end.

(** Mixed-radix digits of [n] with bases [B], least significant first. *)
Fixpoint digits (B : list Z) (n : Z) : list Z :=
  match B with
  | [] => []
  | b :: B' => n mod b :: digits B' (n / b)
  end.

(** Number of proper ancestors stored before the [n]-th node of the lowest
    level of [B]: [n/b0 + n/(b0*b1) + ...]. *)
Fixpoint ancestors_before (B : list Z) (n : Z) : Z :=
  match B with
  | [] => 0
  | b :: B' => n / b + ancestors_before B' (n / b)
  end.

(** [sum_i D[i] * W[i]] *)
Fixpoint weighted_sum (D W : list Z) : Z :=
  match D, W with
  | d :: D', w :: W' => d * w + weighted_sum D' W'
  | _, _ => 0
  end.

Fixpoint eqb_list (l1 l2 : list Z) : bool :=
  match l1, l2 with
  | [], [] => true
  | x :: l1', y :: l2' => (x =? y) && eqb_list l1' l2'
  | _, _ => false
  end.

(** A valid level configuration: at least one level, every branch factor at
    least 1, and the ring small enough for the cursor arithmetic of
    [advanceChunk] (which reaches [totalChunkCount + levelSizes[level] - 1]
    before it wraps around) to stay within [int]. *)
Definition steps_ok (LEVELS : nat) (steps : list Z) : bool :=
  (1 <=? LEVELS)%nat && (length steps =? LEVELS)%nat
  && forallb (fun b => 1 <=? b) steps
  && (exact_total steps + at_ (exact_sizes steps) (LEVELS - 1) <=? 2 ^ 31).

(** A finder with a valid level configuration on which [init] has run. *)
Definition finder_ok (LEVELS : nat) (f : mipmapChunkFinder) : bool :=
  steps_ok LEVELS (levelSteps f)
  && eqb_list (levelSizes f) (exact_sizes (levelSteps f))
  && (totalChunkCount f =? exact_total (levelSteps f))
  && (length (levelIndex f) =? LEVELS)%nat.

(** The caller's precondition on [goToChunk] as the specification words it. *)
Definition chunk_in_range (LEVELS : nat) (f : mipmapChunkFinder) (level : nat) (index : Z) : bool :=
  (level <? LEVELS)%nat && (0 <=? index)
  && (index <? totalChunkCount f / at_ (levelSizes f) level).

(** Physical slot of the [n]-th chunk of [level] (for [n] below the number
    of chunks of that level): the chunks of that level before it with their
    subtrees, the ancestors completed before it, and the node's own
    descendants. *)
Definition slot_of (f : mipmapChunkFinder) (level : nat) (n : Z) : Z :=
  let w := at_ (levelSizes f) level in
  w * n + ancestors_before (drop level (levelSteps f)) n + (w - 1).

(** Number of chunks of [level]. *)
Definition chunks_at (f : mipmapChunkFinder) (level : nat) : Z :=
  node_count (drop level (levelSteps f)).

(** The cursor after [goToChunk] and [k] calls of [advanceChunk]. *)
Definition cursor (LEVELS : nat) (f : mipmapChunkFinder) (level : nat) (index : Z) (k : nat) : mipmapChunkFinder :=
  Nat.iter k (advanceChunk LEVELS) (goToChunk LEVELS level index f).

(** What [init] stores in [levelSizes], in the arithmetic of [int]. *)
Fixpoint sizes32_from (w : Z) (B : list Z) : list Z :=
  match B with
  | [] => []
  | b :: B' => w :: sizes32_from (Int32.add (Int32.mul w b) 1) B'
  end.

(** ** Invariants of the indexer *)

Section Invariants.

Variable LEVELS : nat.

(** A well-formed finder: valid level configuration, [init] has run. *)
Record wf (f : mipmapChunkFinder) : Prop := {
  wf_levels : (1 <= LEVELS)%nat;
  wf_len_steps : length (levelSteps f) = LEVELS;
  wf_steps : Forall (fun b => 1 <= b) (levelSteps f);
  wf_sizes : levelSizes f = exact_sizes (levelSteps f);
  wf_total : totalChunkCount f = exact_total (levelSteps f);
  wf_len_index : length (levelIndex f) = LEVELS;
  wf_bound :
    exact_total (levelSteps f) + at_ (exact_sizes (levelSteps f)) (LEVELS - 1) <= 2 ^ 31
}.

(** What a well-formed finder knows about one of its levels. *)
Record level_facts (f : mipmapChunkFinder) (level : nat) : Prop := {
  lf_sizes : drop level (levelSizes f)
             = sizes_from (at_ (levelSizes f) level) (drop level (levelSteps f));
  lf_top : top_from (at_ (levelSizes f) level) (drop level (levelSteps f))
           = totalChunkCount f + 1;
  lf_size_pos : 1 <= at_ (levelSizes f) level;
  lf_fits : totalChunkCount f + at_ (levelSizes f) level <= 2 ^ 31;
  lf_steps : Forall (fun b => 1 <= b) (drop level (levelSteps f));
  lf_len : length (drop level (levelSteps f)) = (LEVELS - level)%nat;
  lf_below : (0 < level)%nat ->
             at_ (levelSteps f) (level - 1) * at_ (levelSizes f) (level - 1)
             = at_ (levelSizes f) level - 1
}.

(** The finder stands at the [n]-th chunk of [level]. *)
Record at_chunk (f : mipmapChunkFinder) (level : nat) (n : Z) : Prop := {
  ac_wf : wf f;
  ac_level_lt : (level < LEVELS)%nat;
  ac_level : currLevel f = level;
  ac_range : 0 <= n < chunks_at f level;
  ac_digits : drop level (levelIndex f) = digits (drop level (levelSteps f)) n;
  ac_slot : currIndex f = slot_of f level n
}.

End Invariants.

(** The physical slots visited by [goToChunk] and then [advanceChunk]. *)
Definition slot_seq (LEVELS : nat) (f : mipmapChunkFinder) (level : nat) (index : Z) (k : nat) : Z :=
  currIndex (cursor LEVELS f level index k).

(** The first [P] slots are pairwise distinct. *)
Definition distinct_until (s : nat -> Z) (P : Z) : Prop :=
  forall j k : nat, (j < k)%nat -> Z.of_nat k < P -> s j <> s k.

(** The sequence repeats after [P] steps. *)
Definition repeats_after (s : nat -> Z) (P : Z) : Prop :=
  forall k : nat, s (k + Z.to_nat P)%nat = s k.

(** ** Doubles

    [requestView] divides two [int]s as [double]s and compares an [int] with
    the quotient. A double is kept as [m * 2^e]; division rounds the exact
    quotient to the nearest number with a 53-bit significand, ties to even,
    as IEEE 754 binary64 does. The exponent range is not modelled: the
    quotient of two nonzero [int]s has a magnitude within [[2^-31, 2^31]].
    Zero has no sign here (a converted [int] is never [-0]). *)

Module Double.

Inductive t : Type :=
| Finite (m e : Z)
| Inf (negative : bool)
| NaN.

(** [double(z)] for an [int] [z]: exact. *)
Definition of_int (z : Z) : t := Finite z 0.

(** The integer nearest to [n/d] (for [0 <= n], [0 < d]), ties to even. *)
Definition round_nearest_even (n d : Z) : Z :=
  let q := n / d in
  let r := n mod d in
  match 2 * r ?= d with
  | Lt => q
  | Gt => q + 1
  | Eq => if Z.even q then q else q + 1
  end.

Definition scaled_num (n k : Z) : Z := n * 2 ^ Z.max k 0.
Definition scaled_den (d k : Z) : Z := d * 2 ^ Z.max (- k) 0.

(** The [k] for which [n * 2^k / d] lies in [[2^52, 2^53)]. *)
Definition normalising_shift (n d : Z) : Z :=
  let k0 := 52 - Z.log2 n + Z.log2 d in
  if scaled_num n k0 <? 2 ^ 52 * scaled_den d k0 then k0 + 1 else k0.

Definition div (x y : t) : t :=
  match x, y with
  | NaN, _ | _, NaN => NaN
  | Inf _, Inf _ => NaN
  | Inf s, Finite m _ => Inf (xorb s (m <? 0))
  | Finite _ _, Inf _ => Finite 0 0
  | Finite m1 e1, Finite m2 e2 =>
      if m2 =? 0 then (if m1 =? 0 then NaN else Inf (m1 <? 0))
      else if m1 =? 0 then Finite 0 0
      else
        let k := normalising_shift (Z.abs m1) (Z.abs m2) in
        let q := round_nearest_even (scaled_num (Z.abs m1) k)
                                    (scaled_den (Z.abs m2) k) in
        Finite (Z.sgn m1 * Z.sgn m2 * q) (e1 - e2 - k)
  end.

(** [x <= y] *)
Definition le (x y : t) : bool :=
  match x, y with
  | NaN, _ | _, NaN => false
  | Inf true, _ => true
  | _, Inf false => true
  | Inf false, _ => false
  | _, Inf true => false
  | Finite m1 e1, Finite m2 e2 =>
      let e := Z.min e1 e2 in
      m1 * 2 ^ (e1 - e) <=? m2 * 2 ^ (e2 - e)
  end.

End Double.

(** ** Outcomes of a call *)

Inductive outcome (A : Type) : Type :=
| Returns (a : A)
| AssertionFailed              (* an [assert] does not hold: the call aborts *)
| LogicError (what : string)   (* [throw logic_error(what)] *)
| Undefined                    (* integer division by zero *)
| OutOfFuel.                   (* the loop did not end within the fuel given *)

Arguments Returns {A} a.
Arguments AssertionFailed {A}.
Arguments LogicError {A} what.
Arguments Undefined {A}.
Arguments OutOfFuel {A}.

#[global] Instance outcome_ret : MRet outcome := @Returns.
#[global] Instance outcome_bind : MBind outcome := fun A B k m =>
  match m with
  | Returns a => k a
  | AssertionFailed => AssertionFailed
  | LogicError what => LogicError what
  | Undefined => Undefined
  | OutOfFuel => OutOfFuel
  end.

(** [a / b] on [int]s: undefined for a divisor of zero and for
    [INT_MIN / -1], whose quotient is no [int]. *)
Definition idiv (a b : Z) : outcome Z :=
  if b =? 0 then Undefined
  else if (a =? Int32.min_int) && (b =? -1) then Undefined
  else Returns (Int32.div a b).

(** ** mipmapReaderView *)

Record mipmapReaderView : Type := View {
  startSamples : Z;
  endSamples : Z;
  resolution : Z
}.

(** [mipmapReaderView::compression] *)
Definition compression (v : mipmapReaderView) : outcome Z :=
  idiv (Int32.sub (endSamples v) (startSamples v)) (resolution v).

(** The two halves of a packed element, as [int32_t]. *)
Definition lower32 (element : Z) : Z := Int32.wrap (Z.land element 4294967295).
Definition upper32 (element : Z) : Z :=
  Int32.wrap (Z.land (Z.shiftr element 32) 4294967295).

(** ** mipmapReader *)

Module mipmapReader.

Record t : Type := Reader {
  finder : mipmapChunkFinder;
  mipmap : Z -> Z;              (* the shared buffer, as read by this call *)
  levelCompression : list Z;
  length : Z;
  chunkSize : Z;
  baseLevelStep : Z;
  allowOriginal : bool
}.

Definition set_finder (v : mipmapChunkFinder) (rd : t) : t :=
  Reader v (mipmap rd) (levelCompression rd) (length rd) (chunkSize rd)
         (baseLevelStep rd) (allowOriginal rd).
Definition set_levelCompression (v : list Z) (rd : t) : t :=
  Reader (finder rd) (mipmap rd) v (length rd) (chunkSize rd)
         (baseLevelStep rd) (allowOriginal rd).
Definition set_allowOriginal (v : bool) (rd : t) : t :=
  Reader (finder rd) (mipmap rd) (levelCompression rd) (length rd) (chunkSize rd)
         (baseLevelStep rd) v.

Section Reader.

Variable LEVELS : nat.

(** A reader as constructed: [chunkSize = 16], [baseLevelStep = 4],
    [allowOriginal = true]. *)
Definition new_reader (mipmap : Z -> Z) (length : Z) : t :=
  Reader (new_finder LEVELS (replicate LEVELS 0)) mipmap (replicate LEVELS 0)
         length 16 4 true.

(** [mipmapReader::init] *)
Definition init (levelSteps_ : list Z) (rd : t) : t :=
  let rd := for_range 0 LEVELS (fun i rd =>
              set_finder
                (set_levelSteps (<[i := at_ levelSteps_ i]> (levelSteps (finder rd)))
                                (finder rd)) rd) rd in
  let rd := set_levelCompression (<[0%nat := baseLevelStep rd]> (levelCompression rd)) rd in
  let rd := for_range 1 LEVELS (fun i rd =>
              set_levelCompression
                (<[i := Int32.mul (at_ (levelCompression rd) (i - 1))
                                  (at_ levelSteps_ (i - 1))]>
                   (levelCompression rd)) rd) rd in
  set_finder (init LEVELS (finder rd)) rd.

(** The scan [for (; i >= 0; i--) if (levelCompression[i] <= compression) break;]
    entered with [i = n - 1]; the result is the final [i]. *)
Fixpoint scan_levels (n : nat) (lc : list Z) (compression : Double.t) : Z :=
  match n with
  | O => -1
  | S i =>
      if Double.le (Double.of_int (at_ lc i)) compression
      then Z.of_nat i
      else scan_levels i lc compression
  end.

(** [mipmapReader::requestView]: the returned view and the level reported
    on the diagnostic line ([-1] for the original data). *)
Definition requestView (rd : t) (requested : mipmapReaderView)
  : outcome (mipmapReaderView * Z) :=
  if negb ((0 <=? startSamples requested) && (startSamples requested <? length rd))
  then AssertionFailed else
  if negb ((startSamples requested <? endSamples requested)
           && (endSamples requested <=? length rd))
  then AssertionFailed else
  let reqViewSpan := Int32.sub (endSamples requested) (startSamples requested) in
  let compression :=
    Double.div (Double.of_int reqViewSpan) (Double.of_int (resolution requested)) in
  let i := scan_levels LEVELS (levelCompression rd) compression in
  let ret (returned : mipmapReaderView) (i : Z) : outcome (mipmapReaderView * Z) :=
    if endSamples returned <=? length rd then Returns (returned, i)
    else AssertionFailed in
  if (i <? 0) && allowOriginal rd then
    let returned := requested in
    ret (View (startSamples returned) (endSamples returned)
              (Int32.sub (endSamples returned) (startSamples returned))) i
  else
    let i := if i <? 0 then 0 else i in
    let c := at_ (levelCompression rd) (Z.to_nat i) in
    let roundTo := Int32.mul c (chunkSize rd) in
    s ← idiv (startSamples requested) roundTo;
    let start' := Int32.mul s roundTo in
    e ← idiv (Int32.sub (Int32.add (endSamples requested) roundTo) 1) roundTo;
    let end' := Int32.mul e roundTo in
    r ← idiv (Int32.sub end' start') c;
    ret (View start' end' r) i.

End Reader.

(** *** Extraction

    The arithmetic on [double] of the two read paths, the output type
    [INTTYPE] with its limits and the conversion to it, and the functions
    [clamp], [round] and [spectrumValue] are defined outside this file:
    they are taken as given. [dst] is the destination array, a map from
    index to value. *)

Class External : Type := {
  real : Type;                              (* double *)
  of_int : Z -> real;
  add : real -> real -> real;
  sub : real -> real -> real;
  mul : real -> real -> real;
  div : real -> real -> real;
  round : real -> real;
  clamp : real -> real -> real -> real;
  spectrumValue : Z -> Z -> real;
  valMin : Z;                               (* numeric_limits<INTTYPE>::min() *)
  valMax : Z;                               (* numeric_limits<INTTYPE>::max() *)
  to_INTTYPE : real -> Z
}.

Section Extraction.

Variable LEVELS : nat.
Variable CHANNELS : Z.
Context {E : External}.

(** [for (i = 0; i < LEVELS; i++) if (levelCompression[i] == compression) break;]
    with [n] iterations left; the result is the final [i]. *)
Fixpoint find_level_loop (n i : nat) (lc : list Z) (compression : Z) : nat :=
  match n with
  | O => i
  | S n' =>
      if at_ lc i =? compression then i
      else find_level_loop n' (S i) lc compression
  end.

Definition find_level (lc : list Z) (compression : Z) : nat :=
  find_level_loop LEVELS 0 lc compression.

(** [INTTYPE(round((v - yLower)*A + B))] *)
Definition rescale (v yLower A B : real) : Z :=
  to_INTTYPE (round (add (mul (sub v yLower) A) B)).

(** One element of a chunk in [read]. *)
Definition read_element (rd : t) (yLower yUpper A B : real) (offs dstOffs : Z)
    (x : Z) (dst : gmap Z Z) : gmap Z Z :=
  let element := mipmap rd (Int32.add offs x) in
  let lower := of_int (lower32 element) in
  let upper := of_int (upper32 element) in
  let lower := clamp lower yLower yUpper in
  let upper := clamp upper yLower yUpper in
  let dst := <[Int32.mul (Int32.add dstOffs x) 2 := rescale lower yLower A B]> dst in
  <[Int32.add (Int32.mul (Int32.add dstOffs x) 2) 1 := rescale upper yLower A B]> dst.

(** The [while (true)] loop of [read]. *)
Fixpoint read_chunks (fuel : nat) (rd : t) (yLower yUpper A B : real)
    (chunkElements dstElements : Z) (f : mipmapChunkFinder) (dstOffs : Z)
    (dst : gmap Z Z) : outcome (gmap Z Z * mipmapChunkFinder) :=
  match fuel with
  | O => OutOfFuel
  | S fuel' =>
      let offs := Int32.mul (currIndex f) chunkElements in
      let dst := for_range 0 (Z.to_nat chunkElements) (fun x dst =>
                   read_element rd yLower yUpper A B offs dstOffs (Z.of_nat x) dst) dst in
      let dstOffs := Int32.add dstOffs chunkElements in
      if dstElements <=? dstOffs then Returns (dst, f)
      else read_chunks fuel' rd yLower yUpper A B chunkElements dstElements
             (advanceChunk LEVELS f) dstOffs dst
  end.

(** [mipmapReader::read] *)
Definition read (fuel : nat) (rd : t) (view : mipmapReaderView) (dst : gmap Z Z)
    (yLower yUpper : real) : outcome (gmap Z Z * t) :=
  let A := div (sub (of_int valMax) (of_int valMin)) (sub yUpper yLower) in
  let B := of_int valMin in
  let viewSpan := Int32.sub (endSamples view) (startSamples view) in
  compression ← idiv viewSpan (resolution view);
  let i := find_level (levelCompression rd) compression in
  if (i =? LEVELS)%nat then LogicError "no mipmap level for this resolution" else
  mipmapStart ← idiv (startSamples view) compression;
  chunkIndex ← idiv mipmapStart (chunkSize rd);
  let f := goToChunk LEVELS i chunkIndex (finder rd) in
  let chunkElements := Int32.mul (chunkSize rd) CHANNELS in
  let dstElements := Int32.mul (resolution view) CHANNELS in
  '(dst, f) ← read_chunks fuel rd yLower yUpper A B chunkElements dstElements f 0 dst;
  Returns (dst, set_finder f rd).

(** [if ((-lower) > upper) upper = -lower;] *)
Definition fold_bounds (lower upper : Z) : Z :=
  if Int32.neg lower >? upper then Int32.neg lower else upper.

(** The value of one sample in [readSpectrum]. *)
Definition spectrum_sample (elementRe elementIm : Z) (yLower yUpper A B : real) : Z :=
  let lowerRe := lower32 elementRe in
  let upperRe := upper32 elementRe in
  let lowerIm := lower32 elementIm in
  let upperIm := upper32 elementIm in
  let upperRe := fold_bounds lowerRe upperRe in
  let upperIm := fold_bounds lowerIm upperIm in
  let tmp := spectrumValue upperRe upperIm in
  let tmp := clamp tmp yLower yUpper in
  rescale tmp yLower A B.

(** One sample of a chunk in [readSpectrum]. *)
Definition spectrum_element (rd : t) (yLower yUpper A B : real) (offs dstOffs : Z)
    (x : Z) (dst : gmap Z Z) : gmap Z Z :=
  let elementRe := mipmap rd (Int32.add offs (Int32.mul x 2)) in
  let elementIm := mipmap rd (Int32.add (Int32.add offs (Int32.mul x 2)) 1) in
  let v := spectrum_sample elementRe elementIm yLower yUpper A B in
  let dst := <[Int32.mul (Int32.add dstOffs x) 2 := v]> dst in
  <[Int32.add (Int32.mul (Int32.add dstOffs x) 2) 1 := v]> dst.

(** The [while (true)] loop of [readSpectrum]. *)
Fixpoint spectrum_chunks (fuel : nat) (rd : t) (yLower yUpper A B : real)
    (chunkElements dstElements : Z) (f : mipmapChunkFinder) (dstOffs : Z)
    (dst : gmap Z Z) : outcome (gmap Z Z * mipmapChunkFinder) :=
  match fuel with
  | O => OutOfFuel
  | S fuel' =>
      let offs := Int32.mul (Int32.mul (currIndex f) CHANNELS) chunkElements in
      let dst := for_range 0 (Z.to_nat (chunkSize rd)) (fun x dst =>
                   spectrum_element rd yLower yUpper A B offs dstOffs (Z.of_nat x) dst) dst in
      let dstOffs := Int32.add dstOffs chunkElements in
      if dstElements <=? dstOffs then Returns (dst, f)
      else spectrum_chunks fuel' rd yLower yUpper A B chunkElements dstElements
             (advanceChunk LEVELS f) dstOffs dst
  end.

(** The logical chunk at which [readSpectrum] starts: the chunk of
    [startSamples] moved by half of the chunks of the level. *)
Definition spectrum_start (rd : t) (view : mipmapReaderView) (i : nat)
    (compression : Z) : outcome Z :=
  t1 ← idiv (length rd) (at_ (levelCompression rd) i);
  totalChunks ← idiv t1 (chunkSize rd);
  mipmapStart ← idiv (startSamples view) compression;
  chunkIndex ← idiv mipmapStart (chunkSize rd);
  let chunkIndex := Int32.add chunkIndex (Int32.div totalChunks 2) in
  let chunkIndex :=
    if totalChunks <=? chunkIndex then Int32.sub chunkIndex totalChunks
    else chunkIndex in
  Returns chunkIndex.

(** [mipmapReader::readSpectrum] (the class has [CHANNELS == 2] there) *)
Definition readSpectrum (fuel : nat) (rd : t) (view : mipmapReaderView)
    (dst : gmap Z Z) (yLower yUpper : real) : outcome (gmap Z Z * t) :=
  let A := div (sub (of_int valMax) (of_int valMin)) (sub yUpper yLower) in
  let B := of_int valMin in
  let viewSpan := Int32.sub (endSamples view) (startSamples view) in
  compression ← idiv viewSpan (resolution view);
  let i := find_level (levelCompression rd) compression in
  if (i =? LEVELS)%nat then LogicError "no mipmap level for this resolution" else
  chunkIndex ← spectrum_start rd view i compression;
  let f := goToChunk LEVELS i chunkIndex (finder rd) in
  let chunkElements := chunkSize rd in
  let dstElements := resolution view in
  '(dst, f) ← spectrum_chunks fuel rd yLower yUpper A B chunkElements dstElements f 0 dst;
  Returns (dst, set_finder f rd).

End Extraction.

End mipmapReader.

(** ** Valid readers and requests *)

(** A reader whose levels have a compression of at least 1, with chunks of
    at least one sample group, and a stream short enough for the rounding
    of [requestView] ([endSamples + roundTo]) to stay within [int]. *)
Definition reader_ok (LEVELS : nat) (rd : mipmapReader.t) : bool :=
  (1 <=? LEVELS)%nat
  && (length (mipmapReader.levelCompression rd) =? LEVELS)%nat
  && (1 <=? mipmapReader.chunkSize rd)
  && forallb (fun c => (1 <=? c)
                       && (mipmapReader.length rd + c * mipmapReader.chunkSize rd <? 2 ^ 31))
             (mipmapReader.levelCompression rd).

(** The caller's precondition on a request:
    [0 <= startSamples < endSamples <= length]. *)
Definition request_ok (rd : mipmapReader.t) (v : mipmapReaderView) : bool :=
  (0 <=? startSamples v) && (startSamples v <? endSamples v)
  && (endSamples v <=? mipmapReader.length rd).

(** A level of compression [c] is at least as detailed as the request asks:
    [c <= span / resolution], over the rationals. *)
Definition qualifies (requested : mipmapReaderView) (c : Z) : Prop :=
  (inject_Z c
   <= inject_Z (endSamples requested - startSamples requested)
      / inject_Z (resolution requested))%Q.

(** Level [i] is the largest level that qualifies. *)
Definition largest_qualifying (LEVELS : nat) (rd : mipmapReader.t)
    (requested : mipmapReaderView) (i : nat) : Prop :=
  (i < LEVELS)%nat
  /\ qualifies requested (at_ (mipmapReader.levelCompression rd) i)
  /\ forall j, (i < j < LEVELS)%nat ->
       ~ qualifies requested (at_ (mipmapReader.levelCompression rd) j).

Definition none_qualifies (LEVELS : nat) (rd : mipmapReader.t)
    (requested : mipmapReaderView) : Prop :=
  forall j, (j < LEVELS)%nat ->
    ~ qualifies requested (at_ (mipmapReader.levelCompression rd) j).

(** The request snapped to the chunks of level [i], over [Z]: the start
    down and the end up to a multiple of [roundTo]. *)
Definition snapped (rd : mipmapReader.t) (requested : mipmapReaderView) (i : nat)
  : mipmapReaderView :=
  let c := at_ (mipmapReader.levelCompression rd) i in
  let roundTo := c * mipmapReader.chunkSize rd in
  let start' := startSamples requested / roundTo * roundTo in
  let end' := (endSamples requested + roundTo - 1) / roundTo * roundTo in
  View start' end' ((end' - start') / c).

(** [init] has no [assert] and no [throw]: a call always returns. *)
Definition init_call (LEVELS : nat) (f : mipmapChunkFinder) : outcome mipmapChunkFinder :=
  Returns (init LEVELS f).

Section Samples.

Context `{mipmapReader.External}.

(** The sample [x] of the chunk stored from element [offs] on. *)
Definition sample_at (rd : mipmapReader.t) (yLower yUpper A B : mipmapReader.real)
    (offs x : Z) : Z :=
  mipmapReader.spectrum_sample
    (mipmapReader.mipmap rd (Int32.add offs (Int32.mul x 2)))
    (mipmapReader.mipmap rd (Int32.add (Int32.add offs (Int32.mul x 2)) 1))
    yLower yUpper A B.

End Samples.

(** ** Examples *)

(** The indexer of the scenario [branchFactor = [4, 4]]. *)
Definition finder44 : mipmapChunkFinder := init 2 (new_finder 2 [4; 4]).

(** A two-level reader over a stream of [len] sample groups, with the
    default [chunkSize = 16] and [baseLevelStep = 4]. *)
Definition reader44 (len : Z) : mipmapReader.t :=
  mipmapReader.init 2 [4; 4] (mipmapReader.new_reader 2 (fun _ => 0) len).

(** An instance of the external arithmetic over the integers, with
    [INTTYPE = int8_t], to run the extraction on examples. *)
Definition integer_external : mipmapReader.External := {|
  mipmapReader.real := Z;
  mipmapReader.of_int := fun z => z;
  mipmapReader.add := Z.add;
  mipmapReader.sub := Z.sub;
  mipmapReader.mul := Z.mul;
  mipmapReader.div := Z.div;
  mipmapReader.round := fun z => z;
  mipmapReader.clamp := fun v lo hi => Z.max lo (Z.min v hi);
  mipmapReader.spectrumValue := fun re im => Z.max re im;
  mipmapReader.valMin := -128;
  mipmapReader.valMax := 127;
  mipmapReader.to_INTTYPE := fun z => z
|}.
(** ** Further notions for the properties of the whole file *)

(** Number of nodes of all the levels of [B] together. *)
Fixpoint nodes_total (B : list Z) : Z :=
  match B with
  | [] => 0
  | b :: B' => node_count (b :: B') + nodes_total B'
  end.

(** The packed element with the given signed halves: the low 32 bits hold
    [lower], the high 32 bits hold [upper], in two's complement. *)
Definition pack (lower upper : Z) : Z :=
  Z.lor (Z.shiftl (upper mod 2 ^ 32) 32) (lower mod 2 ^ 32).

(** [levelCompression] as [mipmapReader::init] leaves it, over [Z]:
    [base; base*b0; base*b0*b1; ...]. *)
Fixpoint compression_from (c : Z) (B : list Z) : list Z :=
  match B with
  | [] => []
  | b :: B' => c :: compression_from (c * b) B'
  end.

(** The levels are sorted by compression. *)
Definition compression_sorted (rd : mipmapReader.t) : Prop :=
  forall i j, (i <= j < length (mipmapReader.levelCompression rd))%nat ->
    at_ (mipmapReader.levelCompression rd) i <= at_ (mipmapReader.levelCompression rd) j.

(** What a step of the indexer keeps: the configuration, the level, and
    the local indexes below position [i]. *)
Definition same_below (i : nat) (f f' : mipmapChunkFinder) : Prop :=
  levelSteps f' = levelSteps f /\ levelSizes f' = levelSizes f
  /\ totalChunkCount f' = totalChunkCount f
  /\ length (levelIndex f') = length (levelIndex f)
  /\ take i (levelIndex f') = take i (levelIndex f).


(** The slot of the [n]-th node of level [l] in a tree of branch factors
    [steps], computed from the branch factors alone. *)
Definition layout_slot (steps : list Z) (l : nat) (n : Z) : Z :=
  let w := top_from 1 (take l steps) in
  w * n + ancestors_before (drop l steps) n + (w - 1).

(** The level that [requestView] reports, from the level at which the
    search stopped. *)
Definition reported (rd : mipmapReader.t) (s : Z) : Z :=
  if (s <? 0) && mipmapReader.allowOriginal rd then s
  else Z.of_nat (Z.to_nat (if s <? 0 then 0 else s)).


(** The number of chunks that the [while (true)] loops of [read] and of
    [readSpectrum] visit: the loop tests [dstOffs >= dstElements] after a
    chunk is copied, so at least one. *)
Definition chunks_read (dstElements chunkElements : Z) : Z :=
  if dstElements <=? chunkElements then 1
  else (dstElements + chunkElements - 1) / chunkElements.

(** The [int32_t] whose two's complement is the 32-bit pattern [u]. *)
Definition signed32 (u : Z) : Z := if u <? 2 ^ 31 then u else u - 2 ^ 32.

Section Slots.

Context `{mipmapReader.External}.

(** What [read] writes in slot [y] of a chunk stored from element [offs]
    on: the lower bound of element [y/2] (its low 32 bits, signed) in an
    even slot, the upper bound (its high 32 bits, signed) in an odd one,
    clamped and rescaled. *)
Definition slot_at (rd : mipmapReader.t) (yLower yUpper A B : mipmapReader.real)
    (offs y : Z) : Z :=
  let element := mipmapReader.mipmap rd (offs + y / 2) in
  let bound := if Z.even y then signed32 (element mod 2 ^ 32)
               else signed32 (element / 2 ^ 32 mod 2 ^ 32) in
  mipmapReader.rescale (mipmapReader.clamp (mipmapReader.of_int bound) yLower yUpper)
    yLower A B.

(** The same with the element index computed in [int], as [read] does. *)
Definition slot32_at (rd : mipmapReader.t) (yLower yUpper A B : mipmapReader.real)
    (offs y : Z) : Z :=
  let element := mipmapReader.mipmap rd (Int32.add offs (y / 2)) in
  let bound := if Z.even y then lower32 element else upper32 element in
  mipmapReader.rescale (mipmapReader.clamp (mipmapReader.of_int bound) yLower yUpper)
    yLower A B.

(** What [readSpectrum] writes for sample [x] of a chunk stored from
    element [offs] on: the value of the real element [offs + 2*x] and of
    the imaginary element after it. *)
Definition spectrum_at (rd : mipmapReader.t) (yLower yUpper A B : mipmapReader.real)
    (offs x : Z) : Z :=
  mipmapReader.spectrum_sample
    (mipmapReader.mipmap rd (offs + 2 * x))
    (mipmapReader.mipmap rd (offs + 2 * x + 1))
    yLower yUpper A B.

End Slots.

(** What [mipmapReader::init] stores in [levelCompression], in the
    arithmetic of [int]. *)
Fixpoint compression32_from (c : Z) (B : list Z) : list Z :=
  match B with
  | [] => []
  | b :: B' => c :: compression32_from (Int32.mul c b) B'
  end.
(** ** Facts on 32-bit arithmetic *)

Lemma wrap_id z : Int32.min_int <= z <= Int32.max_int -> Int32.wrap z = z.
Proof.
  unfold Int32.wrap, Int32.min_int, Int32.max_int. intros H.
  rewrite Z.mod_small; lia.
Qed.

Lemma wrap_range z : Int32.min_int <= Int32.wrap z <= Int32.max_int.
Proof.
  unfold Int32.wrap, Int32.min_int, Int32.max_int.
  pose proof (Z.mod_pos_bound (z + 2 ^ 31) (2 ^ 32)). lia.
Qed.

(** A quotient by a positive number lies between 0 and the dividend. *)
Lemma div_between a b : 0 <= a -> 1 <= b -> 0 <= a / b <= a.
Proof.
  intros Ha Hb. split; [apply Z.div_pos; lia|].
  apply Z.div_le_upper_bound; [lia|]. nia.
Qed.

(** A division whose divisor is not zero and whose quotient is an [int]. *)
Lemma idiv_defined a b :
  b <> 0 -> (a <> Int32.min_int \/ b <> -1) ->
  idiv a b = Returns (Int32.div a b).
Proof.
  intros Hb Hab. unfold idiv.
  destruct (Z.eqb_spec b 0) as [|_]; [done|].
  destruct (Z.eqb_spec a Int32.min_int) as [Ha|_]; [|done].
  destruct (Z.eqb_spec b (-1)) as [Hb1|_]; [|done].
  destruct Hab; done.
Qed.

Lemma idiv_pos_divisor a b : 1 <= b -> idiv a b = Returns (Int32.div a b).
Proof. intros Hb. apply idiv_defined; [lia | right; lia]. Qed.


Lemma max_int_val : Int32.max_int = 2147483647.
Proof. reflexivity. Qed.

Lemma min_int_val : Int32.min_int = -2147483648.
Proof. reflexivity. Qed.

(** Closes a goal stating that a value fits in an [int]. *)
Ltac in_int_range := rewrite ?min_int_val, ?max_int_val in *; lia.

(** ** Facts on the exact quantities *)

Lemma length_sizes_from B : forall w, length (sizes_from w B) = length B.
Proof. induction B as [|b B IH]; intros w; simpl; [done | by rewrite IH]. Qed.

Lemma sizes_from_app B1 : forall w B2,
  sizes_from w (B1 ++ B2) = sizes_from w B1 ++ sizes_from (top_from w B1) B2.
Proof. induction B1 as [|b B1 IH]; intros w B2; simpl; [done | by rewrite IH]. Qed.

Lemma top_from_app B1 : forall w B2,
  top_from w (B1 ++ B2) = top_from (top_from w B1) B2.
Proof. induction B1 as [|b B1 IH]; intros w B2; simpl; [done | by rewrite IH]. Qed.

Lemma top_from_ge B : forall w,
  Forall (fun b => 1 <= b) B -> 1 <= w -> w + Z.of_nat (length B) <= top_from w B.
Proof.
  induction B as [|b B IH]; intros w HB Hw; simpl; [lia|].
  inversion HB as [|? ? Hb HB']; subst.
  specialize (IH (w * b + 1) HB' ltac:(nia)). nia.
Qed.

Lemma node_count_pos B : Forall (fun b => 1 <= b) B -> 1 <= node_count B.
Proof.
  induction 1 as [|b B Hb HB IH]; simpl; [lia | nia].
Qed.

Lemma digits_length B : forall n, length (digits B n) = length B.
Proof. induction B as [|b B IH]; intros n; simpl; [done | by rewrite IH]. Qed.

Lemma digits_mod B : forall n,
  Forall (fun b => 1 <= b) B -> digits B (n mod node_count B) = digits B n.
Proof.
  induction B as [|b B IH]; intros n HB; simpl; [done|].
  inversion HB as [|? ? Hb HB']; subst.
  pose proof (node_count_pos B HB') as HN.
  rewrite Z.rem_mul_r by lia.
  set (r := n mod b). set (q := (n / b) mod node_count B).
  assert (0 <= r < b) by (apply Z.mod_pos_bound; lia).
  f_equal.
  - symmetry. apply (Z.mod_unique_pos _ _ q); lia.
  - replace ((r + b * q) / b) with q; [by apply IH|].
    apply (Z.div_unique_pos _ _ _ r); lia.
Qed.

Lemma digits_range B : forall n,
  Forall (fun b => 1 <= b) B -> Forall2 (fun d b => 0 <= d < b) (digits B n) B.
Proof.
  induction B as [|b B IH]; intros n HB; simpl; [constructor|].
  inversion HB as [|? ? Hb HB']; subst.
  constructor; [apply Z.mod_pos_bound; lia | by apply IH].
Qed.

Lemma ancestors_before_mono B : forall n m,
  Forall (fun b => 1 <= b) B -> 0 <= n <= m ->
  0 <= ancestors_before B n <= ancestors_before B m.
Proof.
  induction B as [|b B IH]; intros n m HB Hnm; simpl; [lia|].
  inversion HB as [|? ? Hb HB']; subst.
  assert (0 <= n / b <= m / b).
  { split; [apply Z.div_pos; lia | apply Z.div_le_mono; lia]. }
  specialize (IH (n / b) (m / b) HB' ltac:(lia)). lia.
Qed.

(** The weighted sum of the digits of [n] is [w*n] plus the ancestors. *)
Lemma weighted_sum_digits B : forall w n,
  Forall (fun b => 1 <= b) B -> 0 <= n < node_count B ->
  weighted_sum (digits B n) (sizes_from w B) = w * n + ancestors_before B n.
Proof.
  induction B as [|b B IH]; intros w n HB Hn; simpl in *.
  { replace n with 0 by lia. lia. }
  inversion HB as [|? ? Hb HB']; subst.
  assert (0 <= n / b < node_count B).
  { split; [apply Z.div_pos; lia | apply Z.div_lt_upper_bound; lia]. }
  rewrite IH by done.
  pose proof (Z.div_mod n b ltac:(lia)). nia.
Qed.

(** The last node of a level sits [length B] slots below the subtree of the
    level above. *)
Lemma slot_last B : forall w,
  Forall (fun b => 1 <= b) B ->
  w * (node_count B - 1) + ancestors_before B (node_count B - 1)
  = top_from w B - w - Z.of_nat (length B).
Proof.
  induction B as [|b B IH]; intros w HB; [simpl; lia|].
  inversion HB as [|? ? Hb HB']; subst.
  pose proof (node_count_pos B HB') as HN.
  cbn [node_count ancestors_before top_from length].
  assert (Hq : (b * node_count B - 1) / b = node_count B - 1).
  { symmetry. apply (Z.div_unique _ _ _ (b - 1)); lia. }
  rewrite Hq. specialize (IH (w * b + 1) HB'). nia.
Qed.

Lemma sizes_from_lookup B : forall w k,
  (k < length B)%nat -> sizes_from w B !! k = Some (top_from w (take k B)).
Proof.
  induction B as [|b B IH]; intros w k Hk; simpl in *; [lia|].
  destruct k as [|k]; simpl; [done|]. apply IH. lia.
Qed.

Lemma at_sizes_from B w k :
  (k < length B)%nat -> at_ (sizes_from w B) k = top_from w (take k B).
Proof. intros Hk. unfold at_. by rewrite sizes_from_lookup. Qed.

Lemma drop_sizes_from B w k :
  drop k (sizes_from w B) = sizes_from (top_from w (take k B)) (drop k B).
Proof.
  rewrite <- (take_drop k B) at 1. rewrite sizes_from_app.
  destruct (decide (k <= length B)%nat) as [Hk|Hk].
  - rewrite drop_app_length'; [done|].
    rewrite length_sizes_from, length_take. lia.
  - rewrite (drop_ge B) by lia. rewrite app_nil_r. simpl.
    rewrite drop_ge; [done|]. rewrite length_sizes_from, length_take. lia.
Qed.

Lemma top_from_take_drop B w k :
  top_from (top_from w (take k B)) (drop k B) = top_from w B.
Proof. rewrite <- top_from_app. by rewrite take_drop. Qed.

Lemma top_from_pos B : forall w,
  Forall (fun b => 1 <= b) B -> 1 <= w -> 1 <= top_from w B.
Proof. intros w HB Hw. pose proof (top_from_ge B w HB Hw). lia. Qed.

(** Subtree sizes grow with the level. *)
Lemma top_from_take_mono B w k k' :
  Forall (fun b => 1 <= b) B -> 1 <= w -> (k <= k')%nat ->
  top_from w (take k B) <= top_from w (take k' B).
Proof.
  intros HB Hw Hk.
  rewrite <- (top_from_take_drop (take k' B) w k).
  rewrite take_take. replace (k `min` k')%nat with k by lia.
  assert (H1 : Forall (fun b => 1 <= b) (drop k (take k' B)))
    by (by apply Forall_drop, Forall_take).
  assert (H2 : 1 <= top_from w (take k B))
    by (apply top_from_pos; [by apply Forall_take | done]).
  pose proof (top_from_ge _ _ H1 H2). lia.
Qed.

Lemma top_from_snoc B w b : top_from w (B ++ [b]) = top_from w B * b + 1.
Proof. by rewrite top_from_app. Qed.

Lemma eqb_list_eq l1 : forall l2, eqb_list l1 l2 = true -> l1 = l2.
Proof.
  induction l1 as [|x l1 IH]; intros [|y l2] H; simpl in H; try done.
  apply andb_true_iff in H as [Hx Hl]. apply Z.eqb_eq in Hx. f_equal; auto.
Qed.

Lemma at_lookup (a : list Z) i x : a !! i = Some x -> at_ a i = x.
Proof. unfold at_. by intros ->. Qed.

(** ** Well-formed finders *)

Section FinderFacts.

Variable LEVELS : nat.

Lemma steps_ok_elim steps :
  steps_ok LEVELS steps = true ->
  (1 <= LEVELS)%nat /\ length steps = LEVELS /\ Forall (fun b => 1 <= b) steps
  /\ exact_total steps + at_ (exact_sizes steps) (LEVELS - 1) <= 2 ^ 31.
Proof.
  unfold steps_ok. rewrite !andb_true_iff.
  intros [[[H1 H2] H3] H4].
  apply Nat.leb_le in H1. apply Nat.eqb_eq in H2. apply Z.leb_le in H4.
  repeat split; try done.
  apply Forall_forall. intros b Hb.
  rewrite forallb_forall in H3. apply Z.leb_le, H3. by apply list_elem_of_In.
Qed.

Lemma finder_ok_wf f : finder_ok LEVELS f = true -> wf LEVELS f.
Proof.
  unfold finder_ok. rewrite !andb_true_iff.
  intros [[[H1 H2] H3] H4].
  apply steps_ok_elim in H1 as (? & ? & ? & ?).
  apply eqb_list_eq in H2. apply Z.eqb_eq in H3. apply Nat.eqb_eq in H4.
  by constructor.
Qed.

Lemma wf_level_facts f level :
  wf LEVELS f -> (level < LEVELS)%nat -> level_facts LEVELS f level.
Proof.
  intros [HL Hlen Hsteps Hsizes Htotal Hidx Hbound] Hlevel.
  set (steps := levelSteps f) in *.
  assert (Hw : at_ (levelSizes f) level = top_from 1 (take level steps)).
  { rewrite Hsizes. apply at_sizes_from. lia. }
  constructor; fold steps.
  - rewrite Hw, Hsizes. apply drop_sizes_from.
  - rewrite Hw, top_from_take_drop, Htotal. unfold exact_total. lia.
  - rewrite Hw. apply top_from_pos; [by apply Forall_take | lia].
  - rewrite Hw, Htotal.
    unfold exact_sizes in Hbound. rewrite at_sizes_from in Hbound by lia.
    pose proof (top_from_take_mono steps 1 level (LEVELS - 1) Hsteps) as Hm.
    specialize (Hm ltac:(lia) ltac:(lia)). lia.
  - by apply Forall_drop.
  - rewrite length_drop. lia.
  - intros Hpos. rewrite Hw, Hsizes. unfold exact_sizes.
    rewrite at_sizes_from by lia.
    destruct level as [|l]; [lia|].
    replace (S l - 1)%nat with l by lia.
    destruct (lookup_lt_is_Some_2 steps l) as [b Hb]; [lia|].
    rewrite (at_lookup _ _ _ Hb).
    rewrite (take_S_r _ _ _ Hb), top_from_snoc. lia.
Qed.

End FinderFacts.

(** ** [init] *)

Lemma length_sizes32_from B : forall w, length (sizes32_from w B) = length B.
Proof. induction B as [|b B IH]; intros w; simpl; [done | by rewrite IH]. Qed.

Lemma sizes32_from_S B : forall w k x b,
  (S k < length B)%nat -> sizes32_from w B !! k = Some x -> B !! k = Some b ->
  sizes32_from w B !! S k = Some (Int32.add (Int32.mul x b) 1).
Proof.
  induction B as [|b0 B IH]; intros w k x b Hk Hx Hb; simpl in *; [lia|].
  destruct k as [|k]; simpl in *.
  - inversion Hx; inversion Hb; subst. destruct B; simpl in *; [lia | done].
  - apply (IH _ k x b); [lia | done | done].
Qed.

Lemma sizes32_exact B : forall w,
  Forall (fun b => 1 <= b) B -> 1 <= w -> top_from w B <= 2 ^ 31 ->
  sizes32_from w B = sizes_from w B.
Proof.
  induction B as [|b B IH]; intros w HB Hw Htop; simpl in *; [done|].
  inversion HB as [|? ? Hb HB']; subst.
  destruct B as [|b' B]; [done|].
  pose proof (top_from_ge (b' :: B) (w * b + 1) HB' ltac:(nia)) as Hge.
  simpl length in Hge.
  unfold Int32.add, Int32.mul.
  rewrite (wrap_id (w * b)) by (rewrite min_int_val, max_int_val; nia).
  rewrite wrap_id by (rewrite min_int_val, max_int_val; nia).
  f_equal. apply IH; [done | nia | done].
Qed.

Section InitFacts.

Variable LEVELS : nat.

Lemma for_loop_init_sizes n : forall i f,
  (1 <= i)%nat -> (i + n = LEVELS)%nat ->
  length (levelSizes f) = LEVELS -> length (levelSteps f) = LEVELS ->
  take i (levelSizes f) = take i (sizes32_from 1 (levelSteps f)) ->
  for_loop n i (fun i f =>
    set_levelSizes
      (<[i := Int32.add (Int32.mul (at_ (levelSizes f) (i - 1))
                                   (at_ (levelSteps f) (i - 1))) 1]>
         (levelSizes f)) f) f
  = set_levelSizes (sizes32_from 1 (levelSteps f)) f.
Proof.
  induction n as [|n IH]; intros i f Hi Hn Hlen Hsteps Htake; simpl.
  - rewrite !take_ge in Htake by (rewrite ?length_sizes32_from; lia).
    rewrite <- Htake. by destruct f.
  - rewrite IH; simpl; try done; try lia.
    + by rewrite length_insert.
    + set (S32 := sizes32_from 1 (levelSteps f)).
      assert (HlenS : length S32 = LEVELS)
        by (unfold S32; rewrite length_sizes32_from; lia).
      destruct (lookup_lt_is_Some_2 (levelSteps f) (i - 1)) as [b Hb]; [lia|].
      destruct (lookup_lt_is_Some_2 S32 (i - 1)) as [x Hx]; [lia|].
      assert (Hx' : levelSizes f !! (i - 1)%nat = Some x).
      { rewrite <- (lookup_take_lt _ i) by lia. rewrite Htake.
        rewrite lookup_take_lt by lia. done. }
      rewrite (at_lookup _ _ _ Hx'), (at_lookup _ _ _ Hb).
      assert (HS : S32 !! i = Some (Int32.add (Int32.mul x b) 1)).
      { replace i with (S (i - 1)) at 1 by lia.
        apply sizes32_from_S; [lia | done | done]. }
      rewrite (take_S_r _ _ _ HS).
      erewrite take_S_r; last by (apply list_lookup_insert_eq; lia).
      rewrite take_insert_ge by lia. by rewrite Htake.
Qed.

(** [init] fills [levelSizes] and [totalChunkCount] by the recurrence,
    whatever the branch factors are. *)
Lemma init_computes f :
  (1 <= LEVELS)%nat ->
  length (levelSizes f) = LEVELS -> length (levelSteps f) = LEVELS ->
  init LEVELS f
  = set_totalChunkCount
      (Int32.mul (at_ (sizes32_from 1 (levelSteps f)) (LEVELS - 1))
                 (at_ (levelSteps f) (LEVELS - 1)))
      (set_levelSizes (sizes32_from 1 (levelSteps f)) f).
Proof.
  intros HL Hlen Hsteps. unfold init, for_range.
  rewrite for_loop_init_sizes; simpl; try done; try lia.
  - by rewrite length_insert.
  - destruct (levelSizes f) as [|s0 sizes]; simpl in *; [lia|].
    destruct (levelSteps f) as [|b0 steps]; simpl in *; [lia|]. done.
Qed.

Lemma init_wf f :
  steps_ok LEVELS (levelSteps f) = true ->
  length (levelSizes f) = LEVELS -> length (levelIndex f) = LEVELS ->
  wf LEVELS (init LEVELS f).
Proof.
  intros Hok Hlen Hidx.
  apply steps_ok_elim in Hok as (HL & Hsteps & HB & Hbound).
  rewrite init_computes by done.
  assert (Hsz : 1 <= at_ (exact_sizes (levelSteps f)) (LEVELS - 1)).
  { unfold exact_sizes. rewrite at_sizes_from by lia.
    apply top_from_pos; [by apply Forall_take | lia]. }
  assert (Hex : sizes32_from 1 (levelSteps f) = exact_sizes (levelSteps f)).
  { apply sizes32_exact; [done | lia |]. unfold exact_total in Hbound. lia. }
  constructor; simpl; try done.
  rewrite Hex. unfold exact_total, exact_sizes in *.
  rewrite at_sizes_from in * by lia.
  destruct (lookup_lt_is_Some_2 (levelSteps f) (LEVELS - 1)) as [b Hb]; [lia|].
  rewrite (at_lookup _ _ _ Hb).
  assert (Htop : top_from 1 (levelSteps f)
                 = top_from 1 (take (LEVELS - 1) (levelSteps f)) * b + 1).
  { rewrite <- top_from_snoc. rewrite <- (take_S_r _ _ _ Hb).
    rewrite take_ge by lia. done. }
  unfold Int32.mul. rewrite wrap_id; [lia|].
  rewrite min_int_val, max_int_val. rewrite Htop in Hbound.
  assert (1 <= b).
  { rewrite Forall_forall in HB. apply HB. by eapply list_elem_of_lookup_2. }
  nia.
Qed.

End InitFacts.

(** ** [goToChunk] *)

Section GoToChunkFacts.

Variable LEVELS : nat.

Lemma rem_nonneg a b :
  0 <= a <= Int32.max_int -> 1 <= b -> Int32.rem a b = a mod b.
Proof.
  intros Ha Hb. unfold Int32.rem. rewrite Z.rem_mod_nonneg by lia.
  pose proof (Z.mod_pos_bound a b ltac:(lia)).
  pose proof (Z.mod_le a b ltac:(lia) ltac:(lia)).
  apply wrap_id. rewrite min_int_val. lia.
Qed.

Lemma div_nonneg a b :
  0 <= a <= Int32.max_int -> 1 <= b -> Int32.div a b = a / b.
Proof.
  intros Ha Hb. unfold Int32.div. rewrite Z.quot_div_nonneg by lia.
  pose proof (Z.div_pos a b ltac:(lia) ltac:(lia)).
  pose proof (div_between a b ltac:(lia) Hb).
  apply wrap_id. rewrite min_int_val. lia.
Qed.

(** The first loop: the local indexes of the ancestors. *)
Lemma for_loop_digits n : forall i f tmp,
  (i + n = LEVELS)%nat ->
  length (levelIndex f) = LEVELS -> length (levelSteps f) = LEVELS ->
  Forall (fun b => 1 <= b) (levelSteps f) ->
  0 <= tmp <= Int32.max_int ->
  fst (for_loop n i (fun i '(f, tmpIndex) =>
         (set_levelIndex
            (<[i := Int32.rem tmpIndex (at_ (levelSteps f) i)]> (levelIndex f)) f,
          Int32.div tmpIndex (at_ (levelSteps f) i))) (f, tmp))
  = set_levelIndex (take i (levelIndex f) ++ digits (drop i (levelSteps f)) tmp) f.
Proof.
  induction n as [|n IH]; intros i f tmp Hn Hidx Hsteps HB Htmp; simpl.
  - rewrite drop_ge by lia. simpl. rewrite app_nil_r, take_ge by lia.
    by destruct f.
  - destruct (lookup_lt_is_Some_2 (levelSteps f) i) as [b Hb]; [lia|].
    assert (1 <= b).
    { rewrite Forall_forall in HB. apply HB. by eapply list_elem_of_lookup_2. }
    rewrite (at_lookup _ _ _ Hb).
    rewrite rem_nonneg, div_nonneg by done.
    rewrite IH; simpl; try done; try lia.
    + rewrite (drop_S _ _ _ Hb). simpl.
      erewrite take_S_r; last by (apply list_lookup_insert_eq; lia).
      rewrite take_insert_ge by lia. by rewrite <- app_assoc.
    + by rewrite length_insert.
    + pose proof (Z.div_pos tmp b ltac:(lia) ltac:(lia)).
      pose proof (div_between tmp b ltac:(lia) ltac:(lia)). lia.
Qed.

Lemma weighted_sum_nonneg D : forall W,
  Forall (fun d => 0 <= d) D -> Forall (fun w => 0 <= w) W ->
  0 <= weighted_sum D W.
Proof.
  induction D as [|d D IH]; intros [|w W] HD HW; simpl; try lia.
  inversion HD as [|? ? Hd HD']; inversion HW as [|? ? Hw HW']; subst.
  specialize (IH W HD' HW'). nia.
Qed.

(** The second loop: the chunks stored before the one looked for. *)
Lemma for_loop_sum n : forall i f,
  (i + n = LEVELS)%nat ->
  length (levelIndex f) = LEVELS -> length (levelSizes f) = LEVELS ->
  Forall (fun d => 0 <= d) (drop i (levelIndex f)) ->
  Forall (fun w => 0 <= w) (drop i (levelSizes f)) ->
  0 <= currIndex f ->
  currIndex f + weighted_sum (drop i (levelIndex f)) (drop i (levelSizes f))
    <= Int32.max_int ->
  for_loop n i (fun i f =>
    set_currIndex
      (Int32.add (currIndex f)
                 (Int32.mul (at_ (levelIndex f) i) (at_ (levelSizes f) i))) f) f
  = set_currIndex
      (currIndex f + weighted_sum (drop i (levelIndex f)) (drop i (levelSizes f))) f.
Proof.
  induction n as [|n IH]; intros i f Hn Hidx Hsizes HD HW Hcur Hmax; simpl.
  - rewrite !drop_ge by lia. simpl. rewrite Z.add_0_r. by destruct f.
  - destruct (lookup_lt_is_Some_2 (levelIndex f) i) as [d Hd]; [lia|].
    destruct (lookup_lt_is_Some_2 (levelSizes f) i) as [w Hw]; [lia|].
    rewrite (at_lookup _ _ _ Hd), (at_lookup _ _ _ Hw).
    rewrite (drop_S _ _ _ Hd), (drop_S _ _ _ Hw) in *. simpl in Hmax.
    apply Forall_cons in HD as [Hd0 HD']. apply Forall_cons in HW as [Hw0 HW'].
    pose proof (weighted_sum_nonneg _ _ HD' HW').
    assert (0 <= d * w) by nia.
    unfold Int32.add, Int32.mul.
    rewrite (wrap_id (d * w)) by in_int_range.
    rewrite wrap_id by in_int_range.
    rewrite IH; simpl; try done; try lia.
    unfold set_currIndex; simpl. f_equal. lia.
Qed.

End GoToChunkFacts.

Lemma sizes_from_pos B : forall w,
  Forall (fun b => 1 <= b) B -> 1 <= w -> Forall (fun w => 0 <= w) (sizes_from w B).
Proof.
  induction B as [|b B IH]; intros w HB Hw; simpl; constructor; [lia|].
  inversion HB as [|? ? Hb HB']; subst. apply IH; [done | nia].
Qed.

Lemma digits_nonneg B n :
  Forall (fun b => 1 <= b) B -> Forall (fun d => 0 <= d) (digits B n).
Proof.
  intros HB. pose proof (digits_range B n HB) as H.
  induction H as [|d b D B' Hd H IH]; constructor; [lia|].
  apply IH. by inversion HB.
Qed.

(** Every node of a level lies at or before the last one. *)
Lemma slot_bound B w n :
  Forall (fun b => 1 <= b) B -> 1 <= w -> 0 <= n < node_count B ->
  0 <= w * n + ancestors_before B n <= top_from w B - w - Z.of_nat (length B).
Proof.
  intros HB Hw Hn.
  pose proof (ancestors_before_mono B n (node_count B - 1) HB ltac:(lia)).
  pose proof (slot_last B w HB). nia.
Qed.

Section GoToChunkSpec.

Variable LEVELS : nat.

Lemma goToChunk_explicit f level index :
  wf LEVELS f -> (level < LEVELS)%nat -> 0 <= index <= Int32.max_int ->
  goToChunk LEVELS level index f
  = Finder (levelSteps f) (levelSizes f)
      (take level (levelIndex f) ++ digits (drop level (levelSteps f)) index)
      (totalChunkCount f) level
      (weighted_sum (digits (drop level (levelSteps f)) index)
                    (drop level (levelSizes f))
       + (if (0 <? level)%nat
          then at_ (levelSteps f) (level - 1) * at_ (levelSizes f) (level - 1)
          else 0)).
Proof.
  intros Hwf Hlevel Hindex.
  destruct (wf_level_facts LEVELS f level Hwf Hlevel)
    as [Hsizes Htop Hw Hfits HB HlenB Hbelow].
  destruct Hwf as [HL Hlen Hsteps Hsz Htotal Hidx Hbound].
  set (B := drop level (levelSteps f)) in *.
  set (w := at_ (levelSizes f) level) in *.
  set (N := node_count B).
  assert (HN : 1 <= N) by (by apply node_count_pos).
  assert (Hmod : 0 <= index mod N < N) by (apply Z.mod_pos_bound; lia).
  assert (Hsum : weighted_sum (digits B index) (sizes_from w B)
                 = w * (index mod N) + ancestors_before B (index mod N)).
  { rewrite <- (digits_mod B index) by done. by apply weighted_sum_digits. }
  pose proof (slot_bound B w (index mod N) HB Hw Hmod) as Hsb.
  assert (Hlensz : length (levelSizes f) = LEVELS).
  { rewrite Hsz. unfold exact_sizes. by rewrite length_sizes_from. }
  unfold goToChunk, for_range.
  match goal with
  | |- context [for_loop ?n ?i ?body (?a, ?b)] =>
      pose proof (for_loop_digits LEVELS n i a b) as Hloop;
      destruct (for_loop n i body (a, b)) as [f1 tmp1]
  end.
  simpl in Hloop. rewrite Hloop by (try done; lia). clear Hloop.
  rewrite (for_loop_sum LEVELS); simpl; try lia.
  - rewrite drop_app_length' by (rewrite length_take; lia).
    fold B. rewrite Hsizes in *. rewrite Hsum in *.
    destruct (0 <? level)%nat eqn:Hl; unfold set_currIndex; simpl.
    + apply Nat.ltb_lt in Hl. unfold Int32.add, Int32.mul.
      rewrite !Hbelow by done.
      rewrite (wrap_id (w - 1)) by in_int_range.
      rewrite wrap_id by in_int_range. done.
    + f_equal. lia.
  - rewrite length_app, length_take, digits_length. fold B. lia.
  - rewrite drop_app_length' by (rewrite length_take; lia). by apply digits_nonneg.
  - rewrite Hsizes. by apply sizes_from_pos.
  - rewrite drop_app_length' by (rewrite length_take; lia).
    fold B. rewrite Hsizes, Hsum. rewrite max_int_val. lia.
Qed.

Lemma goToChunk_at_chunk f level index :
  wf LEVELS f -> (level < LEVELS)%nat -> 0 <= index <= Int32.max_int ->
  at_chunk LEVELS (goToChunk LEVELS level index f) level (index mod chunks_at f level).
Proof.
  intros Hwf Hlevel Hindex.
  rewrite goToChunk_explicit by done.
  destruct (wf_level_facts LEVELS f level Hwf Hlevel)
    as [Hsizes Htop Hw Hfits HB HlenB Hbelow].
  pose proof Hwf as [HL Hlen Hsteps Hsz Htotal Hidx Hbound].
  unfold chunks_at, slot_of.
  set (B := drop level (levelSteps f)) in *.
  set (w := at_ (levelSizes f) level) in *.
  assert (HN : 1 <= node_count B) by (by apply node_count_pos).
  assert (Hmod : 0 <= index mod node_count B < node_count B)
    by (apply Z.mod_pos_bound; lia).
  constructor; simpl; try done.
  - constructor; simpl; try done.
    rewrite length_app, length_take, digits_length. fold B. lia.
  - rewrite drop_app_length' by (rewrite length_take; lia).
    fold B. by rewrite digits_mod.
  - unfold slot_of; simpl. fold B w. rewrite Hsizes.
    rewrite <- (digits_mod B index) by done.
    rewrite weighted_sum_digits by done.
    destruct (0 <? level)%nat eqn:Hl.
    + apply Nat.ltb_lt in Hl. rewrite Hbelow by done. lia.
    + apply Nat.ltb_ge in Hl. assert (level = 0%nat) as Hz by lia.
      assert (w = 1); [|lia].
      unfold w. rewrite Hz, Hsz. unfold exact_sizes.
      rewrite at_sizes_from by lia. done.
Qed.

End GoToChunkSpec.

(** ** [advanceChunk] *)

Lemma ancestors_before_0 B : ancestors_before B 0 = 0.
Proof. induction B as [|b B IH]; simpl; [done|]. by rewrite Zdiv_0_l, IH. Qed.

Lemma steps_bounded B : forall w,
  Forall (fun b => 1 <= b) B -> 1 <= w -> Forall (fun b => b <= top_from w B - 1) B.
Proof.
  induction B as [|b B IH]; intros w HB Hw; [constructor|].
  inversion HB as [|? ? Hb HB']; subst. simpl.
  pose proof (top_from_ge B (w * b + 1) HB' ltac:(nia)).
  constructor; [nia | apply IH; [done | nia]].
Qed.

(** Incrementing a number whose lowest digit is not the largest one. *)
Lemma incr_no_carry n b :
  1 <= b -> 0 <= n -> n mod b <> b - 1 ->
  (n + 1) mod b = n mod b + 1 /\ (n + 1) / b = n / b.
Proof.
  intros Hb Hn Hd.
  pose proof (Z.mod_pos_bound n b ltac:(lia)).
  pose proof (Z.div_mod n b ltac:(lia)).
  split.
  - symmetry. apply (Z.mod_unique_pos _ _ (n / b)); lia.
  - symmetry. apply (Z.div_unique_pos _ _ _ (n mod b + 1)); lia.
Qed.

Lemma succ_below_product n b N :
  1 <= b -> 0 <= n / b < N -> n mod b < b - 1 -> n + 1 < b * N.
Proof.
  intros Hb Hq Hr. pose proof (Z.div_mod n b ltac:(lia)). nia.
Qed.

(** Incrementing a number whose lowest digit is the largest one. *)
Lemma incr_carry n b :
  1 <= b -> 0 <= n -> n mod b = b - 1 ->
  (n + 1) mod b = 0 /\ (n + 1) / b = n / b + 1 /\ n + 1 = b * (n / b + 1).
Proof.
  intros Hb Hn Hd.
  pose proof (Z.div_mod n b ltac:(lia)).
  assert (n + 1 = b * (n / b + 1)) as Heq by lia.
  repeat split; [| | done].
  - symmetry. apply (Z.mod_unique_pos _ _ (n / b + 1)); lia.
  - symmetry. apply (Z.div_unique_pos _ _ _ 0); lia.
Qed.

Section AdvanceChunkFacts.

Variable LEVELS : nat.

Lemma carry_loop_spec n : forall i f m,
  (i + n = LEVELS)%nat ->
  length (levelIndex f) = LEVELS -> length (levelSteps f) = LEVELS ->
  Forall (fun b => 1 <= b) (drop i (levelSteps f)) ->
  Forall (fun b => b <= 2 ^ 31) (drop i (levelSteps f)) ->
  drop i (levelIndex f) = digits (drop i (levelSteps f)) m ->
  0 <= m < node_count (drop i (levelSteps f)) ->
  Int32.min_int <= currIndex f -> currIndex f + Z.of_nat n <= Int32.max_int ->
  let f' := carry_loop n i f in
  let B := drop i (levelSteps f) in
  levelSteps f' = levelSteps f /\ levelSizes f' = levelSizes f
  /\ totalChunkCount f' = totalChunkCount f /\ currLevel f' = currLevel f
  /\ length (levelIndex f') = LEVELS
  /\ take i (levelIndex f') = take i (levelIndex f)
  /\ (m + 1 < node_count B ->
      drop i (levelIndex f') = digits B (m + 1)
      /\ currIndex f' = currIndex f + 1 + ancestors_before B (m + 1) - ancestors_before B m)
  /\ (node_count B <= m + 1 ->
      drop i (levelIndex f') = digits B 0
      /\ currIndex f' = currIndex f + Z.of_nat n).
Proof.
  induction n as [|n IH]; intros i f m Hn Hidx Hsteps HB HB2 Hdig Hm Hlo Hhi; simpl.
  { rewrite (drop_ge (levelSteps f)) in * by lia. simpl in *.
    repeat split; try done; try lia; by rewrite drop_ge by lia. }
  destruct (lookup_lt_is_Some_2 (levelSteps f) i) as [b Hb]; [lia|].
  destruct (lookup_lt_is_Some_2 (levelIndex f) i) as [d Hd]; [lia|].
  rewrite (drop_S _ _ _ Hb) in *. rewrite (drop_S _ _ _ Hd) in Hdig.
  simpl in Hdig, Hm. injection Hdig as Hd0 Hdig.
  apply Forall_cons in HB as [Hb1 HB]. apply Forall_cons in HB2 as [Hb2 HB2].
  set (B' := drop (S i) (levelSteps f)) in *.
  assert (HN' : 1 <= node_count B') by (by apply node_count_pos).
  assert (Hq : 0 <= m / b < node_count B').
  { split; [apply Z.div_pos; lia | apply Z.div_lt_upper_bound; lia]. }
  pose proof (Z.mod_pos_bound m b ltac:(lia)) as Hdr.
  rewrite (at_lookup _ _ _ Hb), (at_lookup _ _ _ Hd).
  unfold Int32.add, Int32.sub.
  rewrite (wrap_id (b - 1)) by in_int_range.
  rewrite (wrap_id (currIndex f + 1)) by lia.
  destruct (d =? b - 1) eqn:Hcmp; simpl.
  - (* the digit rolls over: carry into the next level *)
    apply Z.eqb_eq in Hcmp.
    destruct (incr_carry m b) as (Hmod & Hdiv & Hmul); [lia | lia | lia |].
    edestruct (IH (S i)
                 (set_levelIndex (<[i:=0]> (levelIndex f))
                    (set_currIndex (currIndex f + 1) f)) (m / b))
      as (E1 & E2 & E3 & E4 & E5 & E6 & E7 & E8); simpl;
      try done; try lia.
    { by rewrite length_insert. }
    { by rewrite drop_insert_lt by lia. }
    simpl in *. fold B' in E7, E8.
    match goal with
    | |- context [carry_loop n (S i) ?g] => set (f' := carry_loop n (S i) g) in *
    end.
    assert (Hi0 : levelIndex f' !! i = Some 0).
    { rewrite <- (lookup_take_lt _ (S i)) by lia. rewrite E6.
      rewrite lookup_take_lt by lia. apply list_lookup_insert_eq. lia. }
    repeat split; try done.
    + apply (f_equal (take i)) in E6.
      rewrite !take_take in E6. replace (i `min` S i)%nat with i in E6 by lia.
      rewrite E6. by rewrite take_insert_ge by lia.
    + rewrite (drop_S _ _ _ Hi0). destruct E7 as [E7 _]; [nia|].
      rewrite Hmod, Hdiv. by rewrite E7.
    + destruct E7 as [_ E7]; [nia|]. rewrite E7, Hdiv. lia.
    + rewrite (drop_S _ _ _ Hi0). destruct E8 as [E8 _]; [nia|].
      rewrite Zmod_0_l, Zdiv_0_l. by rewrite E8.
    + destruct E8 as [_ E8]; [nia|]. rewrite E8. lia.
  - (* no carry: increment the digit and stop *)
    apply Z.eqb_neq in Hcmp.
    destruct (incr_no_carry m b) as (Hmod & Hdiv); [lia | lia | lia |].
    rewrite wrap_id by in_int_range.
    assert (m + 1 < b * node_count B') by (apply succ_below_product; lia).
    repeat split; try done; try lia.
    + by rewrite length_insert.
    + by rewrite take_insert_ge by lia.
    + erewrite drop_S; last by (apply list_lookup_insert_eq; lia).
      rewrite drop_insert_lt by lia. rewrite Hmod, Hdiv, Hdig. by subst d.
    + rewrite Hdiv. lia.
Qed.

End AdvanceChunkFacts.

Section AdvanceChunkSpec.

Variable LEVELS : nat.

Lemma wf_same_config f g :
  wf LEVELS f ->
  levelSteps g = levelSteps f -> levelSizes g = levelSizes f ->
  totalChunkCount g = totalChunkCount f -> length (levelIndex g) = LEVELS ->
  wf LEVELS g.
Proof.
  intros [HL Hlen Hsteps Hsz Htotal Hidx Hbound] E1 E2 E3 E4.
  constructor; rewrite ?E1, ?E2, ?E3; done.
Qed.

Lemma advanceChunk_at_chunk f level n :
  at_chunk LEVELS f level n ->
  at_chunk LEVELS (advanceChunk LEVELS f) level ((n + 1) mod chunks_at f level)
  /\ levelSteps (advanceChunk LEVELS f) = levelSteps f.
Proof.
  intros [Hwf Hlevel Hcur Hn Hdig Hslot].
  destruct (wf_level_facts LEVELS f level Hwf Hlevel)
    as [Hsizes Htop Hw Hfits HB HlenB Hbelow].
  pose proof Hwf as [HL Hlen Hsteps Hsz Htotal Hidx Hbound].
  unfold chunks_at, slot_of in *.
  set (w := at_ (levelSizes f) level) in *.
  set (T := totalChunkCount f) in *.
  destruct (lookup_lt_is_Some_2 (levelSteps f) level) as [b Hb]; [lia|].
  destruct (lookup_lt_is_Some_2 (levelIndex f) level) as [d Hd]; [lia|].
  pose proof (steps_bounded _ w HB Hw) as HB2. rewrite Htop in HB2.
  pose proof (slot_bound _ w n HB Hw Hn) as Hsb. rewrite Htop in Hsb.
  pose proof (slot_last _ w HB) as Hlast. rewrite Htop in Hlast.
  rewrite (drop_S _ _ _ Hb) in *. rewrite (drop_S _ _ _ Hd) in Hdig.
  simpl in Hdig, Hn, Hsb, Hlast, HlenB, Hslot, Htop |- *. injection Hdig as Hd0 Hdig.
  apply Forall_cons in HB as [Hb1 HB]. apply Forall_cons in HB2 as [Hb2 HB2].
  set (B' := drop (S level) (levelSteps f)) in *.
  set (N' := node_count B') in *.
  assert (HN' : 1 <= N') by (by apply node_count_pos).
  assert (Hq : 0 <= n / b < N').
  { split; [apply Z.div_pos; lia | apply Z.div_lt_upper_bound; lia]. }
  pose proof (Z.mod_pos_bound n b ltac:(lia)) as Hdr.
  assert (Hsub : Int32.sub b 1 = b - 1).
  { apply wrap_id. in_int_range. }
  assert (Hadd : Int32.add (currIndex f) w = currIndex f + w).
  { apply wrap_id. in_int_range. }
  unfold advanceChunk. rewrite Hcur. simpl. fold w T.
  rewrite (at_lookup _ _ _ Hb), (at_lookup _ _ _ Hd).
  rewrite !Hsub, !Hadd.
  destruct (d =? b - 1) eqn:Hcmp.
  - (* carry into the levels above *)
    apply Z.eqb_eq in Hcmp.
    destruct (incr_carry n b) as (Hmod & Hdiv & Hmul); [lia | lia | lia |].
    replace (level + 1)%nat with (S level) by lia.
    edestruct (carry_loop_spec LEVELS (LEVELS - S level) (S level)
                 (set_currIndex (currIndex f + w) f) (n / b))
      as (E1 & E2 & E3 & E4 & E5 & E6 & E7 & E8); simpl;
      try done; try lia.
    { eapply Forall_impl; [exact HB2|]. simpl. lia. }
    { rewrite min_int_val. lia. }
    { rewrite max_int_val. lia. }
    simpl in *. fold B' N' in E7, E8.
    match goal with
    | |- context [carry_loop ?k (S level) ?g] => set (f' := carry_loop k (S level) g) in *
    end.
    rewrite E3. fold T.
    assert (Hwf' : forall g,
               levelSteps g = levelSteps f' -> levelSizes g = levelSizes f' ->
               totalChunkCount g = totalChunkCount f' ->
               levelIndex g = <[level:=0]> (levelIndex f') -> wf LEVELS g).
    { intros g G1 G2 G3 G4. apply (wf_same_config f); try congruence.
      by rewrite G4, length_insert. }
    assert (Hdrop : drop level (<[level:=0]> (levelIndex f'))
                    = 0 :: drop (S level) (levelIndex f')).
    { erewrite drop_S; last by (apply list_lookup_insert_eq; lia).
      by rewrite drop_insert_lt by lia. }
    destruct (decide (n / b + 1 < N')) as [Hlt|Hge].
    + (* the chunk after is still in the ring *)
      destruct E7 as [E7 E7']; [done|].
      assert (Hn1 : n + 1 < b * N') by nia.
      rewrite (Z.mod_small (n + 1)) by lia.
      pose proof (slot_bound (b :: B') w (n + 1)) as Hsb'.
      simpl in Hsb'. fold B' N' in Hsb'. rewrite Htop in Hsb'.
      specialize (Hsb' ltac:(by constructor) Hw ltac:(lia)).
      rewrite Hdiv in Hsb'.
      assert (Hnew : currIndex f' = w * (n + 1) + (n / b + 1
                       + ancestors_before B' (n / b + 1)) + (w - 1)).
      { rewrite E7', Hslot. lia. }
      assert (Hlt' : currIndex f' < T) by lia.
      destruct (T <=? currIndex f') eqn:HT; [apply Z.leb_le in HT; lia|].
      split; [|simpl; done].
      constructor; [by apply Hwf' | done | simpl; by rewrite E4 | | |].
      * unfold chunks_at. simpl. rewrite E1, (drop_S _ _ _ Hb). simpl. fold B' N'. lia.
      * simpl. rewrite E1, Hdrop, (drop_S _ _ _ Hb). simpl. fold B'.
        by rewrite Hmod, Hdiv, E7.
      * unfold slot_of. simpl. rewrite E1, E2, (drop_S _ _ _ Hb). simpl.
        fold w B'. rewrite Hdiv. done.
    + (* the last chunk of the level: back to the first one *)
      destruct E8 as [E8 E8']; [lia|].
      assert (Hlastn : n = b * N' - 1) by nia.
      replace (n + 1) with (b * N') by lia.
      rewrite Z_mod_same_full.
      assert (Hnew : currIndex f' = T + w - 1).
      { rewrite E8', Hslot. rewrite Hlastn in *. lia. }
      destruct (T <=? currIndex f') eqn:HT; [|apply Z.leb_gt in HT; lia].
      split; [|simpl; done].
      constructor; [by apply Hwf' | done | simpl; by rewrite E4 | | |].
      * unfold chunks_at. simpl. rewrite E1, (drop_S _ _ _ Hb). simpl. fold B' N'. lia.
      * simpl. rewrite E1, Hdrop, (drop_S _ _ _ Hb). simpl. fold B'.
        by rewrite Zmod_0_l, Zdiv_0_l, E8.
      * unfold slot_of. simpl. rewrite E1, E2, (drop_S _ _ _ Hb). simpl.
        fold w B'. rewrite Zdiv_0_l, ancestors_before_0.
        unfold Int32.sub. rewrite wrap_id by in_int_range.
        lia.
  - (* the next sibling *)
    apply Z.eqb_neq in Hcmp.
    destruct (incr_no_carry n b) as (Hmod & Hdiv); [lia | lia | lia |].
    assert (Hn1 : n + 1 < b * N') by (apply succ_below_product; lia).
    rewrite (Z.mod_small (n + 1)) by lia.
    pose proof (slot_bound (b :: B') w (n + 1)) as Hsb'.
    simpl in Hsb'. fold B' N' in Hsb'. rewrite Htop in Hsb'.
    specialize (Hsb' ltac:(by constructor) Hw ltac:(lia)).
    rewrite Hdiv in Hsb'.
    simpl. fold T.
    destruct (T <=? currIndex f + w) eqn:HT; [apply Z.leb_le in HT; lia|].
    unfold Int32.add. rewrite wrap_id by in_int_range.
    split; [|simpl; done].
    constructor; [| done | done | | |].
    + apply (wf_same_config f); try done. simpl. by rewrite length_insert.
    + unfold chunks_at. simpl. rewrite (drop_S _ _ _ Hb). simpl. fold B' N'. lia.
    + simpl. rewrite (drop_S _ _ _ Hb). simpl. fold B'.
      erewrite drop_S; last by (apply list_lookup_insert_eq; lia).
      rewrite drop_insert_lt by lia.
      rewrite Hmod, Hdiv, Hdig. by subst d.
    + unfold slot_of. simpl. rewrite (drop_S _ _ _ Hb). simpl. fold w B'.
      rewrite Hdiv. lia.
Qed.

End AdvanceChunkSpec.

(** ** The cursor along a level *)

Lemma digits_lookup B : forall n k b,
  Forall (fun b => 1 <= b) B -> B !! k = Some b ->
  digits B n !! k = Some ((n / node_count (take k B)) mod b).
Proof.
  induction B as [|b0 B IH]; intros n k b HB Hb; [done|].
  inversion HB as [|? ? Hb0 HB']; subst.
  destruct k as [|k]; simpl in *.
  - inversion Hb; subst. by rewrite Z.div_1_r.
  - rewrite (IH (n / b0) k b HB' Hb).
    pose proof (node_count_pos (take k B)) as HP.
    specialize (HP ltac:(by apply Forall_take)).
    by rewrite Z.div_div by lia.
Qed.

Section Cursor.

Variable LEVELS : nat.

Lemma slot_of_range f level n :
  wf LEVELS f -> (level < LEVELS)%nat -> 0 <= n < chunks_at f level ->
  0 <= slot_of f level n < totalChunkCount f.
Proof.
  intros Hwf Hlevel Hn.
  destruct (wf_level_facts LEVELS f level Hwf Hlevel)
    as [Hsizes Htop Hw Hfits HB HlenB Hbelow].
  unfold slot_of, chunks_at in *.
  pose proof (slot_bound _ _ n HB Hw Hn) as Hsb.
  rewrite Htop, HlenB in Hsb. lia.
Qed.

(** Later chunks of a level lie at later slots. *)
Lemma slot_of_lt f level n m :
  wf LEVELS f -> (level < LEVELS)%nat -> 0 <= n < m ->
  slot_of f level n < slot_of f level m.
Proof.
  intros Hwf Hlevel Hnm.
  destruct (wf_level_facts LEVELS f level Hwf Hlevel)
    as [Hsizes Htop Hw Hfits HB HlenB Hbelow].
  unfold slot_of.
  pose proof (ancestors_before_mono _ n m HB ltac:(lia)). nia.
Qed.

Lemma chunk_in_range_elim f level index :
  wf LEVELS f -> chunk_in_range LEVELS f level index = true ->
  (level < LEVELS)%nat /\ 0 <= index <= Int32.max_int.
Proof.
  unfold chunk_in_range. rewrite !andb_true_iff.
  intros Hwf [[H1 H2] H3].
  apply Nat.ltb_lt in H1. apply Z.leb_le in H2. apply Z.ltb_lt in H3.
  destruct (wf_level_facts LEVELS f level Hwf H1)
    as [Hsizes Htop Hw Hfits HB HlenB Hbelow].
  pose proof (top_from_ge _ _ HB Hw) as Hge. rewrite Htop, HlenB in Hge.
  pose proof (div_between (totalChunkCount f) (at_ (levelSizes f) level)
                ltac:(lia) Hw).
  rewrite max_int_val. split; [done | lia].
Qed.

Lemma cursor_at_chunk f level index :
  wf LEVELS f -> (level < LEVELS)%nat -> 0 <= index <= Int32.max_int ->
  forall k,
    at_chunk LEVELS (cursor LEVELS f level index k) level
      ((index + Z.of_nat k) mod chunks_at f level)
    /\ levelSteps (cursor LEVELS f level index k) = levelSteps f.
Proof.
  intros Hwf Hlevel Hindex k. unfold cursor.
  induction k as [|k [IH1 IH2]].
  - simpl. rewrite Z.add_0_r. split; [by apply goToChunk_at_chunk|].
    by rewrite goToChunk_explicit.
  - rewrite Nat.iter_succ.
    destruct (advanceChunk_at_chunk LEVELS _ _ _ IH1) as [A1 A2].
    split; [|by rewrite A2].
    replace (chunks_at (Nat.iter k (advanceChunk LEVELS)
                          (goToChunk LEVELS level index f)) level)
      with (chunks_at f level) in A1 by (unfold chunks_at; by rewrite IH2).
    rewrite Zplus_mod_idemp_l in A1.
    by replace (index + Z.of_nat (S k)) with (index + Z.of_nat k + 1) by lia.
Qed.

(** The slot under the cursor after [k] advances. *)
Lemma cursor_slot f level index k :
  wf LEVELS f -> (level < LEVELS)%nat -> 0 <= index <= Int32.max_int ->
  currIndex (cursor LEVELS f level index k)
  = slot_of f level ((index + Z.of_nat k) mod chunks_at f level).
Proof.
  intros Hwf Hlevel Hindex.
  destruct (cursor_at_chunk f level index Hwf Hlevel Hindex k) as [[Hwf' _ _ _ _ Hs] Hst].
  rewrite Hs. unfold slot_of. rewrite Hst.
  destruct Hwf as [_ _ _ Hsz _ _ _]. destruct Hwf' as [_ _ _ Hsz' _ _ _].
  by rewrite Hsz', Hst, <- Hsz.
Qed.

Lemma chunks_at_pos f level :
  wf LEVELS f -> 1 <= chunks_at f level.
Proof.
  intros Hwf. apply node_count_pos, Forall_drop. by destruct Hwf.
Qed.

End Cursor.


(** ** Facts on doubles: an [int] against the quotient of two [int]s *)

Lemma Qratio_pos c a b :
  0 < b -> (inject_Z c <= inject_Z a / inject_Z b)%Q <-> c * b <= a.
Proof.
  intros Hb. unfold Qle, Qdiv, Qmult, Qinv, inject_Z. simpl.
  destruct b as [|p|p]; try lia. simpl. lia.
Qed.

Lemma Qratio_neg c a b :
  b < 0 -> (inject_Z c <= inject_Z a / inject_Z b)%Q <-> a <= c * b.
Proof.
  intros Hb. unfold Qle, Qdiv, Qmult, Qinv, inject_Z. simpl.
  destruct b as [|p|p]; try lia. simpl. lia.
Qed.

Lemma round_nearest_even_bounds n d :
  0 <= n -> 0 < d ->
  n / d <= Double.round_nearest_even n d <= n / d + 1
  /\ (n mod d = 0 -> Double.round_nearest_even n d = n / d).
Proof.
  intros Hn Hd. unfold Double.round_nearest_even.
  destruct (2 * (n mod d) ?= d) eqn:Hc.
  - apply Z.compare_eq in Hc. destruct (Z.even (n / d)); split; lia.
  - split; [lia | done].
  - apply Z.compare_gt_iff in Hc. split; lia.
Qed.

(** The shift brings the divisor below [2^k]: the quotient keeps more
    fraction bits than the divisor has bits. *)
Lemma normalising_shift_large a b :
  0 < a < 2 ^ 31 -> 0 < b ->
  0 < Double.normalising_shift a b /\ b < 2 ^ Double.normalising_shift a b.
Proof.
  intros Ha Hb.
  assert (Hla : Z.log2 a < 31) by (apply Z.log2_lt_pow2; lia).
  pose proof (Z.log2_nonneg a). pose proof (Z.log2_nonneg b).
  pose proof (Z.log2_spec b Hb) as [_ Hub].
  set (k := Double.normalising_shift a b).
  assert (Hk : Z.log2 b + 22 <= k).
  { unfold k, Double.normalising_shift.
    destruct (_ <? _); lia. }
  split; [lia|].
  eapply Z.lt_le_trans; [exact Hub|].
  apply Z.pow_le_mono_r; lia.
Qed.

(** Rounding the quotient does not change how it compares with an [int]. *)
Lemma le_quotient_exact c a b :
  0 < a < 2 ^ 31 -> b <> 0 ->
  Double.le (Double.of_int c) (Double.div (Double.of_int a) (Double.of_int b)) = true
  <-> (inject_Z c <= inject_Z a / inject_Z b)%Q.
Proof.
  intros Ha Hb. unfold Double.of_int, Double.div.
  destruct (b =? 0) eqn:Hb0; [apply Z.eqb_eq in Hb0; lia|].
  destruct (a =? 0) eqn:Ha0; [apply Z.eqb_eq in Ha0; lia|].
  rewrite (Z.abs_eq a) by lia.
  destruct (normalising_shift_large a (Z.abs b) Ha ltac:(lia)) as [Hk Hbk].
  set (k := Double.normalising_shift a (Z.abs b)) in *.
  unfold Double.scaled_num, Double.scaled_den.
  rewrite (Z.max_l k 0), (Z.max_r (- k) 0) by lia.
  rewrite Z.pow_0_r, Z.mul_1_r.
  set (X := a * 2 ^ k).
  assert (HX : 0 <= X) by (unfold X; nia).
  destruct (round_nearest_even_bounds X (Z.abs b) HX ltac:(lia)) as [Hq Hq0].
  set (q := Double.round_nearest_even X (Z.abs b)) in *.
  pose proof (Z.div_mod X (Z.abs b) ltac:(lia)) as Hdm.
  pose proof (Z.mod_pos_bound X (Z.abs b) ltac:(lia)) as Hr.
  unfold Double.le.
  rewrite (Z.min_r 0 (0 - 0 - k)) by lia.
  replace (0 - (0 - 0 - k)) with k by lia.
  replace (0 - 0 - k - (0 - 0 - k)) with 0 by lia.
  rewrite Z.pow_0_r, Z.mul_1_r, Z.leb_le.
  assert (H2k : 0 < 2 ^ k) by (apply Z.pow_pos_nonneg; lia).
  destruct (Z.lt_total b 0) as [Hneg|[?|Hpos]]; [|lia|].
  - (* a negative divisor *)
    rewrite Qratio_neg by done.
    rewrite (Z.sgn_pos a), (Z.sgn_neg b) by lia.
    rewrite (Z.abs_neq b) in * by lia.
    split; intros H.
    + destruct (decide (a <= c * b)) as [|Hn]; [done|]. exfalso.
      assert (X >= (- c * 2 ^ k) * (- b) + 2 ^ k) by (unfold X; nia).
      assert (- c * 2 ^ k + 1 <= X / - b).
      { apply Z.div_le_lower_bound; [lia | nia]. }
      lia.
    + assert (X <= (- c * 2 ^ k) * (- b)) by (unfold X; nia).
      destruct (decide (X mod - b = 0)) as [Hz|Hnz].
      * rewrite (Hq0 Hz). assert (X / - b <= - c * 2 ^ k); [|lia].
        apply Z.div_le_upper_bound; [lia | nia].
      * assert (X <> (- c * 2 ^ k) * (- b)).
        { intros E. apply Hnz. rewrite E. apply Z.mod_mul. lia. }
        assert (X / - b < - c * 2 ^ k); [|lia].
        apply Z.div_lt_upper_bound; [lia | lia].
  - (* a positive divisor *)
    rewrite Qratio_pos by done.
    rewrite (Z.sgn_pos a), (Z.sgn_pos b) by lia.
    rewrite (Z.abs_eq b) in * by lia.
    split; intros H.
    + destruct (decide (c * b <= a)) as [|Hn]; [done|]. exfalso.
      assert (X + 2 ^ k <= c * 2 ^ k * b) by (unfold X; nia).
      assert ((q - 1) * b <= X) by nia.
      nia.
    + assert (c * 2 ^ k * b <= X) by (unfold X; nia).
      assert (c * 2 ^ k <= X / b); [|lia].
      apply Z.div_le_lower_bound; [lia | nia].
Qed.

(** ** [requestView] *)

Section RequestViewFacts.

Variable LEVELS : nat.

Lemma reader_ok_elim rd :
  reader_ok LEVELS rd = true ->
  (1 <= LEVELS)%nat
  /\ length (mipmapReader.levelCompression rd) = LEVELS
  /\ 1 <= mipmapReader.chunkSize rd
  /\ forall i, (i < LEVELS)%nat ->
       1 <= at_ (mipmapReader.levelCompression rd) i
       /\ mipmapReader.length rd
          + at_ (mipmapReader.levelCompression rd) i * mipmapReader.chunkSize rd
          < 2 ^ 31.
Proof.
  unfold reader_ok. rewrite !andb_true_iff.
  intros [[[H1 H2] H3] H4].
  apply Nat.leb_le in H1. apply Nat.eqb_eq in H2. apply Z.leb_le in H3.
  repeat split; try done.
  all: rewrite forallb_forall in H4.
  all: destruct (lookup_lt_is_Some_2 (mipmapReader.levelCompression rd) i) as [c Hc];
    [lia|].
  all: rewrite (at_lookup _ _ _ Hc).
  all: specialize (H4 c); rewrite andb_true_iff in H4.
  all: destruct H4 as [Ha Hb];
    [apply list_elem_of_In; by eapply list_elem_of_lookup_2|].
  - by apply Z.leb_le in Ha.
  - by apply Z.ltb_lt in Hb.
Qed.

Lemma request_ok_elim rd v :
  request_ok rd v = true ->
  0 <= startSamples v /\ startSamples v < endSamples v
  /\ endSamples v <= mipmapReader.length rd.
Proof.
  unfold request_ok. rewrite !andb_true_iff.
  intros [[H1 H2] H3].
  apply Z.leb_le in H1. apply Z.ltb_lt in H2. apply Z.leb_le in H3. done.
Qed.

(** The scan stops at the largest level at or below the quotient. *)
Lemma scan_levels_spec lc compression n :
  let r := mipmapReader.scan_levels n lc compression in
  (r = -1 /\ forall j, (j < n)%nat ->
               Double.le (Double.of_int (at_ lc j)) compression = false)
  \/ (0 <= r < Z.of_nat n
      /\ Double.le (Double.of_int (at_ lc (Z.to_nat r))) compression = true
      /\ forall j, (Z.to_nat r < j < n)%nat ->
           Double.le (Double.of_int (at_ lc j)) compression = false).
Proof.
  induction n as [|n IH]; cbn [mipmapReader.scan_levels]; cbv zeta in *.
  - left. split; [done | lia].
  - destruct (Double.le (Double.of_int (at_ lc n)) compression) eqn:Hle.
    + right. rewrite Nat2Z.id. repeat split; try lia. done.
    + destruct IH as [[Hr Hall] | (Hr & Hle' & Hall)].
      * left. split; [done|]. intros j Hj.
        destruct (decide (j = n)) as [->|]; [done | apply Hall; lia].
      * right. repeat split; try lia; [done|]. intros j Hj.
        destruct (decide (j = n)) as [->|]; [done | apply Hall; lia].
Qed.

(** [requestView] on a valid reader and request: the scan, then either the
    original data or the request snapped to the chunks of the level. *)
Lemma requestView_explicit rd requested :
  reader_ok LEVELS rd = true -> request_ok rd requested = true ->
  mipmapReader.requestView LEVELS rd requested =
    let i := mipmapReader.scan_levels LEVELS (mipmapReader.levelCompression rd)
               (Double.div
                  (Double.of_int (endSamples requested - startSamples requested))
                  (Double.of_int (resolution requested))) in
    if (i <? 0) && mipmapReader.allowOriginal rd
    then Returns (View (startSamples requested) (endSamples requested)
                       (endSamples requested - startSamples requested), i)
    else
      let i' := Z.to_nat (if i <? 0 then 0 else i) in
      if endSamples (snapped rd requested i') <=? mipmapReader.length rd
      then Returns (snapped rd requested i', Z.of_nat i')
      else AssertionFailed.
Proof.
  intros Hrd Hreq.
  apply reader_ok_elim in Hrd as (HL & Hlen & Hcs & Hlc).
  apply request_ok_elim in Hreq as (Hs & Hse & He).
  destruct (Hlc 0%nat ltac:(lia)) as [Hc0 Hb0].
  assert (Hlenmax : mipmapReader.length rd <= Int32.max_int).
  { rewrite max_int_val. nia. }
  unfold mipmapReader.requestView.
  destruct (0 <=? startSamples requested) eqn:E1; [|apply Z.leb_gt in E1; lia].
  destruct (startSamples requested <? mipmapReader.length rd) eqn:E2;
    [|apply Z.ltb_ge in E2; lia].
  destruct (startSamples requested <? endSamples requested) eqn:E3;
    [|apply Z.ltb_ge in E3; lia].
  destruct (endSamples requested <=? mipmapReader.length rd) eqn:E4;
    [|apply Z.leb_gt in E4; lia].
  simpl negb. cbv iota.
  assert (Hspan : Int32.sub (endSamples requested) (startSamples requested)
                  = endSamples requested - startSamples requested).
  { apply wrap_id. in_int_range. }
  rewrite !Hspan.
  pose proof (scan_levels_spec (mipmapReader.levelCompression rd)
                (Double.div
                   (Double.of_int (endSamples requested - startSamples requested))
                   (Double.of_int (resolution requested))) LEVELS) as Hscan.
  cbv zeta in Hscan |- *.
  set (i := mipmapReader.scan_levels _ _ _) in *.
  destruct ((i <? 0) && mipmapReader.allowOriginal rd) eqn:Hraw.
  { cbn [endSamples]. by rewrite E4. }
  assert (Hi' : (Z.to_nat (if (i <? 0)%Z then 0%Z else i) < LEVELS)%nat).
  { destruct (i <? 0) eqn:Hneg; [lia|].
    apply Z.ltb_ge in Hneg. destruct Hscan as [[? _]|[? _]]; lia. }
  set (i' := Z.to_nat (if i <? 0 then 0 else i)) in *.
  replace (if i <? 0 then 0 else i) with (Z.of_nat i')
    by (unfold i'; destruct (i <? 0) eqn:Hneg;
        [done | apply Z.ltb_ge in Hneg; lia]).
  rewrite ?Nat2Z.id.
  destruct (Hlc i' Hi') as [Hc Hb].
  unfold snapped. cbv zeta.
  set (c := at_ (mipmapReader.levelCompression rd) i') in *.
  set (roundTo := c * mipmapReader.chunkSize rd) in *.
  assert (HroundTo : 1 <= roundTo) by (unfold roundTo; nia).
  assert (Hmul : Int32.mul c (mipmapReader.chunkSize rd) = roundTo).
  { apply wrap_id. in_int_range. }
  rewrite Hmul.
  set (s := startSamples requested) in *. set (e := endSamples requested) in *.
  assert (Hsq : 0 <= s / roundTo * roundTo <= s).
  { pose proof (Z.mul_div_le s roundTo ltac:(lia)).
    pose proof (Z.div_pos s roundTo ltac:(lia) ltac:(lia)). nia. }
  assert (Heq : e <= (e + roundTo - 1) / roundTo * roundTo <= e + roundTo - 1).
  { pose proof (Z.mul_div_le (e + roundTo - 1) roundTo ltac:(lia)).
    pose proof (Z.div_mod (e + roundTo - 1) roundTo ltac:(lia)).
    pose proof (Z.mod_pos_bound (e + roundTo - 1) roundTo ltac:(lia)). nia. }
  pose proof (div_between s roundTo ltac:(lia) HroundTo) as Hsd.
  pose proof (div_between (e + roundTo - 1) roundTo ltac:(lia) HroundTo) as Hed.
  rewrite !(idiv_pos_divisor _ roundTo) by lia. cbn [mbind outcome_bind].
  rewrite !(idiv_pos_divisor _ c) by lia. cbn [mbind outcome_bind].
  unfold Int32.div, Int32.mul, Int32.add, Int32.sub.
  rewrite (Z.quot_div_nonneg s roundTo) by lia.
  rewrite (wrap_id (s / roundTo)) by in_int_range.
  rewrite (wrap_id (s / roundTo * roundTo)) by in_int_range.
  rewrite (wrap_id (e + roundTo)) by in_int_range.
  rewrite (wrap_id (e + roundTo - 1)) by in_int_range.
  rewrite (Z.quot_div_nonneg (e + roundTo - 1) roundTo) by lia.
  rewrite (wrap_id ((e + roundTo - 1) / roundTo))
    by in_int_range.
  rewrite (wrap_id ((e + roundTo - 1) / roundTo * roundTo))
    by in_int_range.
  rewrite (wrap_id (_ - _)) by in_int_range.
  rewrite Z.quot_div_nonneg by lia.
  rewrite wrap_id; [done|].
  set (D := (e + roundTo - 1) / roundTo * roundTo - s / roundTo * roundTo).
  pose proof (div_between D c ltac:(unfold D; lia) Hc).
  rewrite min_int_val, max_int_val. unfold D in *. lia.
Qed.

(** A request that is answered satisfied the precondition. *)
Lemma requestView_returns_request_ok rd requested r :
  mipmapReader.requestView LEVELS rd requested = Returns r ->
  request_ok rd requested = true.
Proof.
  unfold mipmapReader.requestView, request_ok.
  destruct (0 <=? startSamples requested) eqn:E1; [|done].
  destruct (startSamples requested <? mipmapReader.length rd) eqn:E2; [|done].
  destruct (startSamples requested <? endSamples requested) eqn:E3; [|done].
  destruct (endSamples requested <=? mipmapReader.length rd) eqn:E4; done.
Qed.

(** On a valid request the comparison of the scan is the comparison with
    the exact ratio. *)
Lemma scan_test_qualifies rd requested c :
  request_ok rd requested = true ->
  mipmapReader.length rd < 2 ^ 31 ->
  resolution requested <> 0 ->
  Double.le (Double.of_int c)
    (Double.div (Double.of_int (endSamples requested - startSamples requested))
                (Double.of_int (resolution requested))) = true
  <-> qualifies requested c.
Proof.
  intros Hreq Hlen Hres. apply request_ok_elim in Hreq as (Hs & Hse & He).
  apply le_quotient_exact; lia.
Qed.

(** The level at which the scan of [requestView] stops. *)
Lemma scan_levels_choice rd requested :
  reader_ok LEVELS rd = true -> request_ok rd requested = true ->
  resolution requested <> 0 ->
  let i := mipmapReader.scan_levels LEVELS (mipmapReader.levelCompression rd)
             (Double.div
                (Double.of_int (endSamples requested - startSamples requested))
                (Double.of_int (resolution requested))) in
  (i = -1 /\ none_qualifies LEVELS rd requested)
  \/ (0 <= i /\ largest_qualifying LEVELS rd requested (Z.to_nat i)).
Proof.
  intros Hrd Hreq Hres. cbv zeta.
  pose proof (reader_ok_elim rd Hrd) as (HL & Hlen & Hcs & Hlc).
  pose proof (request_ok_elim rd requested Hreq) as (Hs & Hse & He).
  destruct (Hlc 0%nat ltac:(lia)) as [Hc0 Hb0].
  assert (Hlenmax : mipmapReader.length rd < 2 ^ 31) by nia.
  pose proof (scan_levels_spec (mipmapReader.levelCompression rd)
                (Double.div
                   (Double.of_int (endSamples requested - startSamples requested))
                   (Double.of_int (resolution requested))) LEVELS) as Hscan.
  cbv zeta in Hscan.
  destruct Hscan as [[Hr Hall] | (Hr & Hle & Hall)].
  - left. split; [done|]. intros j Hj Hq.
    apply (scan_test_qualifies rd) in Hq; try done.
    rewrite (Hall j Hj) in Hq. done.
  - right. split; [lia|]. split; [lia|]. split.
    + by apply (scan_test_qualifies rd) in Hle.
    + intros j Hj Hq. apply (scan_test_qualifies rd) in Hq; try done.
      rewrite (Hall j Hj) in Hq. done.
Qed.

Lemma largest_qualifying_unique rd requested i j :
  largest_qualifying LEVELS rd requested i ->
  largest_qualifying LEVELS rd requested j -> i = j.
Proof.
  intros (Hi & Hqi & Hmi) (Hj & Hqj & Hmj).
  destruct (lt_eq_lt_dec i j) as [[Hlt|Heq]|Hgt]; [|done|].
  - exfalso. by apply (Hmi j).
  - exfalso. by apply (Hmj i).
Qed.

(** What the snapped view is: a range of whole chunks around the request. *)
Lemma snapped_spec rd requested i :
  let c := at_ (mipmapReader.levelCompression rd) i in
  let roundTo := c * mipmapReader.chunkSize rd in
  1 <= c -> 1 <= mipmapReader.chunkSize rd ->
  let v := snapped rd requested i in
  (roundTo | startSamples v)
  /\ startSamples v <= startSamples requested < startSamples v + roundTo
  /\ (roundTo | endSamples v)
  /\ endSamples v - roundTo < endSamples requested <= endSamples v
  /\ resolution v = (endSamples v - startSamples v) / c.
Proof.
  cbv zeta. intros Hc Hcs. unfold snapped. cbn [startSamples endSamples resolution].
  set (c := at_ (mipmapReader.levelCompression rd) i) in *.
  set (roundTo := c * mipmapReader.chunkSize rd).
  assert (HroundTo : 1 <= roundTo) by (unfold roundTo; nia).
  pose proof (Z.div_mod (startSamples requested) roundTo ltac:(lia)).
  pose proof (Z.mod_pos_bound (startSamples requested) roundTo ltac:(lia)).
  pose proof (Z.div_mod (endSamples requested + roundTo - 1) roundTo ltac:(lia)).
  pose proof (Z.mod_pos_bound (endSamples requested + roundTo - 1) roundTo ltac:(lia)).
  repeat split; try lia.
  - by apply Z.divide_factor_r.
  - by apply Z.divide_factor_r.
Qed.

End RequestViewFacts.

(** ** [read] and [readSpectrum] *)

Section ExtractionFacts.

Variable LEVELS : nat.
Variable CHANNELS : Z.
Context `{mipmapReader.External}.

Lemma find_level_loop_spec lc compression n : forall i,
  let r := mipmapReader.find_level_loop n i lc compression in
  (i <= r <= i + n)%nat
  /\ (forall j, (i <= j < r)%nat -> at_ lc j <> compression)
  /\ ((r < i + n)%nat -> at_ lc r = compression).
Proof.
  induction n as [|n IH]; intros i; simpl.
  - repeat split; lia.
  - destruct (at_ lc i =? compression) eqn:E.
    + apply Z.eqb_eq in E. repeat split; try lia; done.
    + apply Z.eqb_neq in E. destruct (IH (S i)) as (H1 & H2 & H3).
      split; [lia|]. split.
      * intros j Hj. destruct (decide (j = i)) as [->|]; [done | apply H2; lia].
      * intros Hr. apply H3. lia.
Qed.

(** The search finds the first level of that compression, or [LEVELS]. *)
Lemma find_level_spec lc compression :
  let r := mipmapReader.find_level LEVELS lc compression in
  (r <= LEVELS)%nat
  /\ (forall j, (j < r)%nat -> at_ lc j <> compression)
  /\ ((r < LEVELS)%nat -> at_ lc r = compression).
Proof.
  destruct (find_level_loop_spec lc compression LEVELS 0) as (H1 & H2 & H3).
  unfold mipmapReader.find_level. split; [lia|]. split.
  - intros j Hj. apply H2. lia.
  - intros Hr. apply H3. lia.
Qed.

Lemma find_level_none lc compression :
  mipmapReader.find_level LEVELS lc compression = LEVELS
  <-> forall j, (j < LEVELS)%nat -> at_ lc j <> compression.
Proof.
  destruct (find_level_spec lc compression) as (H1 & H2 & H3). split.
  - intros E j Hj. apply H2. cbv zeta in *. lia.
  - intros Hall. cbv zeta in *.
    destruct (decide (mipmapReader.find_level LEVELS lc compression = LEVELS))
      as [|Hne]; [done|].
    exfalso. apply (Hall (mipmapReader.find_level LEVELS lc compression)); [lia|].
    apply H3. lia.
Qed.

Lemma find_level_first lc compression i :
  (i < LEVELS)%nat -> at_ lc i = compression ->
  (forall j, (j < i)%nat -> at_ lc j <> compression) ->
  mipmapReader.find_level LEVELS lc compression = i.
Proof.
  intros Hi Hc Hfirst.
  destruct (find_level_spec lc compression) as (H1 & H2 & H3). cbv zeta in *.
  set (r := mipmapReader.find_level LEVELS lc compression) in *.
  destruct (lt_eq_lt_dec r i) as [[Hlt|Heq]|Hgt]; [|done|].
  - exfalso. apply (Hfirst r Hlt). apply H3. lia.
  - exfalso. by apply (H2 i Hgt).
Qed.

(** The chunk loops neither throw nor assert. *)
Lemma read_chunks_outcome fuel rd yLower yUpper A B chunkElements dstElements :
  forall f dstOffs dst,
    (exists r, mipmapReader.read_chunks LEVELS fuel rd yLower yUpper A B
                 chunkElements dstElements f dstOffs dst = Returns r)
    \/ mipmapReader.read_chunks LEVELS fuel rd yLower yUpper A B
         chunkElements dstElements f dstOffs dst = OutOfFuel.
Proof.
  induction fuel as [|fuel IH]; intros f dstOffs dst; simpl; [by right|].
  destruct (_ <=? _); [left; eauto | apply IH].
Qed.

Lemma spectrum_chunks_outcome fuel rd yLower yUpper A B chunkElements dstElements :
  forall f dstOffs dst,
    (exists r, mipmapReader.spectrum_chunks LEVELS CHANNELS fuel rd yLower yUpper A B
                 chunkElements dstElements f dstOffs dst = Returns r)
    \/ mipmapReader.spectrum_chunks LEVELS CHANNELS fuel rd yLower yUpper A B
         chunkElements dstElements f dstOffs dst = OutOfFuel.
Proof.
  induction fuel as [|fuel IH]; intros f dstOffs dst; simpl; [by right|].
  destruct (_ <=? _); [left; eauto | apply IH].
Qed.

Lemma idiv_outcome a b :
  (exists q, idiv a b = Returns q) \/ idiv a b = Undefined.
Proof.
  unfold idiv. destruct (b =? 0); [by right|].
  destruct (_ && _); [by right | left; eauto].
Qed.

Lemma spectrum_start_outcome rd view i c :
  (exists q, mipmapReader.spectrum_start rd view i c = Returns q)
  \/ mipmapReader.spectrum_start rd view i c = Undefined.
Proof.
  unfold mipmapReader.spectrum_start.
  repeat match goal with
  | |- context [idiv ?a ?b] =>
      destruct (idiv_outcome a b) as [[? ->]| ->]; cbn [mbind outcome_bind];
      [|by right]
  end.
  left; eauto.
Qed.

(** [read] throws exactly when no level has the compression of the view. *)
Lemma read_throws fuel rd view dst yLower yUpper c :
  compression view = Returns c ->
  mipmapReader.read LEVELS CHANNELS fuel rd view dst yLower yUpper
    = LogicError "no mipmap level for this resolution"
  <-> mipmapReader.find_level LEVELS (mipmapReader.levelCompression rd) c = LEVELS.
Proof.
  unfold compression, mipmapReader.read. intros ->. cbn [mbind outcome_bind].
  destruct (Nat.eqb_spec
              (mipmapReader.find_level LEVELS (mipmapReader.levelCompression rd) c)
              LEVELS) as [E|E]; [done|].
  split; [|done]. intros Hthrow. exfalso.
  repeat match type of Hthrow with
  | context [idiv ?a ?b] =>
      let Hi := fresh "Hi" in
      destruct (idiv_outcome a b) as [[? Hi]|Hi]; rewrite Hi in Hthrow;
      cbn [mbind outcome_bind] in Hthrow; [|done]
  end.
  match type of Hthrow with
  | context [mipmapReader.read_chunks ?L ?fu ?r ?yl ?yu ?a ?b ?ce ?de ?f ?o ?d] =>
      destruct (read_chunks_outcome fu r yl yu a b ce de f o d) as [[[? ?] Hr]|Hr];
      rewrite Hr in Hthrow; done
  end.
Qed.

Lemma readSpectrum_throws fuel rd view dst yLower yUpper c :
  compression view = Returns c ->
  mipmapReader.readSpectrum LEVELS CHANNELS fuel rd view dst yLower yUpper
    = LogicError "no mipmap level for this resolution"
  <-> mipmapReader.find_level LEVELS (mipmapReader.levelCompression rd) c = LEVELS.
Proof.
  unfold compression, mipmapReader.readSpectrum. intros ->. cbn [mbind outcome_bind].
  destruct (Nat.eqb_spec
              (mipmapReader.find_level LEVELS (mipmapReader.levelCompression rd) c)
              LEVELS) as [E|E]; [done|].
  split; [|done]. intros Hthrow. exfalso.
  match type of Hthrow with
  | context [mipmapReader.spectrum_start ?r ?v ?i ?c] =>
      destruct (spectrum_start_outcome r v i c) as [[? Hs]|Hs];
      rewrite Hs in Hthrow; cbn [mbind outcome_bind] in Hthrow; [|done]
  end.
  match type of Hthrow with
  | context [mipmapReader.spectrum_chunks ?L ?C ?fu ?r ?yl ?yu ?a ?b ?ce ?de ?f ?o ?d] =>
      destruct (spectrum_chunks_outcome fu r yl yu a b ce de f o d) as [[[? ?] Hr]|Hr];
      rewrite Hr in Hthrow; done
  end.
Qed.

(** The chunk at which [readSpectrum] starts, half a ring further. *)
Lemma spectrum_start_mod rd view i c :
  1 <= c -> at_ (mipmapReader.levelCompression rd) i = c ->
  1 <= mipmapReader.chunkSize rd ->
  0 <= startSamples view < mipmapReader.length rd ->
  mipmapReader.length rd <= Int32.max_int ->
  let totalChunks := mipmapReader.length rd / c / mipmapReader.chunkSize rd in
  totalChunks + totalChunks / 2 <= Int32.max_int ->
  mipmapReader.spectrum_start rd view i c
  = Returns ((startSamples view / c / mipmapReader.chunkSize rd + totalChunks / 2)
             mod totalChunks).
Proof.
  intros Hc Hlc Hcs Hstart Hlen. cbv zeta. intros Hsum.
  set (cs := mipmapReader.chunkSize rd) in *.
  set (len := mipmapReader.length rd) in *.
  set (s := startSamples view) in *.
  rewrite max_int_val in Hlen, Hsum.
  pose proof (div_between len c ltac:(lia) Hc) as Hd1.
  pose proof (div_between (len / c) cs ltac:(lia) Hcs) as HT.
  assert (Hs1 : 0 <= s / c <= len / c).
  { split; [apply Z.div_pos; lia | apply Z.div_le_mono; lia]. }
  assert (Hx : 0 <= s / c / cs <= len / c / cs).
  { split; [apply Z.div_pos; lia | apply Z.div_le_mono; lia]. }
  set (T := len / c / cs) in *. set (x := s / c / cs) in *.
  assert (Hh : 0 <= T / 2 <= T).
  { split; [apply Z.div_pos; lia | apply Z.div_le_upper_bound; lia]. }
  unfold mipmapReader.spectrum_start. fold cs len s. rewrite Hlc.
  rewrite !(idiv_pos_divisor _ c) by lia. cbn [mbind outcome_bind].
  rewrite !(idiv_pos_divisor _ cs) by lia. cbn [mbind outcome_bind].
  unfold Int32.div, Int32.add, Int32.sub.
  rewrite !(Z.quot_div_nonneg len c), !(Z.quot_div_nonneg s c) by lia.
  rewrite !(wrap_id (len / c)), !(wrap_id (s / c)) by in_int_range.
  rewrite !Z.quot_div_nonneg by lia. fold T x.
  rewrite !(wrap_id T), !(wrap_id x) by in_int_range.
  rewrite !Z.quot_div_nonneg by lia.
  rewrite !(wrap_id (T / 2)) by in_int_range.
  rewrite !(wrap_id (x + T / 2)) by in_int_range.
  f_equal.
  destruct (T <=? x + T / 2) eqn:Hcmp.
  - apply Z.leb_le in Hcmp.
    rewrite wrap_id by in_int_range.
    destruct (decide (T = 0)) as [HT0|HT0].
    + assert (Hx0 : x = 0) by lia. rewrite Hx0, HT0. reflexivity.
    + assert (T / 2 < T) by (apply Z.div_lt_upper_bound; lia).
      apply (Z.mod_unique_pos _ _ 1); lia.
  - apply Z.leb_gt in Hcmp. symmetry. apply Z.mod_small. lia.
Qed.



(** The loop over the samples of one chunk writes the slots
    [2*(dstOffs+i) .. 2*(dstOffs+i+n) - 1] and nothing else. *)
Lemma spectrum_inner rd yLower yUpper A B offs dstOffs n : forall i dst k,
  0 <= dstOffs ->
  2 * (dstOffs + Z.of_nat i + Z.of_nat n) + 1 <= Int32.max_int ->
  for_loop n i (fun x dst =>
    mipmapReader.spectrum_element rd yLower yUpper A B offs dstOffs (Z.of_nat x) dst)
    dst !! k
  = if decide (2 * (dstOffs + Z.of_nat i) <= k
               < 2 * (dstOffs + Z.of_nat i + Z.of_nat n))
    then Some (sample_at rd yLower yUpper A B offs (k / 2 - dstOffs))
    else dst !! k.
Proof.
  induction n as [|n IH]; intros i dst k Hd Hmax; simpl.
  - case_decide; [lia | done].
  - rewrite IH by lia.
    unfold mipmapReader.spectrum_element. fold (sample_at rd yLower yUpper A B offs (Z.of_nat i)).
    unfold Int32.add at 1 2 3. unfold Int32.mul at 1 2.
    rewrite max_int_val in Hmax.
    rewrite !(wrap_id (dstOffs + Z.of_nat i)) by in_int_range.
    rewrite !(wrap_id ((dstOffs + Z.of_nat i) * 2)) by in_int_range.
    rewrite !(wrap_id ((dstOffs + Z.of_nat i) * 2 + 1)) by in_int_range.
    repeat case_decide; try lia.
    + done.
    + destruct (decide (k = (dstOffs + Z.of_nat i) * 2 + 1)) as [->|Hk1].
      * rewrite lookup_insert_eq. do 2 f_equal.
        replace ((dstOffs + Z.of_nat i) * 2 + 1) with (1 + (dstOffs + Z.of_nat i) * 2) by lia.
        rewrite Z.div_add by lia. change (1 / 2) with 0. lia.
      * rewrite lookup_insert_ne by done.
        assert (k = (dstOffs + Z.of_nat i) * 2) as -> by lia.
        rewrite lookup_insert_eq. do 2 f_equal.
        rewrite Z.div_mul by lia. lia.
    + rewrite !lookup_insert_ne by lia. done.
Qed.



End ExtractionFacts.


(** ** Packing and unpacking *)

Lemma wrap_mod z : Int32.wrap z mod 2 ^ 32 = z mod 2 ^ 32.
Proof.
  unfold Int32.wrap. rewrite Zminus_mod_idemp_l. f_equal. lia.
Qed.

Lemma wrap_of_mod z :
  Int32.min_int <= z <= Int32.max_int -> Int32.wrap (z mod 2 ^ 32) = z.
Proof.
  rewrite min_int_val, max_int_val. intros Hz. unfold Int32.wrap.
  rewrite Zplus_mod_idemp_l, Z.mod_small; lia.
Qed.

Lemma land_low_mask z : Z.land z 4294967295 = z mod 2 ^ 32.
Proof. change 4294967295 with (Z.ones 32). by rewrite Z.land_ones. Qed.

Lemma pack_sum lower upper :
  pack lower upper = (upper mod 2 ^ 32) * 2 ^ 32 + lower mod 2 ^ 32.
Proof.
  unfold pack. rewrite Z.shiftl_mul_pow2 by lia.
  symmetry. apply Z.add_nocarry_lor.
  apply Z.bits_inj'. intros n Hn.
  rewrite Z.land_spec, Z.bits_0.
  destruct (Z.lt_ge_cases n 32) as [Hlt|Hge].
  - rewrite Z.mul_pow2_bits_low by lia. done.
  - rewrite (Z.mod_pow2_bits_high lower) by lia. apply andb_false_r.
Qed.



(** The two halves of an element, as signed 32-bit numbers. *)
Lemma wrap_signed32 u : 0 <= u < 2 ^ 32 -> Int32.wrap u = signed32 u.
Proof.
  intros Hu. unfold Int32.wrap, signed32.
  destruct (Z.ltb_spec u (2 ^ 31)) as [Hlt|Hge].
  - rewrite Z.mod_small; lia.
  - replace (u + 2 ^ 31) with (u - 2 ^ 31 + 1 * 2 ^ 32) by lia.
    rewrite Z_mod_plus_full, Z.mod_small; lia.
Qed.

Lemma lower32_signed element : lower32 element = signed32 (element mod 2 ^ 32).
Proof.
  unfold lower32. rewrite land_low_mask.
  apply wrap_signed32, Z.mod_pos_bound. lia.
Qed.

Lemma upper32_signed element :
  upper32 element = signed32 (element / 2 ^ 32 mod 2 ^ 32).
Proof.
  unfold upper32. rewrite land_low_mask, Z.shiftr_div_pow2 by lia.
  apply wrap_signed32, Z.mod_pos_bound. lia.
Qed.

(** ** The cursor stays in the ring *)

Lemma cursor_ring LEVELS f level index k :
  finder_ok LEVELS f = true -> (level < LEVELS)%nat ->
  0 <= index <= Int32.max_int ->
  0 <= currIndex (cursor LEVELS f level index k) < totalChunkCount f.
Proof.
  intros Hok Hlevel Hindex. apply finder_ok_wf in Hok.
  pose proof (chunks_at_pos LEVELS f level Hok) as HN.
  rewrite cursor_slot by done. apply (slot_of_range LEVELS); try done.
  apply Z.mod_pos_bound. lia.
Qed.

(** An offset into the ring and an element of the chunk there, with no
    overflow. *)
Lemma element_index_exact slot ce total x :
  0 <= slot < total -> 1 <= ce -> total * ce <= Int32.max_int -> 0 <= x < ce ->
  0 <= slot * ce + x < total * ce
  /\ Int32.mul slot ce = slot * ce
  /\ Int32.add (slot * ce) x = slot * ce + x.
Proof.
  intros Hslot Hce Hmax Hx. rewrite max_int_val in Hmax.
  assert (H1 : slot * ce + ce <= total * ce) by nia.
  assert (H2 : 0 <= slot * ce) by nia.
  split; [lia|]. split; apply wrap_id; in_int_range.
Qed.

(** The start chunk of [readSpectrum] is an [int]. *)
Lemma spectrum_start_range rd view i c start :
  mipmapReader.spectrum_start rd view i c = Returns start ->
  Int32.min_int <= start <= Int32.max_int.
Proof.
  unfold mipmapReader.spectrum_start. intros Hs.
  do 4 (destruct (idiv _ _) in Hs; cbn [mbind outcome_bind] in Hs; try done).
  destruct (_ <=? _) in Hs; injection Hs as <-; apply wrap_range.
Qed.

Lemma div32_exact a b :
  0 <= a <= Int32.max_int -> 1 <= b ->
  Int32.div a b = a / b /\ 0 <= a / b <= a.
Proof.
  intros Ha Hb. pose proof (div_between a b ltac:(lia) Hb) as Hd.
  split; [|done]. unfold Int32.div. rewrite Z.quot_div_nonneg by lia.
  apply wrap_id. in_int_range.
Qed.


(** The two elements of sample [x] of the chunk in [slot], for two
    channels, with no overflow. *)
Lemma spectrum_index_exact slot cs total x :
  0 <= slot < total -> 1 <= cs -> total * (2 * cs) <= Int32.max_int ->
  0 <= x < cs ->
  Int32.add (Int32.mul (Int32.mul slot 2) cs) (Int32.mul x 2)
    = slot * 2 * cs + 2 * x
  /\ Int32.add (Int32.add (Int32.mul (Int32.mul slot 2) cs) (Int32.mul x 2)) 1
     = slot * 2 * cs + 2 * x + 1
  /\ 0 <= slot * 2 * cs + 2 * x
  /\ slot * 2 * cs + 2 * x + 1 < total * (2 * cs).
Proof.
  intros Hslot Hcs Hmax Hx. rewrite max_int_val in Hmax.
  assert (H1 : slot * (2 * cs) + 2 * cs <= total * (2 * cs)) by nia.
  assert (H2 : 0 <= slot * (2 * cs)) by nia.
  assert (H3 : slot * 2 <= slot * (2 * cs)) by nia.
  unfold Int32.add, Int32.mul.
  rewrite (wrap_id (slot * 2)) by in_int_range.
  rewrite (wrap_id (slot * 2 * cs)) by in_int_range.
  rewrite (wrap_id (x * 2)) by in_int_range.
  rewrite (wrap_id (slot * 2 * cs + x * 2)) by in_int_range.
  rewrite (wrap_id (slot * 2 * cs + x * 2 + 1)) by in_int_range.
  lia.
Qed.

(** The start chunk of [readSpectrum] for a valid view, with no overflow:
    the chunk of [startSamples] moved by half of the chunks of the level,
    modulo their number. *)
Lemma spectrum_start_exact LEVELS rd view i c :
  request_ok rd view = true ->
  mipmapReader.length rd <= Int32.max_int ->
  mipmapReader.find_level LEVELS (mipmapReader.levelCompression rd) c = i ->
  (i < LEVELS)%nat ->
  1 <= c -> 1 <= mipmapReader.chunkSize rd ->
  let totalChunks := mipmapReader.length rd / c / mipmapReader.chunkSize rd in
  totalChunks + totalChunks / 2 <= Int32.max_int ->
  let start :=
    (startSamples view / c / mipmapReader.chunkSize rd + totalChunks / 2)
    mod totalChunks in
  mipmapReader.spectrum_start rd view i c = Returns start
  /\ 0 <= start <= Int32.max_int.
Proof.
  intros Hreq Hlen Hfind Hi Hc Hcs. cbv zeta. intros Hsum.
  pose proof (request_ok_elim rd view Hreq) as (Hs & Hse & He).
  destruct (find_level_spec LEVELS (mipmapReader.levelCompression rd) c)
    as (_ & _ & Hlc).
  cbv zeta in Hlc. rewrite Hfind in Hlc. specialize (Hlc Hi).
  pose proof (spectrum_start_mod rd view i c Hc Hlc Hcs ltac:(lia) Hlen Hsum) as Hst.
  cbv zeta in Hst. split; [exact Hst|].
  pose proof (spectrum_start_range rd view i c _ Hst) as Hr.
  split; [|lia].
  set (T := mipmapReader.length rd / c / mipmapReader.chunkSize rd) in *.
  set (x := startSamples view / c / mipmapReader.chunkSize rd) in *.
  assert (Hx : 0 <= x).
  { unfold x. apply Z.div_pos; [apply Z.div_pos; lia | lia]. }
  assert (HT : 0 <= T).
  { unfold T. apply Z.div_pos; [apply Z.div_pos; lia | lia]. }
  assert (Hh : 0 <= T / 2) by (apply Z.div_pos; lia).
  destruct (decide (T = 0)) as [HT0|HT0].
  - rewrite HT0. rewrite Z.mod_0_r. change (0 / 2) with 0. lia.
  - apply Z.mod_pos_bound. lia.
Qed.

(** The span of a valid view and the chunk of its first sample, with no
    overflow. *)
Lemma start_chunk_exact rd view c :
  request_ok rd view = true ->
  mipmapReader.length rd <= Int32.max_int ->
  1 <= c -> 1 <= mipmapReader.chunkSize rd ->
  Int32.div (Int32.div (startSamples view) c) (mipmapReader.chunkSize rd)
    = startSamples view / c / mipmapReader.chunkSize rd
  /\ 0 <= startSamples view / c / mipmapReader.chunkSize rd <= Int32.max_int.
Proof.
  intros Hreq Hlen Hc Hcs.
  pose proof (request_ok_elim rd view Hreq) as (Hs & Hse & He).
  destruct (div32_exact (startSamples view) c ltac:(lia) Hc) as [D1 D1r].
  destruct (div32_exact (startSamples view / c) (mipmapReader.chunkSize rd)
              ltac:(lia) Hcs) as [D2 D2r].
  rewrite D1, D2. split; [done | lia].
Qed.
(** * The properties of the specification *)

(** ** The chunk indexer *)

(** C1. On a valid, initialised indexer and for [level < LEVELS] and
    [0 <= index < totalChunkCount / levelSizes[level]], [goToChunk] leaves in
    [levelIndex[i]], for [i >= level], the mixed-radix digits of [index]
    with bases [levelSteps[i]] (the digit of [level] being the least
    significant one), and in [currIndex] the sum over [i >= level] of
    [levelIndex[i] * levelSizes[i]], plus
    [levelSteps[level-1] * levelSizes[level-1]] when [level > 0]. With
    [levelSteps = [4, 4]] ([levelSizes = [1, 5]], [totalChunkCount = 20]),
    [goToChunk(0, 7)] gives the digits [[3, 1]] and [currIndex = 8]. *)
Theorem goToChunk_mixed_radix (LEVELS : nat) (f : mipmapChunkFinder)
    (level : nat) (index : Z) :
  finder_ok LEVELS f = true ->
  chunk_in_range LEVELS f level index = true ->
  let f' := goToChunk LEVELS level index f in
  (forall i, (level <= i < LEVELS)%nat ->
     at_ (levelIndex f') i
     = (index / node_count (take (i - level) (drop level (levelSteps f))))
       mod at_ (levelSteps f) i)
  /\ drop level (levelIndex f') = digits (drop level (levelSteps f)) index
  /\ currIndex f'
     = weighted_sum (drop level (levelIndex f')) (drop level (levelSizes f))
       + (if (0 <? level)%nat
          then at_ (levelSteps f) (level - 1) * at_ (levelSizes f) (level - 1)
          else 0)
  /\ currLevel f' = level
  /\ (levelSizes finder44 = [1; 5] /\ totalChunkCount finder44 = 20
      /\ levelIndex (goToChunk 2 0 7 finder44) = [3; 1]
      /\ currIndex (goToChunk 2 0 7 finder44) = 8).
Proof.
  intros Hok Hrange. apply finder_ok_wf in Hok.
  destruct (chunk_in_range_elim LEVELS f level index Hok Hrange) as [Hlevel Hindex].
  cbv zeta. rewrite goToChunk_explicit by done. cbn [levelIndex currIndex currLevel].
  pose proof Hok as [HL Hlen Hsteps Hsz Htotal Hidx Hbound].
  assert (Hdrop : drop level (take level (levelIndex f)
                              ++ digits (drop level (levelSteps f)) index)
                  = digits (drop level (levelSteps f)) index).
  { apply drop_app_length'. rewrite length_take. lia. }
  rewrite Hdrop. repeat split; try done.
  intros i Hi.
  destruct (lookup_lt_is_Some_2 (levelSteps f) i) as [b Hb]; [lia|].
  rewrite (at_lookup _ _ _ Hb). apply at_lookup.
  replace i with (level + (i - level))%nat at 1 by lia.
  rewrite <- lookup_drop, Hdrop.
  apply digits_lookup; [by apply Forall_drop|].
  rewrite lookup_drop. by replace (level + (i - level))%nat with i by lia.
Qed.

Lemma goToChunk_mixed_radix_witness :
  finder_ok 2 finder44 = true /\ chunk_in_range 2 finder44 0 7 = true
  /\ drop 0 (levelIndex (goToChunk 2 0 7 finder44)) = digits (drop 0 [4; 4]) 7.
Proof.
  split; [reflexivity|]. split; [reflexivity|].
  exact (proj1 (proj2 (goToChunk_mixed_radix 2 finder44 0 7 eq_refl eq_refl))).
Defined.

(** C2, as the code has it. On a valid, initialised indexer and for a valid
    [(level, index)], the physical slots visited by [goToChunk] and then
    repeated [advanceChunk] are pairwise distinct for the first [N] steps
    and repeat with exactly that period, where [N] is the number of chunks
    of the level, the product of [levelSteps[i]] for [i >= level] (and not
    [totalChunkCount / levelSizes[level]], which also counts the ancestors
    stored in between). *)
Theorem cursor_period (LEVELS : nat) (f : mipmapChunkFinder) (level : nat) (index : Z) :
  finder_ok LEVELS f = true ->
  chunk_in_range LEVELS f level index = true ->
  1 <= chunks_at f level
  /\ distinct_until (slot_seq LEVELS f level index) (chunks_at f level)
  /\ repeats_after (slot_seq LEVELS f level index) (chunks_at f level).
Proof.
  intros Hok Hrange. apply finder_ok_wf in Hok.
  destruct (chunk_in_range_elim LEVELS f level index Hok Hrange) as [Hlevel Hindex].
  pose proof (chunks_at_pos LEVELS f level Hok) as HN.
  set (N := chunks_at f level) in *.
  split; [done|]. split.
  - intros j k Hjk Hk. unfold slot_seq. rewrite !cursor_slot by done. fold N.
    pose proof (Z.mod_pos_bound (index + Z.of_nat j) N ltac:(lia)) as Hj.
    pose proof (Z.mod_pos_bound (index + Z.of_nat k) N ltac:(lia)) as Hk'.
    assert (Hne : (index + Z.of_nat j) mod N <> (index + Z.of_nat k) mod N).
    { intros E.
      pose proof (Z.div_mod (index + Z.of_nat j) N ltac:(lia)) as D1.
      pose proof (Z.div_mod (index + Z.of_nat k) N ltac:(lia)) as D2.
      assert (Z.of_nat k - Z.of_nat j
              = N * ((index + Z.of_nat k) / N - (index + Z.of_nat j) / N)) as D by lia.
      assert (0 < Z.of_nat k - Z.of_nat j < N) as Hd by lia.
      set (d := (index + Z.of_nat k) / N - (index + Z.of_nat j) / N) in *.
      destruct (Z.le_gt_cases d 0); nia. }
    destruct (Z.lt_total ((index + Z.of_nat j) mod N) ((index + Z.of_nat k) mod N))
      as [Hlt|[?|Hgt]]; [|done|].
    + pose proof (slot_of_lt LEVELS f level _ _ Hok Hlevel (conj (proj1 Hj) Hlt)). lia.
    + pose proof (slot_of_lt LEVELS f level _ _ Hok Hlevel (conj (proj1 Hk') Hgt)). lia.
  - intros k. unfold slot_seq. rewrite !cursor_slot by done. fold N. f_equal.
    rewrite Nat2Z.inj_add, Z2Nat.id by lia.
    rewrite Z.add_assoc. rewrite <- (Z.mul_1_l N) at 1. by rewrite Z.mod_add by lia.
Qed.

Lemma cursor_period_witness :
  finder_ok 2 finder44 = true /\ chunk_in_range 2 finder44 0 7 = true
  /\ distinct_until (slot_seq 2 finder44 0 7) (chunks_at finder44 0).
Proof.
  split; [reflexivity|]. split; [reflexivity|].
  exact (proj1 (proj2 (cursor_period 2 finder44 0 7 eq_refl eq_refl))).
Defined.

(** C2, as stated, fails: with [levelSteps = [4, 4]] and level 0 the claimed
    period is [20 / 1 = 20], but the slot of step 16 is again the slot of
    step 0, and the slot of step 20 is not. *)
Lemma period_as_stated_fails :
  finder_ok 2 finder44 = true /\ chunk_in_range 2 finder44 0 0 = true
  /\ totalChunkCount finder44 / at_ (levelSizes finder44) 0 = 20
  /\ ~ distinct_until (slot_seq 2 finder44 0 0)
         (totalChunkCount finder44 / at_ (levelSizes finder44) 0)
  /\ ~ repeats_after (slot_seq 2 finder44 0 0)
         (totalChunkCount finder44 / at_ (levelSizes finder44) 0).
Proof.
  split; [reflexivity|]. split; [reflexivity|]. split; [reflexivity|]. split.
  - intros Hd. apply (Hd 0%nat 16%nat); [lia | reflexivity | reflexivity].
  - intros Hr. specialize (Hr 0%nat). vm_compute in Hr. discriminate.
Qed.

(** C3. On a valid, initialised indexer, after [goToChunk] with an in-range
    [(level, index)] and after every later [advanceChunk], [currIndex] lies
    in [[0, totalChunkCount)]. *)
Theorem cursor_in_ring (LEVELS : nat) (f : mipmapChunkFinder) (level : nat)
    (index : Z) (k : nat) :
  finder_ok LEVELS f = true ->
  chunk_in_range LEVELS f level index = true ->
  0 <= currIndex (cursor LEVELS f level index k) < totalChunkCount f
  /\ totalChunkCount (cursor LEVELS f level index k) = totalChunkCount f.
Proof.
  intros Hok Hrange. apply finder_ok_wf in Hok.
  destruct (chunk_in_range_elim LEVELS f level index Hok Hrange) as [Hlevel Hindex].
  pose proof (chunks_at_pos LEVELS f level Hok) as HN.
  split.
  - rewrite cursor_slot by done. apply (slot_of_range LEVELS); try done.
    apply Z.mod_pos_bound. lia.
  - destruct (cursor_at_chunk LEVELS f level index Hok Hlevel Hindex k)
      as [[Hwf' _ _ _ _ _] Hst].
    destruct Hok as [_ _ _ _ Ht _ _]. destruct Hwf' as [_ _ _ _ Ht' _ _].
    by rewrite Ht', Hst, Ht.
Qed.

Lemma cursor_in_ring_witness :
  finder_ok 2 finder44 = true /\ chunk_in_range 2 finder44 0 7 = true
  /\ 0 <= currIndex (cursor 2 finder44 0 7 9) < totalChunkCount finder44.
Proof.
  split; [reflexivity|]. split; [reflexivity|].
  exact (proj1 (cursor_in_ring 2 finder44 0 7 9 eq_refl eq_refl)).
Defined.

(** ** The view resolver *)

(** C4, as the code has it. For a valid reader, a request satisfying the
    caller precondition and a nonzero resolution, [requestView] selects the
    largest level [i] with [levelCompression[i] <= span / resolution] and
    answers with the request snapped to the chunks of that level; if no
    level qualifies and [allowOriginal] is set it returns the request with
    the resolution replaced by the span and reports the level [-1]; if no
    level qualifies and [allowOriginal] is not set it uses level 0. With the
    original data it always answers; with a stored level it answers when the
    snapped end is within the stream and fails its final assertion
    otherwise. *)
Theorem requestView_level_choice (LEVELS : nat) (rd : mipmapReader.t)
    (requested : mipmapReaderView) :
  reader_ok LEVELS rd = true ->
  request_ok rd requested = true ->
  resolution requested <> 0 ->
  let result := mipmapReader.requestView LEVELS rd requested in
  let answer (v : mipmapReaderView) (i : Z) :=
    if endSamples v <=? mipmapReader.length rd then Returns (v, i)
    else AssertionFailed in
  ((exists i, largest_qualifying LEVELS rd requested i)
   \/ none_qualifies LEVELS rd requested)
  /\ (forall i, largest_qualifying LEVELS rd requested i ->
        result = answer (snapped rd requested i) (Z.of_nat i))
  /\ (none_qualifies LEVELS rd requested -> mipmapReader.allowOriginal rd = true ->
        result = Returns (View (startSamples requested) (endSamples requested)
                               (endSamples requested - startSamples requested), -1))
  /\ (none_qualifies LEVELS rd requested -> mipmapReader.allowOriginal rd = false ->
        result = answer (snapped rd requested 0) 0).
Proof.
  intros Hrd Hreq Hres. cbv zeta.
  rewrite requestView_explicit by done. cbv zeta.
  pose proof (scan_levels_choice LEVELS rd requested Hrd Hreq Hres) as Hscan.
  cbv zeta in Hscan.
  set (i := mipmapReader.scan_levels _ _ _) in *.
  split; [destruct Hscan as [[_ ?]|[_ ?]]; eauto|].
  split; [|split].
  - intros k Hk. destruct Hscan as [[_ Hnone]|[Hi Hlargest]].
    + exfalso. destruct Hk as (Hk1 & Hk2 & _). by apply (Hnone k).
    + rewrite (largest_qualifying_unique LEVELS rd requested k _ Hk Hlargest).
      destruct (i <? 0) eqn:Hneg; [apply Z.ltb_lt in Hneg; lia|].
      cbn [andb]. done.
  - intros Hnone Hallow. destruct Hscan as [[-> _]|[_ (Hk1 & Hk2 & _)]].
    + rewrite Hallow. done.
    + exfalso. by apply (Hnone (Z.to_nat i)).
  - intros Hnone Hallow. destruct Hscan as [[-> _]|[_ (Hk1 & Hk2 & _)]].
    + rewrite Hallow. done.
    + exfalso. by apply (Hnone (Z.to_nat i)).
Qed.

Lemma requestView_level_choice_witness :
  reader_ok 2 (reader44 1000) = true
  /\ request_ok (reader44 1000) (View 300 500 10) = true
  /\ ((exists i, largest_qualifying 2 (reader44 1000) (View 300 500 10) i)
      \/ none_qualifies 2 (reader44 1000) (View 300 500 10)).
Proof.
  split; [reflexivity|]. split; [reflexivity|].
  exact (proj1 (requestView_level_choice 2 (reader44 1000) (View 300 500 10)
                  eq_refl eq_refl ltac:(discriminate))).
Defined.

(** C4, as stated, fails: a request within the stream, for which no level
    qualifies, on a reader without [allowOriginal]: level 0 is used, the end
    is snapped from 100 up to 128, beyond the stream, and the final
    assertion fails. *)
Lemma requestView_can_fail :
  let rd := mipmapReader.set_allowOriginal false (reader44 100) in
  reader_ok 2 rd = true
  /\ request_ok rd (View 0 100 100) = true
  /\ none_qualifies 2 rd (View 0 100 100)
  /\ mipmapReader.requestView 2 rd (View 0 100 100) = AssertionFailed.
Proof.
  cbv zeta. split; [reflexivity|]. split; [reflexivity|]. split; [|reflexivity].
  intros j Hj. unfold qualifies, Qle. destruct j as [|[|j]]; [| |lia]; vm_compute; done.
Qed.

(** C5. When [requestView] answers with a stored level [i], with
    [c = levelCompression[i]] and [roundTo = c * chunkSize], the returned
    [startSamples] is the request's snapped down to a multiple of [roundTo],
    the returned [endSamples] is the request's snapped up to a multiple of
    [roundTo], and the returned resolution is their difference divided by
    [c]. With [chunkSize = 16], [baseLevelStep = 4] and a branch factor 4
    ([levelCompression = [4, 16]]), a request of resolution 10 over a span
    of 200 selects level 1 and is snapped to multiples of 256. *)
Theorem requestView_snaps (LEVELS : nat) (rd : mipmapReader.t)
    (requested returned : mipmapReaderView) (i : Z) :
  reader_ok LEVELS rd = true ->
  mipmapReader.requestView LEVELS rd requested = Returns (returned, i) ->
  0 <= i ->
  let c := at_ (mipmapReader.levelCompression rd) (Z.to_nat i) in
  let roundTo := c * mipmapReader.chunkSize rd in
  ((roundTo | startSamples returned)
   /\ startSamples returned <= startSamples requested < startSamples returned + roundTo)
  /\ ((roundTo | endSamples returned)
      /\ endSamples returned - roundTo < endSamples requested <= endSamples returned)
  /\ resolution returned = (endSamples returned - startSamples returned) / c
  /\ (mipmapReader.levelCompression (reader44 1000) = [4; 16]
      /\ mipmapReader.requestView 2 (reader44 1000) (View 300 500 10)
         = Returns (View 256 512 16, 1)
      /\ mipmapReader.requestView 2 (reader44 1000) (View 0 200 10)
         = Returns (View 0 256 16, 1)).
Proof.
  intros Hrd Hres Hi. cbv zeta.
  pose proof (requestView_returns_request_ok LEVELS rd requested _ Hres) as Hreq.
  rewrite requestView_explicit in Hres by done. cbv zeta in Hres.
  pose proof (reader_ok_elim LEVELS rd Hrd) as (HL & Hlen & Hcs & Hlc).
  pose proof (scan_levels_spec (mipmapReader.levelCompression rd)
                (Double.div
                   (Double.of_int (endSamples requested - startSamples requested))
                   (Double.of_int (resolution requested))) LEVELS) as Hscan.
  cbv zeta in Hscan.
  set (s := mipmapReader.scan_levels _ _ _) in *.
  assert (Hi' : (Z.to_nat (if (s <? 0)%Z then 0%Z else s) < LEVELS)%nat).
  { destruct (s <? 0) eqn:Hneg; [lia|].
    apply Z.ltb_ge in Hneg. destruct Hscan as [[? _]|[? _]]; lia. }
  destruct ((s <? 0) && mipmapReader.allowOriginal rd) eqn:Hraw.
  { apply andb_true_iff in Hraw as [Hneg _]. apply Z.ltb_lt in Hneg.
    injection Hres as _ <-. lia. }
  destruct (_ <=? _) in Hres; [|done].
  injection Hres as <- <-. rewrite Nat2Z.id.
  destruct (Hlc _ Hi') as [Hc _].
  destruct (snapped_spec rd requested _ Hc Hcs) as (S1 & S2 & S3 & S4 & S5).
  repeat split; try done; lia.
Qed.

Lemma requestView_snaps_witness :
  reader_ok 2 (reader44 1000) = true
  /\ mipmapReader.requestView 2 (reader44 1000) (View 300 500 10)
     = Returns (View 256 512 16, 1)
  /\ (256 | 256) /\ 256 <= 300 < 256 + 256.
Proof.
  split; [reflexivity|]. split; [reflexivity|].
  exact (proj1 (requestView_snaps 2 (reader44 1000) (View 300 500 10)
                  (View 256 512 16) 1 eq_refl eq_refl ltac:(lia))).
Defined.

(** C10. There is a request within the stream ([endSamples = length], the
    length not a multiple of [roundTo] at the level chosen) whose end
    [requestView] snaps beyond the stream, so that its final assertion
    fails. *)
Theorem requestView_aborts_in_bounds :
  exists (rd : mipmapReader.t) (requested : mipmapReaderView) (i : nat),
    reader_ok 2 rd = true
    /\ request_ok rd requested = true
    /\ endSamples requested = mipmapReader.length rd
    /\ largest_qualifying 2 rd requested i
    /\ mipmapReader.length rd < endSamples (snapped rd requested i)
    /\ mipmapReader.requestView 2 rd requested = AssertionFailed.
Proof.
  exists (reader44 1000), (View 0 1000 10), 1%nat.
  split; [reflexivity|]. split; [reflexivity|]. split; [reflexivity|].
  split; [|split; reflexivity].
  split; [lia|]. split.
  - unfold qualifies, Qle. vm_compute. done.
  - intros j Hj. lia.
Qed.

(** ** Initialisation *)

(** C9, as the code has it. [init] checks nothing: for every configuration
    with [LEVELS >= 1], whatever the branch factors are, the call returns,
    having set [levelSizes[0] = 1],
    [levelSizes[i] = levelSizes[i-1] * levelSteps[i-1] + 1] and
    [totalChunkCount = levelSizes[LEVELS-1] * levelSteps[LEVELS-1]] in the
    arithmetic of [int]; when the configuration is valid the result is a
    well-formed indexer. *)
Theorem init_checks_nothing (LEVELS : nat) (f : mipmapChunkFinder) :
  (1 <= LEVELS)%nat ->
  length (levelSteps f) = LEVELS ->
  length (levelSizes f) = LEVELS ->
  length (levelIndex f) = LEVELS ->
  let f' := init LEVELS f in
  init_call LEVELS f = Returns f'
  /\ levelSteps f' = levelSteps f
  /\ at_ (levelSizes f') 0 = 1
  /\ (forall i, (1 <= i < LEVELS)%nat ->
        at_ (levelSizes f') i
        = Int32.add (Int32.mul (at_ (levelSizes f') (i - 1))
                               (at_ (levelSteps f) (i - 1))) 1)
  /\ totalChunkCount f'
     = Int32.mul (at_ (levelSizes f') (LEVELS - 1)) (at_ (levelSteps f) (LEVELS - 1))
  /\ (steps_ok LEVELS (levelSteps f) = true -> finder_ok LEVELS f' = true).
Proof.
  intros HL Hsteps Hsizes Hidx. cbv zeta.
  split; [done|].
  split; [by rewrite init_computes|].
  split; [|split; [|split]].
  - rewrite init_computes by done. cbn [levelSizes set_totalChunkCount set_levelSizes].
    destruct (levelSteps f) as [|b steps]; simpl in *; [lia | done].
  - intros i Hi. rewrite init_computes by done.
    cbn [levelSizes set_totalChunkCount set_levelSizes].
    set (S32 := sizes32_from 1 (levelSteps f)).
    assert (HlenS : length S32 = LEVELS)
      by (unfold S32; rewrite length_sizes32_from; lia).
    destruct (lookup_lt_is_Some_2 (levelSteps f) (i - 1)) as [b Hb]; [lia|].
    destruct (lookup_lt_is_Some_2 S32 (i - 1)) as [x Hx]; [lia|].
    rewrite (at_lookup _ _ _ Hb), (at_lookup _ _ _ Hx).
    apply at_lookup. replace i with (S (i - 1)) at 1 by lia.
    apply sizes32_from_S; [lia | done | done].
  - by rewrite init_computes.
  - intros Hok. pose proof (init_wf LEVELS f Hok Hsizes Hidx) as Hwf.
    destruct Hwf as [W1 W2 W3 W4 W5 W6 W7].
    assert (Hst : levelSteps (init LEVELS f) = levelSteps f)
      by (by rewrite init_computes).
    unfold finder_ok. rewrite Hst in *. rewrite Hok, W4, W5, W6.
    rewrite Z.eqb_refl, Nat.eqb_refl, !andb_true_r.
    clear. induction (exact_sizes (levelSteps f)) as [|x l IH]; simpl; [done|].
    by rewrite Z.eqb_refl, IH.
Qed.

Lemma init_checks_nothing_witness :
  init_call 2 (new_finder 2 [0; 4]) = Returns (init 2 (new_finder 2 [0; 4])).
Proof.
  exact (proj1 (init_checks_nothing 2 (new_finder 2 [0; 4])
                  ltac:(lia) eq_refl eq_refl eq_refl)).
Defined.

(** C9, as stated, fails: with a branch factor 0 the configuration is not
    valid, and [init] returns all the same, with [levelSizes = [1, 1]] and
    [totalChunkCount = 4]. *)
Lemma init_accepts_invalid :
  steps_ok 2 [0; 4] = false
  /\ init_call 2 (new_finder 2 [0; 4]) = Returns (Finder [0; 4] [1; 1] [0; 0] 4 0 0)
  /\ init_call 2 (new_finder 2 [0; 4]) <> AssertionFailed.
Proof. split; [reflexivity|]. split; [reflexivity | discriminate]. Qed.

(** ** Extraction *)

(** C7. [read] and [readSpectrum] throw the logic error "no mipmap level for
    this resolution" if and only if the compression of the view,
    [(endSamples - startSamples) / resolution], equals no
    [levelCompression[i]]; when some level has that compression, extraction
    goes on at the first such level. *)
Theorem extraction_throws_iff_no_level (LEVELS : nat) (CHANNELS : Z)
    {E : mipmapReader.External} (fuel : nat) (rd : mipmapReader.t)
    (view : mipmapReaderView) (dst : gmap Z Z)
    (yLower yUpper : mipmapReader.real) (c : Z) :
  compression view = Returns c ->
  let no_level :=
    forall i, (i < LEVELS)%nat -> at_ (mipmapReader.levelCompression rd) i <> c in
  let A := mipmapReader.div
             (mipmapReader.sub (mipmapReader.of_int mipmapReader.valMax)
                               (mipmapReader.of_int mipmapReader.valMin))
             (mipmapReader.sub yUpper yLower) in
  let B := mipmapReader.of_int mipmapReader.valMin in
  (mipmapReader.read LEVELS CHANNELS fuel rd view dst yLower yUpper
     = LogicError "no mipmap level for this resolution" <-> no_level)
  /\ (mipmapReader.readSpectrum LEVELS CHANNELS fuel rd view dst yLower yUpper
        = LogicError "no mipmap level for this resolution" <-> no_level)
  /\ (forall i, (i < LEVELS)%nat ->
        at_ (mipmapReader.levelCompression rd) i = c ->
        (forall j, (j < i)%nat -> at_ (mipmapReader.levelCompression rd) j <> c) ->
        mipmapReader.read LEVELS CHANNELS fuel rd view dst yLower yUpper
        = (mipmapStart ← idiv (startSamples view) c;
           chunkIndex ← idiv mipmapStart (mipmapReader.chunkSize rd);
           '(dst', f) ← mipmapReader.read_chunks LEVELS fuel rd yLower yUpper A B
                          (Int32.mul (mipmapReader.chunkSize rd) CHANNELS)
                          (Int32.mul (resolution view) CHANNELS)
                          (goToChunk LEVELS i chunkIndex (mipmapReader.finder rd))
                          0 dst;
           Returns (dst', mipmapReader.set_finder f rd))
        /\ mipmapReader.readSpectrum LEVELS CHANNELS fuel rd view dst yLower yUpper
           = (chunkIndex ← mipmapReader.spectrum_start rd view i c;
              '(dst', f) ← mipmapReader.spectrum_chunks LEVELS CHANNELS fuel rd
                             yLower yUpper A B
                             (mipmapReader.chunkSize rd) (resolution view)
                             (goToChunk LEVELS i chunkIndex (mipmapReader.finder rd))
                             0 dst;
              Returns (dst', mipmapReader.set_finder f rd))).
Proof.
  intros Hc. cbv zeta.
  split; [|split].
  - rewrite (read_throws LEVELS CHANNELS fuel rd view dst yLower yUpper c Hc).
    apply find_level_none.
  - rewrite (readSpectrum_throws LEVELS CHANNELS fuel rd view dst yLower yUpper c Hc).
    apply find_level_none.
  - intros i Hi Hci Hfirst.
    pose proof (find_level_first LEVELS _ c i Hi Hci Hfirst) as Hfind.
    unfold mipmapReader.read, mipmapReader.readSpectrum.
    unfold compression in Hc. rewrite Hc. cbn [mbind outcome_bind].
    rewrite Hfind.
    destruct (Nat.eqb_spec i LEVELS) as [->|_]; [lia|]. done.
Qed.

Lemma extraction_throws_iff_no_level_witness :
  compression (View 128 192 16) = Returns 4
  /\ (mipmapReader.read 2 1 (E := integer_external) 1 (reader44 512)
        (View 128 192 16) ∅ (-100) 100
      = LogicError "no mipmap level for this resolution"
      <-> forall i, (i < 2)%nat ->
            at_ (mipmapReader.levelCompression (reader44 512)) i <> 4).
Proof.
  split; [reflexivity|].
  exact (proj1 (extraction_throws_iff_no_level 2 1 (E := integer_external) 1
                  (reader44 512) (View 128 192 16) ∅ (-100) 100 4 eq_refl)).
Defined.

(** C6. In [readSpectrum], with
    [totalChunks = length / levelCompression[i] / chunkSize] at the matched
    level [i], the logical chunk at which reading starts is
    [(startSamples / compression / chunkSize + totalChunks / 2) mod totalChunks].
    With 8 chunks at the level and the start chunk 2, reading starts at the
    chunk of logical index 6. *)
Theorem readSpectrum_start_centered (LEVELS : nat) (CHANNELS : Z)
    {E : mipmapReader.External} (fuel : nat) (rd : mipmapReader.t)
    (view : mipmapReaderView) (dst : gmap Z Z)
    (yLower yUpper : mipmapReader.real) (c : Z) (i : nat) :
  compression view = Returns c ->
  mipmapReader.find_level LEVELS (mipmapReader.levelCompression rd) c = i ->
  (i < LEVELS)%nat ->
  1 <= c -> 1 <= mipmapReader.chunkSize rd ->
  0 <= startSamples view < mipmapReader.length rd ->
  mipmapReader.length rd <= Int32.max_int ->
  let totalChunks :=
    mipmapReader.length rd / at_ (mipmapReader.levelCompression rd) i
    / mipmapReader.chunkSize rd in
  totalChunks + totalChunks / 2 <= Int32.max_int ->
  let start :=
    (startSamples view / c / mipmapReader.chunkSize rd + totalChunks / 2)
    mod totalChunks in
  let A := mipmapReader.div
             (mipmapReader.sub (mipmapReader.of_int mipmapReader.valMax)
                               (mipmapReader.of_int mipmapReader.valMin))
             (mipmapReader.sub yUpper yLower) in
  let B := mipmapReader.of_int mipmapReader.valMin in
  mipmapReader.spectrum_start rd view i c = Returns start
  /\ mipmapReader.readSpectrum LEVELS CHANNELS fuel rd view dst yLower yUpper
     = ('(dst', f) ← mipmapReader.spectrum_chunks LEVELS CHANNELS fuel rd
                       yLower yUpper A B
                       (mipmapReader.chunkSize rd) (resolution view)
                       (goToChunk LEVELS i start (mipmapReader.finder rd)) 0 dst;
        Returns (dst', mipmapReader.set_finder f rd))
  /\ (mipmapReader.length (reader44 512)
        / at_ (mipmapReader.levelCompression (reader44 512)) 0
        / mipmapReader.chunkSize (reader44 512) = 8
      /\ 128 / 4 / mipmapReader.chunkSize (reader44 512) = 2
      /\ mipmapReader.spectrum_start (reader44 512) (View 128 192 16) 0 4 = Returns 6
      /\ match mipmapReader.readSpectrum 2 2 (E := integer_external) 1
                 (reader44 512) (View 128 192 16) ∅ (-100) 100 with
         | Returns (_, rd') =>
             mipmapReader.finder rd'
             = goToChunk 2 0 6 (mipmapReader.finder (reader44 512))
         | _ => False
         end).
Proof.
  intros Hc Hfind Hi Hc1 Hcs Hstart Hlen. cbv zeta. intros Hsum.
  destruct (find_level_spec LEVELS (mipmapReader.levelCompression rd) c)
    as (_ & _ & Hlc).
  cbv zeta in Hlc. rewrite Hfind in Hlc. specialize (Hlc Hi).
  rewrite Hlc in *.
  pose proof (spectrum_start_mod rd view i c Hc1 Hlc Hcs Hstart Hlen Hsum) as Hs.
  cbv zeta in Hs.
  split; [done|]. split; [|repeat split; vm_compute; reflexivity].
  unfold mipmapReader.readSpectrum.
  unfold compression in Hc. rewrite Hc. cbn [mbind outcome_bind].
  rewrite Hfind. destruct (Nat.eqb_spec i LEVELS) as [->|_]; [lia|].
  rewrite Hs. done.
Qed.

Lemma readSpectrum_start_centered_witness :
  compression (View 128 192 16) = Returns 4
  /\ mipmapReader.spectrum_start (reader44 512) (View 128 192 16) 0 4
     = Returns ((128 / 4 / 16 + 8 / 2) mod 8).
Proof.
  split; [reflexivity|].
  exact (proj1 (readSpectrum_start_centered 2 2 (E := integer_external) 1
                  (reader44 512) (View 128 192 16) ∅ (-100) 100 4 0
                  eq_refl eq_refl ltac:(lia) ltac:(lia) ltac:(vm_compute; discriminate)
                  ltac:(vm_compute; split; [discriminate | reflexivity])
                  ltac:(vm_compute; discriminate)
                  ltac:(vm_compute; discriminate))).
Defined.



(** * Further properties of the code *)

(** ** What the indexer leaves alone *)

Lemma finder_ext (f g : mipmapChunkFinder) :
  levelSteps f = levelSteps g -> levelSizes f = levelSizes g ->
  levelIndex f = levelIndex g -> totalChunkCount f = totalChunkCount g ->
  currLevel f = currLevel g -> currIndex f = currIndex g -> f = g.
Proof. destruct f, g; simpl; intros; by subst. Qed.

Lemma same_below_refl i f : same_below i f f.
Proof. by repeat split. Qed.

Lemma same_below_trans i f g h :
  same_below i f g -> same_below i g h -> same_below i f h.
Proof.
  intros (A1 & A2 & A3 & A4 & A5) (B1 & B2 & B3 & B4 & B5).
  repeat split; congruence.
Qed.

Lemma same_below_le i j f g : (i <= j)%nat -> same_below j f g -> same_below i f g.
Proof.
  intros Hij (A1 & A2 & A3 & A4 & A5). repeat split; try done.
  apply (f_equal (take i)) in A5. rewrite !take_take in A5.
  by replace (i `min` j)%nat with i in A5 by lia.
Qed.

Lemma same_below_set_currIndex i v f : same_below i f (set_currIndex v f).
Proof. by repeat split. Qed.

Lemma same_below_set_currLevel i v f : same_below i f (set_currLevel v f).
Proof. by repeat split. Qed.

Lemma same_below_set_index i j v f :
  (i <= j)%nat -> same_below i f (set_levelIndex (<[j := v]> (levelIndex f)) f).
Proof.
  intros Hij. repeat split; simpl; [by rewrite length_insert|].
  by rewrite take_insert_ge by lia.
Qed.

Lemma carry_loop_same_below n : forall i f, same_below i f (carry_loop n i f).
Proof.
  induction n as [|n IH]; intros i f; cbn [carry_loop]; [apply same_below_refl|].
  cbv zeta. destruct (negb _).
  - eapply same_below_trans; [apply same_below_set_currIndex|].
    by apply same_below_set_index.
  - eapply same_below_trans; [apply same_below_set_currIndex|].
    eapply same_below_trans; [by apply (same_below_set_index i i)|].
    apply (same_below_le i (S i)); [lia | apply IH].
Qed.

Lemma carry_loop_currLevel n : forall i f,
  currLevel (carry_loop n i f) = currLevel f.
Proof.
  induction n as [|n IH]; intros i f; cbn [carry_loop]; [done|].
  cbv zeta. destruct (negb _); [done|]. by rewrite IH.
Qed.

Lemma advanceChunk_same_below LEVELS f :
  same_below (currLevel f) f (advanceChunk LEVELS f)
  /\ currLevel (advanceChunk LEVELS f) = currLevel f.
Proof.
  unfold advanceChunk.
  set (f1 := set_currIndex _ f).
  assert (H1 : same_below (currLevel f) f f1) by apply same_below_set_currIndex.
  assert (L1 : currLevel f1 = currLevel f) by done.
  set (f2 := if _ =? _ then _ else _).
  assert (H2 : same_below (currLevel f) f f2 /\ currLevel f2 = currLevel f).
  { unfold f2. destruct (_ =? _).
    - pose proof (carry_loop_same_below (LEVELS - (currLevel f + 1))
                    (currLevel f + 1) f1) as Hc.
      split.
      + eapply same_below_trans; [exact H1|].
        eapply same_below_trans;
          [apply (same_below_le _ (currLevel f + 1)); [lia | exact Hc]|].
        by apply same_below_set_index.
      + cbn [currLevel set_levelIndex]. by rewrite carry_loop_currLevel.
    - split; [|done].
      eapply same_below_trans; [exact H1|]. by apply same_below_set_index. }
  destruct H2 as [H2 L2].
  destruct (_ <=? _); [|done].
  split; [|done]. eapply same_below_trans; [exact H2|]. apply same_below_set_currIndex.
Qed.

Lemma for_loop_digits_same_below n : forall i (f : mipmapChunkFinder) tmp,
  same_below i f
    (fst (for_loop n i (fun i '(f, tmpIndex) =>
            (set_levelIndex
               (<[i := Int32.rem tmpIndex (at_ (levelSteps f) i)]> (levelIndex f)) f,
             Int32.div tmpIndex (at_ (levelSteps f) i))) (f, tmp)))
  /\ currLevel (fst (for_loop n i (fun i '(f, tmpIndex) =>
            (set_levelIndex
               (<[i := Int32.rem tmpIndex (at_ (levelSteps f) i)]> (levelIndex f)) f,
             Int32.div tmpIndex (at_ (levelSteps f) i))) (f, tmp))) = currLevel f.
Proof.
  induction n as [|n IH]; intros i f tmp; simpl; [split; [apply same_below_refl | done]|].
  destruct (IH (S i) (set_levelIndex
                        (<[i := Int32.rem tmp (at_ (levelSteps f) i)]> (levelIndex f)) f)
              (Int32.div tmp (at_ (levelSteps f) i))) as [H1 H2].
  split; [|by rewrite H2].
  eapply same_below_trans; [by apply (same_below_set_index i i)|].
  apply (same_below_le i (S i)); [lia | exact H1].
Qed.

Lemma for_loop_sum_same_below n : forall i (f : mipmapChunkFinder),
  let f' := for_loop n i (fun i f =>
              set_currIndex
                (Int32.add (currIndex f)
                   (Int32.mul (at_ (levelIndex f) i) (at_ (levelSizes f) i))) f) f in
  levelSteps f' = levelSteps f /\ levelSizes f' = levelSizes f
  /\ totalChunkCount f' = totalChunkCount f /\ levelIndex f' = levelIndex f
  /\ currLevel f' = currLevel f.
Proof.
  induction n as [|n IH]; intros i f; simpl; [done|].
  destruct (IH (S i) (set_currIndex
                        (Int32.add (currIndex f)
                           (Int32.mul (at_ (levelIndex f) i) (at_ (levelSizes f) i))) f))
    as (H1 & H2 & H3 & H4 & H5).
  cbv zeta in *. by rewrite H1, H2, H3, H4, H5.
Qed.

Lemma goToChunk_same_below LEVELS level index f :
  same_below level f (goToChunk LEVELS level index f)
  /\ currLevel (goToChunk LEVELS level index f) = level.
Proof.
  unfold goToChunk, for_range.
  pose proof (for_loop_digits_same_below (LEVELS - level) level
                (set_currLevel level f) index) as [H1 L1].
  destruct (for_loop (LEVELS - level) level _ (set_currLevel level f, index))
    as [f1 tmp1]. simpl in H1, L1.
  pose proof (for_loop_sum_same_below (LEVELS - level) level (set_currIndex 0 f1))
    as (S1 & S2 & S3 & S4 & S5).
  cbv zeta in *. set (f2 := for_loop _ _ _ (set_currIndex 0 f1)) in *.
  simpl in S1, S2, S3, S4, S5.
  assert (H2 : same_below level f f2).
  { destruct H1 as (A1 & A2 & A3 & A4 & A5).
    repeat split; simpl in *; congruence. }
  destruct (0 <? level)%nat.
  - split; [|simpl; congruence].
    eapply same_below_trans; [exact H2|]. apply same_below_set_currIndex.
  - split; [done | congruence].
Qed.


(** ** The cursor and [goToChunk] *)

Section CursorJumps.

Variable LEVELS : nat.

Lemma chunks_at_le_total f level :
  wf LEVELS f -> (level < LEVELS)%nat -> chunks_at f level <= totalChunkCount f.
Proof.
  intros Hwf Hlevel.
  destruct (wf_level_facts LEVELS f level Hwf Hlevel)
    as [Hsizes Htop Hw Hfits HB HlenB Hbelow].
  unfold chunks_at.
  pose proof (slot_last _ (at_ (levelSizes f) level) HB) as Hlast.
  pose proof (node_count_pos _ HB) as HN.
  pose proof (ancestors_before_mono _ 0 (node_count (drop level (levelSteps f)) - 1)
                HB ltac:(lia)) as Hanc.
  rewrite Htop, HlenB in Hlast. nia.
Qed.

Lemma cursor_same_below f level index k :
  same_below level f (cursor LEVELS f level index k)
  /\ currLevel (cursor LEVELS f level index k) = level.
Proof.
  unfold cursor. induction k as [|k [IH1 IH2]].
  - apply goToChunk_same_below.
  - rewrite Nat.iter_succ.
    destruct (advanceChunk_same_below LEVELS
                (Nat.iter k (advanceChunk LEVELS) (goToChunk LEVELS level index f)))
      as [A1 A2].
    rewrite IH2 in A1. split; [|congruence].
    eapply same_below_trans; [exact IH1 | exact A1].
Qed.

Lemma cursor_goToChunk f level index k :
  wf LEVELS f -> (level < LEVELS)%nat -> 0 <= index <= Int32.max_int ->
  cursor LEVELS f level index k
  = goToChunk LEVELS level ((index + Z.of_nat k) mod chunks_at f level) f.
Proof.
  intros Hwf Hlevel Hindex.
  pose proof (chunks_at_pos LEVELS f level Hwf) as HN.
  pose proof (chunks_at_le_total f level Hwf Hlevel) as HNT.
  destruct (wf_level_facts LEVELS f level Hwf Hlevel)
    as [Hsizes Htop Hw Hfits HB HlenB Hbelow].
  set (n := (index + Z.of_nat k) mod chunks_at f level).
  assert (Hn : 0 <= n < chunks_at f level) by (apply Z.mod_pos_bound; lia).
  assert (Hn' : 0 <= n <= Int32.max_int) by in_int_range.
  destruct (cursor_at_chunk LEVELS f level index Hwf Hlevel Hindex k) as [Hc Hst].
  fold n in Hc. destruct Hc as [Hwf1 _ Hl1 _ Hd1 Hs1].
  pose proof (goToChunk_at_chunk LEVELS f level n Hwf Hlevel Hn') as Hg.
  rewrite (Z.mod_small n) in Hg by done.
  destruct Hg as [Hwf2 _ Hl2 _ Hd2 Hs2].
  destruct (cursor_same_below f level index k) as [(C1 & C2 & C3 & C4 & C5) _].
  destruct (goToChunk_same_below LEVELS level n f) as [(G1 & G2 & G3 & G4 & G5) _].
  set (c := cursor LEVELS f level index k) in *.
  set (g := goToChunk LEVELS level n f) in *.
  apply finder_ext; try congruence.
  - rewrite <- (take_drop level (levelIndex c)), <- (take_drop level (levelIndex g)).
    rewrite C5, G5, Hd1, Hd2, C1, G1. done.
  - rewrite Hs1, Hs2. unfold slot_of. by rewrite C1, C2, G1, G2.
Qed.

Lemma goToChunk_slot f level index :
  wf LEVELS f -> (level < LEVELS)%nat -> 0 <= index < chunks_at f level ->
  currIndex (goToChunk LEVELS level index f) = slot_of f level index.
Proof.
  intros Hwf Hlevel Hindex.
  pose proof (chunks_at_le_total f level Hwf Hlevel) as HNT.
  destruct (wf_level_facts LEVELS f level Hwf Hlevel)
    as [Hsizes Htop Hw Hfits HB HlenB Hbelow].
  pose proof (cursor_slot LEVELS f level index 0 Hwf Hlevel ltac:(in_int_range)) as Hs.
  rewrite Z.add_0_r, Z.mod_small in Hs by done. exact Hs.
Qed.

Lemma slot_of_layout f level n :
  wf LEVELS f -> (level < LEVELS)%nat ->
  slot_of f level n = layout_slot (levelSteps f) level n.
Proof.
  intros Hwf Hlevel. unfold slot_of, layout_slot.
  destruct Hwf as [HL Hlen Hsteps Hsz Htotal Hidx Hbound].
  rewrite Hsz. unfold exact_sizes. rewrite at_sizes_from by lia. done.
Qed.

End CursorJumps.

(** X2. On a valid, initialised indexer, [goToChunk(level, index)]
    followed by [k] calls of [advanceChunk] leaves the indexer in exactly
    the state that [goToChunk(level, (index + k) mod N)] leaves it in, [N]
    being the number of chunks of the level: advancing is the same as
    jumping to the next chunk, and after the last chunk of the level it is
    jumping to the first. *)
Theorem advance_is_jump (LEVELS : nat) (f : mipmapChunkFinder) (level : nat)
    (index : Z) (k : nat) :
  finder_ok LEVELS f = true ->
  chunk_in_range LEVELS f level index = true ->
  Nat.iter k (advanceChunk LEVELS) (goToChunk LEVELS level index f)
  = goToChunk LEVELS level ((index + Z.of_nat k) mod chunks_at f level) f.
Proof.
  intros Hok Hrange. apply finder_ok_wf in Hok.
  destruct (chunk_in_range_elim LEVELS f level index Hok Hrange) as [Hlevel Hindex].
  by apply (cursor_goToChunk LEVELS).
Qed.

Lemma advance_is_jump_witness :
  finder_ok 2 finder44 = true /\ chunk_in_range 2 finder44 0 14 = true
  /\ Nat.iter 5 (advanceChunk 2) (goToChunk 2 0 14 finder44)
     = goToChunk 2 0 ((14 + Z.of_nat 5) mod chunks_at finder44 0) finder44.
Proof.
  split; [reflexivity|]. split; [reflexivity|].
  exact (advance_is_jump 2 finder44 0 14 5 eq_refl eq_refl).
Defined.

(** X3. On a valid, initialised indexer, [goToChunk] does not reject an
    index beyond the chunks of the level: it reduces it modulo the number
    [N] of chunks of the level, so that [index + N] gives the state that
    [index] gives. *)
Theorem goToChunk_wraps_index (LEVELS : nat) (f : mipmapChunkFinder)
    (level : nat) (index : Z) :
  finder_ok LEVELS f = true ->
  (level < LEVELS)%nat ->
  0 <= index ->
  index + chunks_at f level <= Int32.max_int ->
  goToChunk LEVELS level (index + chunks_at f level) f
  = goToChunk LEVELS level index f.
Proof.
  intros Hok Hlevel Hindex Hmax. apply finder_ok_wf in Hok.
  pose proof (chunks_at_pos LEVELS f level Hok) as HN.
  rewrite !goToChunk_explicit by (try done; lia).
  destruct (wf_level_facts LEVELS f level Hok Hlevel)
    as [Hsizes Htop Hw Hfits HB HlenB Hbelow].
  assert (Hd : digits (drop level (levelSteps f)) (index + chunks_at f level)
               = digits (drop level (levelSteps f)) index).
  { rewrite <- (digits_mod _ (index + chunks_at f level)) by done.
    rewrite <- (digits_mod _ index) by done. f_equal. unfold chunks_at.
    rewrite <- (Z.mul_1_l (node_count _)) at 1. by rewrite Z.mod_add by (unfold chunks_at in HN; lia). }
  by rewrite Hd.
Qed.

Lemma goToChunk_wraps_index_witness :
  finder_ok 2 finder44 = true
  /\ goToChunk 2 0 (3 + chunks_at finder44 0) finder44 = goToChunk 2 0 3 finder44.
Proof.
  split; [reflexivity|].
  exact (goToChunk_wraps_index 2 finder44 0 3 eq_refl ltac:(lia) ltac:(lia)
           ltac:(vm_compute; discriminate)).
Defined.

(** ** The layout of the tree in the ring *)

Lemma node_count_app B1 B2 : node_count (B1 ++ B2) = node_count B1 * node_count B2.
Proof. induction B1 as [|b B1 IH]; simpl; [lia | rewrite IH; lia]. Qed.

Lemma top_from_nodes B : forall w,
  top_from w B = (w - 1) * node_count B + nodes_total B + 1.
Proof.
  induction B as [|b B IH]; intros w; simpl; [lia|].
  rewrite IH. lia.
Qed.

Lemma nodes_total_sum B :
  nodes_total B
  = foldr Z.add 0 (map (fun l => node_count (drop l B)) (seq 0 (length B))).
Proof.
  induction B as [|b B IH]; [done|].
  cbn [nodes_total length seq map foldr drop]. rewrite IH.
  f_equal. f_equal. rewrite <- seq_shift, map_map. done.
Qed.

(** Splitting the slot of a node at the top level of the tree: the part of
    the top-level ancestor, and the slot within that ancestor's subtree. *)
Lemma slot_snoc B : forall w n b,
  Forall (fun b => 1 <= b) B -> 1 <= b ->
  0 <= n < node_count B * b ->
  w * n + ancestors_before (B ++ [b]) n
  = w * (n mod node_count B) + ancestors_before B (n mod node_count B)
    + n / node_count B * top_from w B.
Proof.
  induction B as [|b0 B IH]; intros w n b HB Hb Hn.
  - simpl in *. rewrite Z.mod_1_r, Z.div_1_r, Z.div_small by lia. lia.
  - inversion HB as [|? ? Hb0 HB']; subst.
    pose proof (node_count_pos B HB') as HN.
    cbn [app ancestors_before node_count top_from] in *.
    assert (Hm : 0 <= n / b0 < node_count B * b).
    { split; [apply Z.div_pos; lia | apply Z.div_lt_upper_bound; nia]. }
    specialize (IH (w * b0 + 1) (n / b0) b HB' Hb Hm).
    rewrite Z.rem_mul_r by lia.
    rewrite <- Z.div_div by lia.
    set (m := n / b0) in *. set (d := n mod b0).
    assert (Hd : 0 <= d < b0) by (apply Z.mod_pos_bound; lia).
    assert (Hn0 : n = b0 * m + d) by (apply Z.div_mod; lia).
    set (r := m mod node_count B) in *.
    replace ((d + b0 * r) / b0) with r
      by (apply (Z.div_unique_pos _ _ _ d); lia).
    set (q := m / node_count B) in *.
    set (T := top_from (w * b0 + 1) B) in *.
    set (A := ancestors_before (B ++ [b]) m) in *.
    set (A' := ancestors_before B r) in *.
    nia.
Qed.

Section Layout.

Variable b : Z.
Variable S : list Z.
Hypothesis Hb : 1 <= b.
Hypothesis HS : Forall (fun b => 1 <= b) S.

Lemma layout_slot_lower l n :
  (l < length S)%nat -> 0 <= n < node_count (drop l S) * b ->
  layout_slot (S ++ [b]) l n
  = layout_slot S l (n mod node_count (drop l S))
    + n / node_count (drop l S) * top_from 1 S.
Proof.
  intros Hl Hn. unfold layout_slot.
  rewrite take_app_le, drop_app_le by lia.
  rewrite slot_snoc; [|by apply Forall_drop | done | done].
  rewrite top_from_take_drop. lia.
Qed.

Lemma layout_slot_top n :
  0 <= n < b ->
  layout_slot (S ++ [b]) (length S) n = top_from 1 S * n + (top_from 1 S - 1).
Proof.
  intros Hn. unfold layout_slot.
  rewrite take_app_length, drop_app_length. simpl.
  rewrite Z.div_small by lia. lia.
Qed.

Lemma layout_slot_range l n :
  (l < length S)%nat -> 0 <= n < node_count (drop l S) ->
  0 <= layout_slot S l n <= top_from 1 S - 2.
Proof.
  intros Hl Hn. unfold layout_slot.
  assert (Hw : 1 <= top_from 1 (take l S))
    by (apply top_from_pos; [by apply Forall_take | lia]).
  pose proof (slot_bound (drop l S) _ n ltac:(by apply Forall_drop) Hw Hn) as Hsb.
  rewrite top_from_take_drop, length_drop in Hsb. lia.
Qed.

Lemma node_count_drop_snoc l :
  (l < length S)%nat ->
  node_count (drop l (S ++ [b])) = node_count (drop l S) * b.
Proof.
  intros Hl. rewrite drop_app_le by lia. rewrite node_count_app. simpl. lia.
Qed.

Lemma node_count_drop_top : node_count (drop (length S) (S ++ [b])) = b.
Proof. rewrite drop_app_length. simpl. lia. Qed.

End Layout.

Lemma no_multiple_between W t s : W * t = s -> 0 < s < W -> False.
Proof. intros E Hs. destruct (Z.le_gt_cases t 0); nia. Qed.

(** Two nodes at one slot are one node. *)
Lemma layout_slot_inj steps :
  Forall (fun b => 1 <= b) steps ->
  forall l1 n1 l2 n2,
    (l1 < length steps)%nat -> (l2 < length steps)%nat ->
    0 <= n1 < node_count (drop l1 steps) ->
    0 <= n2 < node_count (drop l2 steps) ->
    layout_slot steps l1 n1 = layout_slot steps l2 n2 ->
    l1 = l2 /\ n1 = n2.
Proof.
  induction steps as [|b S IH] using rev_ind; intros Hsteps l1 n1 l2 n2 Hl1 Hl2 Hn1 Hn2 Heq.
  { simpl in Hl1. lia. }
  apply Forall_app in Hsteps as [HS Hb]. apply Forall_cons in Hb as [Hb _].
  rewrite length_app in Hl1, Hl2. simpl in Hl1, Hl2.
  pose proof (top_from_pos S 1 HS ltac:(lia)) as HW.
  set (W := top_from 1 S) in *.
  destruct (decide (l1 = length S)) as [E1|E1], (decide (l2 = length S)) as [E2|E2].
  - (* both at the top level *)
    subst l1 l2. rewrite node_count_drop_top in Hn1, Hn2.
    rewrite !layout_slot_top in Heq by done. fold W in Heq. split; [done | nia].
  - (* a top-level node and a node below *)
    exfalso. subst l1. rewrite node_count_drop_top in Hn1.
    rewrite node_count_drop_snoc in Hn2 by lia.
    rewrite layout_slot_top in Heq by done.
    rewrite (layout_slot_lower b S Hb HS l2 n2) in Heq by (try done; lia).
    fold W in Heq.
    pose proof (node_count_pos (drop l2 S) ltac:(by apply Forall_drop)) as HN.
    pose proof (layout_slot_range S HS l2 (n2 mod node_count (drop l2 S))
                  ltac:(lia) ltac:(apply Z.mod_pos_bound; lia)) as Hr.
    fold W in Hr.
    apply (no_multiple_between W (n1 + 1 - n2 / node_count (drop l2 S))
             (layout_slot S l2 (n2 mod node_count (drop l2 S)) + 1)); lia.
  - exfalso. subst l2. rewrite node_count_drop_top in Hn2.
    rewrite node_count_drop_snoc in Hn1 by lia.
    rewrite layout_slot_top in Heq by done.
    rewrite (layout_slot_lower b S Hb HS l1 n1) in Heq by (try done; lia).
    fold W in Heq.
    pose proof (node_count_pos (drop l1 S) ltac:(by apply Forall_drop)) as HN.
    pose proof (layout_slot_range S HS l1 (n1 mod node_count (drop l1 S))
                  ltac:(lia) ltac:(apply Z.mod_pos_bound; lia)) as Hr.
    fold W in Hr.
    apply (no_multiple_between W (n2 + 1 - n1 / node_count (drop l1 S))
             (layout_slot S l1 (n1 mod node_count (drop l1 S)) + 1)); lia.
  - (* both below the top level *)
    rewrite node_count_drop_snoc in Hn1, Hn2 by lia.
    rewrite (layout_slot_lower b S Hb HS l1 n1) in Heq by (try done; lia).
    rewrite (layout_slot_lower b S Hb HS l2 n2) in Heq by (try done; lia).
    fold W in Heq.
    pose proof (node_count_pos (drop l1 S) ltac:(by apply Forall_drop)) as HN1.
    pose proof (node_count_pos (drop l2 S) ltac:(by apply Forall_drop)) as HN2.
    set (N1 := node_count (drop l1 S)) in *. set (N2 := node_count (drop l2 S)) in *.
    pose proof (Z.mod_pos_bound n1 N1 ltac:(lia)) as Hm1.
    pose proof (Z.mod_pos_bound n2 N2 ltac:(lia)) as Hm2.
    pose proof (layout_slot_range S HS l1 (n1 mod N1) ltac:(lia) Hm1) as Hr1.
    pose proof (layout_slot_range S HS l2 (n2 mod N2) ltac:(lia) Hm2) as Hr2.
    fold W in Hr1, Hr2.
    assert (Hq : n1 / N1 = n2 / N2).
    { destruct (decide (n1 / N1 = n2 / N2)) as [|Hne]; [done|]. exfalso.
      destruct (Z.lt_total (layout_slot S l1 (n1 mod N1))
                           (layout_slot S l2 (n2 mod N2))) as [?|[?|?]].
      - apply (no_multiple_between W (n1 / N1 - n2 / N2)
                 (layout_slot S l2 (n2 mod N2) - layout_slot S l1 (n1 mod N1))); lia.
      - apply Hne. nia.
      - apply (no_multiple_between W (n2 / N2 - n1 / N1)
                 (layout_slot S l1 (n1 mod N1) - layout_slot S l2 (n2 mod N2))); lia. }
    assert (Hs : layout_slot S l1 (n1 mod N1) = layout_slot S l2 (n2 mod N2)).
    { rewrite Hq in Heq. lia. }
    destruct (IH HS l1 (n1 mod N1) l2 (n2 mod N2) ltac:(lia) ltac:(lia) Hm1 Hm2 Hs)
      as [El Er].
    split; [done|]. subst l2. subst N1 N2.
    rewrite (Z.div_mod n1 (node_count (drop l1 S))),
            (Z.div_mod n2 (node_count (drop l1 S))) by lia.
    by rewrite Hq, Er.
Qed.

(** Every slot of the ring holds a node. *)
Lemma layout_slot_surj steps :
  Forall (fun b => 1 <= b) steps ->
  forall p, 0 <= p < top_from 1 steps - 1 ->
    exists l n, (l < length steps)%nat
                /\ 0 <= n < node_count (drop l steps)
                /\ layout_slot steps l n = p.
Proof.
  induction steps as [|b S IH] using rev_ind; intros Hsteps p Hp.
  { simpl in Hp. lia. }
  apply Forall_app in Hsteps as [HS Hb]. apply Forall_cons in Hb as [Hb _].
  rewrite top_from_snoc in Hp.
  pose proof (top_from_pos S 1 HS ltac:(lia)) as HW.
  set (W := top_from 1 S) in *.
  pose proof (Z.div_mod p W ltac:(lia)) as Hdm.
  pose proof (Z.mod_pos_bound p W ltac:(lia)) as Hs.
  assert (Hq : 0 <= p / W < b).
  { split; [apply Z.div_pos; lia | apply Z.div_lt_upper_bound; lia]. }
  destruct (decide (p mod W = W - 1)) as [Etop|Elow].
  - exists (length S), (p / W). rewrite length_app. simpl.
    split; [lia|]. rewrite node_count_drop_top. split; [done|].
    rewrite layout_slot_top by done. fold W. lia.
  - destruct (IH HS (p mod W) ltac:(fold W; lia)) as (l & r & Hl & Hr & Hslot).
    pose proof (node_count_pos (drop l S) ltac:(by apply Forall_drop)) as HN.
    set (N := node_count (drop l S)) in *.
    exists l, (p / W * N + r). rewrite length_app. simpl.
    split; [lia|]. rewrite node_count_drop_snoc by done. fold N.
    split; [nia|].
    rewrite (layout_slot_lower b S Hb HS) by (try done; fold N; nia). fold N W.
    replace ((p / W * N + r) mod N) with r
      by (apply (Z.mod_unique_pos _ _ (p / W)); lia).
    replace ((p / W * N + r) / N) with (p / W)
      by (apply (Z.div_unique_pos _ _ _ r); lia).
    lia.
Qed.

(** X4. On a valid, initialised indexer no two chunks share a slot: if
    [goToChunk] gives the same [currIndex] for two chunks (each index below
    the number of chunks of its level), they are the same chunk of the same
    level. *)
Theorem goToChunk_injective (LEVELS : nat) (f : mipmapChunkFinder)
    (l1 l2 : nat) (n1 n2 : Z) :
  finder_ok LEVELS f = true ->
  (l1 < LEVELS)%nat -> (l2 < LEVELS)%nat ->
  0 <= n1 < chunks_at f l1 -> 0 <= n2 < chunks_at f l2 ->
  currIndex (goToChunk LEVELS l1 n1 f) = currIndex (goToChunk LEVELS l2 n2 f) ->
  l1 = l2 /\ n1 = n2.
Proof.
  intros Hok Hl1 Hl2 Hn1 Hn2 Heq. apply finder_ok_wf in Hok.
  rewrite !(goToChunk_slot LEVELS) in Heq by done.
  rewrite !(slot_of_layout LEVELS) in Heq by done.
  pose proof Hok as [HL Hlen Hsteps Hsz Htotal Hidx Hbound].
  apply (layout_slot_inj (levelSteps f)); try done; lia.
Qed.

Lemma goToChunk_injective_witness :
  finder_ok 2 finder44 = true /\ 0 <= 4 < chunks_at finder44 0
  /\ 0 <= 0 < chunks_at finder44 1
  /\ (currIndex (goToChunk 2 0 4 finder44) = currIndex (goToChunk 2 1 0 finder44) ->
      0%nat = 1%nat /\ 4 = 0).
Proof.
  split; [reflexivity|]. split; [vm_compute; split; [discriminate | reflexivity]|].
  split; [vm_compute; split; [discriminate | reflexivity]|].
  exact (goToChunk_injective 2 finder44 0 1 4 0 eq_refl ltac:(lia) ltac:(lia)
           ltac:(vm_compute; split; [discriminate | reflexivity])
           ltac:(vm_compute; split; [discriminate | reflexivity])).
Defined.

(** X5. On a valid, initialised indexer every slot of the ring,
    [0 <= p < totalChunkCount], is the slot of a chunk: there are a level
    and an index below the number of chunks of that level for which
    [goToChunk] gives [currIndex = p]. *)
Theorem goToChunk_covers_ring (LEVELS : nat) (f : mipmapChunkFinder) (p : Z) :
  finder_ok LEVELS f = true ->
  0 <= p < totalChunkCount f ->
  exists (level : nat) (n : Z),
    (level < LEVELS)%nat /\ 0 <= n < chunks_at f level
    /\ currIndex (goToChunk LEVELS level n f) = p.
Proof.
  intros Hok Hp. apply finder_ok_wf in Hok.
  pose proof Hok as [HL Hlen Hsteps Hsz Htotal Hidx Hbound].
  rewrite Htotal in Hp. unfold exact_total in Hp.
  destruct (layout_slot_surj (levelSteps f) Hsteps p Hp) as (l & n & Hl & Hn & Hslot).
  exists l, n. rewrite Hlen in Hl. split; [done|]. split; [done|].
  rewrite (goToChunk_slot LEVELS), (slot_of_layout LEVELS) by done. exact Hslot.
Qed.

Lemma goToChunk_covers_ring_witness :
  finder_ok 2 finder44 = true /\ 0 <= 9 < totalChunkCount finder44
  /\ exists (level : nat) (n : Z),
       (level < 2)%nat /\ 0 <= n < chunks_at finder44 level
       /\ currIndex (goToChunk 2 level n finder44) = 9.
Proof.
  split; [reflexivity|]. split; [vm_compute; split; [discriminate | reflexivity]|].
  exact (goToChunk_covers_ring 2 finder44 9 eq_refl
           ltac:(vm_compute; split; [discriminate | reflexivity])).
Defined.

(** X6. After [init] on a valid configuration, [totalChunkCount] is the
    number of nodes of the whole tree: the sum, over the levels, of the
    product of the branch factors from that level upward (for [[4, 4]]:
    16 nodes at level 0 and 4 at level 1, 20 in all). *)
Theorem init_total_is_node_count (LEVELS : nat) (f : mipmapChunkFinder) :
  steps_ok LEVELS (levelSteps f) = true ->
  length (levelSizes f) = LEVELS ->
  length (levelIndex f) = LEVELS ->
  totalChunkCount (init LEVELS f)
  = foldr Z.add 0
      (map (fun level => node_count (drop level (levelSteps f))) (seq 0 LEVELS)).
Proof.
  intros Hok Hsizes Hidx.
  pose proof (init_wf LEVELS f Hok Hsizes Hidx) as Hwf.
  destruct Hwf as [HL Hlen Hsteps Hsz Htotal _ _].
  pose proof (steps_ok_elim LEVELS _ Hok) as (_ & Hlen0 & _).
  assert (Hst : levelSteps (init LEVELS f) = levelSteps f)
    by (by rewrite init_computes).
  rewrite Htotal, Hst. unfold exact_total.
  rewrite top_from_nodes, nodes_total_sum, Hlen0. lia.
Qed.

Lemma init_total_is_node_count_witness :
  totalChunkCount (init 2 (new_finder 2 [4; 4])) = 16 + 4.
Proof.
  exact (init_total_is_node_count 2 (new_finder 2 [4; 4]) eq_refl eq_refl eq_refl).
Defined.

(** X7. On a valid, initialised indexer a node is stored right after the
    subtrees of its children: child [d] of the [m]-th node of level
    [level + 1] is the chunk [levelSteps[level] * m + d] of [level], and its
    slot lies [levelSizes[level] * (levelSteps[level] - 1 - d) + 1] slots
    before the slot of the node; the last child is the slot just before. *)
Theorem children_before_parent (LEVELS : nat) (f : mipmapChunkFinder)
    (level : nat) (m d : Z) :
  finder_ok LEVELS f = true ->
  (S level < LEVELS)%nat ->
  0 <= m < chunks_at f (S level) ->
  0 <= d < at_ (levelSteps f) level ->
  0 <= at_ (levelSteps f) level * m + d < chunks_at f level
  /\ currIndex (goToChunk LEVELS level (at_ (levelSteps f) level * m + d) f)
     = currIndex (goToChunk LEVELS (S level) m f) - 1
       - at_ (levelSizes f) level * (at_ (levelSteps f) level - 1 - d).
Proof.
  intros Hok Hlevel Hm Hd. apply finder_ok_wf in Hok.
  pose proof Hok as [HL Hlen Hsteps Hsz Htotal Hidx Hbound].
  destruct (wf_level_facts LEVELS f (S level) Hok Hlevel)
    as [_ _ _ _ _ _ Hbelow].
  specialize (Hbelow ltac:(lia)). replace (S level - 1)%nat with level in Hbelow by lia.
  destruct (lookup_lt_is_Some_2 (levelSteps f) level) as [b Hb]; [lia|].
  rewrite (at_lookup _ _ _ Hb) in *.
  assert (Hc : chunks_at f level = b * chunks_at f (S level)).
  { unfold chunks_at. by rewrite (drop_S _ _ _ Hb). }
  assert (Hrange : 0 <= b * m + d < chunks_at f level) by (rewrite Hc; nia).
  split; [done|].
  rewrite !(goToChunk_slot LEVELS) by (try done; lia).
  unfold slot_of. rewrite (drop_S _ _ _ Hb). cbn [ancestors_before].
  replace ((b * m + d) / b) with m by (apply (Z.div_unique_pos _ _ _ d); lia).
  set (w := at_ (levelSizes f) level) in *.
  set (w' := at_ (levelSizes f) (S level)) in *.
  set (A := ancestors_before (drop (S level) (levelSteps f)) m).
  nia.
Qed.

Lemma children_before_parent_witness :
  finder_ok 2 finder44 = true
  /\ currIndex (goToChunk 2 0 (at_ (levelSteps finder44) 0 * 2 + 3) finder44)
     = currIndex (goToChunk 2 1 2 finder44) - 1
       - at_ (levelSizes finder44) 0 * (at_ (levelSteps finder44) 0 - 1 - 3).
Proof.
  split; [reflexivity|].
  exact (proj2 (children_before_parent 2 finder44 0 2 3 eq_refl ltac:(lia)
                  ltac:(vm_compute; split; [discriminate | reflexivity])
                  ltac:(vm_compute; split; [discriminate | reflexivity]))).
Defined.

(** X8. On a valid, initialised indexer the chunks of a level are stored
    in increasing order, their subtrees side by side: a later chunk of the
    level lies at least [levelSizes[level]] slots per step after an earlier
    one. *)
Theorem chunks_of_level_apart (LEVELS : nat) (f : mipmapChunkFinder)
    (level : nat) (n1 n2 : Z) :
  finder_ok LEVELS f = true ->
  (level < LEVELS)%nat ->
  0 <= n1 -> n1 < n2 -> n2 < chunks_at f level ->
  currIndex (goToChunk LEVELS level n1 f)
  + at_ (levelSizes f) level * (n2 - n1)
  <= currIndex (goToChunk LEVELS level n2 f).
Proof.
  intros Hok Hlevel H1 H12 H2. apply finder_ok_wf in Hok.
  rewrite !(goToChunk_slot LEVELS) by (try done; lia).
  destruct (wf_level_facts LEVELS f level Hok Hlevel)
    as [Hsizes Htop Hw Hfits HB HlenB Hbelow].
  unfold slot_of.
  pose proof (ancestors_before_mono _ n1 n2 HB ltac:(lia)). lia.
Qed.

Lemma chunks_of_level_apart_witness :
  finder_ok 2 finder44 = true
  /\ currIndex (goToChunk 2 1 1 finder44) + at_ (levelSizes finder44) 1 * (3 - 1)
     <= currIndex (goToChunk 2 1 3 finder44).
Proof.
  split; [reflexivity|].
  exact (chunks_of_level_apart 2 finder44 1 1 3 eq_refl ltac:(lia) ltac:(lia)
           ltac:(lia) ltac:(vm_compute; reflexivity)).
Defined.

(** ** More on [requestView] *)

Section RequestViewAnswers.

Variable LEVELS : nat.

(** An answer at a stored level is the request snapped to that level. *)
Lemma requestView_stored rd requested v i :
  reader_ok LEVELS rd = true ->
  mipmapReader.requestView LEVELS rd requested = Returns (v, i) ->
  0 <= i ->
  request_ok rd requested = true
  /\ (Z.to_nat i < LEVELS)%nat
  /\ v = snapped rd requested (Z.to_nat i)
  /\ endSamples v <= mipmapReader.length rd.
Proof.
  intros Hrd Hres Hi.
  pose proof (requestView_returns_request_ok LEVELS rd requested _ Hres) as Hreq.
  split; [done|].
  rewrite requestView_explicit in Hres by done. cbv zeta in Hres.
  pose proof (scan_levels_spec (mipmapReader.levelCompression rd)
                (Double.div
                   (Double.of_int (endSamples requested - startSamples requested))
                   (Double.of_int (resolution requested))) LEVELS) as Hscan.
  cbv zeta in Hscan.
  set (s := mipmapReader.scan_levels _ _ _) in *.
  pose proof (reader_ok_elim LEVELS rd Hrd) as (HL & _).
  assert (Hi' : (Z.to_nat (if (s <? 0)%Z then 0%Z else s) < LEVELS)%nat).
  { destruct (s <? 0) eqn:Hneg; [lia|].
    apply Z.ltb_ge in Hneg. destruct Hscan as [[? _]|[? _]]; lia. }
  destruct ((s <? 0) && mipmapReader.allowOriginal rd) eqn:Hraw.
  { apply andb_true_iff in Hraw as [Hneg _]. apply Z.ltb_lt in Hneg.
    injection Hres as _ <-. lia. }
  destruct (_ <=? _) eqn:Hend in Hres; [|done].
  apply Z.leb_le in Hend.
  injection Hres as <- <-. rewrite Nat2Z.id. done.
Qed.

(** The shape of a snapped view: whole chunks [a .. e) of the level. *)
Lemma snapped_shape rd requested i :
  let c := at_ (mipmapReader.levelCompression rd) i in
  let cs := mipmapReader.chunkSize rd in
  1 <= c -> 1 <= cs ->
  0 <= startSamples requested < endSamples requested ->
  exists a e,
    0 <= a < e
    /\ startSamples (snapped rd requested i) = a * (c * cs)
    /\ endSamples (snapped rd requested i) = e * (c * cs)
    /\ resolution (snapped rd requested i) = (e - a) * cs.
Proof.
  cbv zeta. intros Hc Hcs Hreq.
  set (c := at_ (mipmapReader.levelCompression rd) i) in *.
  set (cs := mipmapReader.chunkSize rd) in *.
  assert (HR : 1 <= c * cs) by nia.
  exists (startSamples requested / (c * cs)),
         ((endSamples requested + c * cs - 1) / (c * cs)).
  unfold snapped. fold c cs. cbn [startSamples endSamples resolution].
  set (R := c * cs) in *.
  pose proof (Z.div_mod (startSamples requested) R ltac:(lia)).
  pose proof (Z.mod_pos_bound (startSamples requested) R ltac:(lia)).
  pose proof (Z.div_mod (endSamples requested + R - 1) R ltac:(lia)).
  pose proof (Z.mod_pos_bound (endSamples requested + R - 1) R ltac:(lia)).
  pose proof (Z.div_pos (startSamples requested) R ltac:(lia) ltac:(lia)).
  set (a := startSamples requested / R) in *.
  set (e := (endSamples requested + R - 1) / R) in *.
  assert (a < e) by nia.
  repeat split; try lia.
  replace (e * R - a * R) with ((e - a) * cs * c) by (unfold R; lia).
  by rewrite Z.div_mul by lia.
Qed.

(** What holds of a view returned at a stored level. *)
Lemma stored_view_facts (rd : mipmapReader.t)
    (requested returned : mipmapReaderView) (i : Z) :
  reader_ok LEVELS rd = true ->
  mipmapReader.requestView LEVELS rd requested = Returns (returned, i) ->
  0 <= i ->
  let c := at_ (mipmapReader.levelCompression rd) (Z.to_nat i) in
  request_ok rd returned = true
  /\ 0 < resolution returned
  /\ (mipmapReader.chunkSize rd | resolution returned)
  /\ endSamples returned - startSamples returned = resolution returned * c
  /\ compression returned = Returns c.
Proof.
  intros Hrd Hres Hi. cbv zeta.
  destruct (requestView_stored rd requested returned i Hrd Hres Hi)
    as (Hreq & Hlt & -> & Hend).
  pose proof (reader_ok_elim LEVELS rd Hrd) as (HL & Hlen & Hcs & Hlc).
  destruct (Hlc _ Hlt) as [Hc Hb].
  pose proof (request_ok_elim rd requested Hreq) as (Hs & Hse & He).
  destruct (snapped_shape rd requested (Z.to_nat i) Hc Hcs ltac:(lia))
    as (a & e & Hae & E1 & E2 & E3).
  set (c := at_ (mipmapReader.levelCompression rd) (Z.to_nat i)) in *.
  set (cs := mipmapReader.chunkSize rd) in *.
  set (v := snapped rd requested (Z.to_nat i)) in *.
  assert (Hspan : endSamples v - startSamples v = resolution v * c)
    by (rewrite E1, E2, E3; lia).
  assert (Hres0 : 0 < resolution v) by (rewrite E3; nia).
  split; [|split; [done|split; [|split; [done|]]]].
  - unfold request_ok. rewrite E1 in *. rewrite E2 in *.
    apply andb_true_iff. split; [apply andb_true_iff; split|].
    + apply Z.leb_le. nia.
    + apply Z.ltb_lt. nia.
    + apply Z.leb_le. lia.
  - exists (e - a). rewrite E3. done.
  - unfold compression. rewrite idiv_pos_divisor by lia.
    f_equal. unfold Int32.div, Int32.sub.
    assert (0 <= startSamples v) by (rewrite E1; nia).
    assert (1 <= c * cs) by nia.
    assert (startSamples v < endSamples v) by (rewrite E1, E2; nia).
    rewrite (wrap_id (endSamples v - startSamples v)) by in_int_range.
    rewrite Hspan, Z.quot_div_nonneg by nia.
    rewrite Z.mul_comm, Z.div_mul by lia.
    apply wrap_id. in_int_range.
Qed.

(** What holds of an answer with the original data. *)
Lemma raw_view_facts (rd : mipmapReader.t)
    (requested returned : mipmapReaderView) (i : Z) :
  reader_ok LEVELS rd = true ->
  mipmapReader.requestView LEVELS rd requested = Returns (returned, i) ->
  i < 0 ->
  request_ok rd requested = true
  /\ i = -1
  /\ returned = View (startSamples requested) (endSamples requested)
                     (endSamples requested - startSamples requested)
  /\ compression returned = Returns 1.
Proof.
  intros Hrd Hres Hi.
  pose proof (requestView_returns_request_ok LEVELS rd requested _ Hres) as Hreq.
  split; [done|].
  rewrite requestView_explicit in Hres by done. cbv zeta in Hres.
  pose proof (scan_levels_spec (mipmapReader.levelCompression rd)
                (Double.div
                   (Double.of_int (endSamples requested - startSamples requested))
                   (Double.of_int (resolution requested))) LEVELS) as Hscan.
  cbv zeta in Hscan.
  set (s := mipmapReader.scan_levels _ _ _) in *.
  pose proof (reader_ok_elim LEVELS rd Hrd) as (HL & Hlen & Hcs & Hlc).
  destruct (Hlc 0%nat ltac:(lia)) as [Hc Hb].
  pose proof (request_ok_elim rd requested Hreq) as (Hs & Hse & He).
  destruct ((s <? 0) && mipmapReader.allowOriginal rd) eqn:Hraw.
  - injection Hres as <- <-.
    split; [destruct Hscan as [[? _]|[? _]]; lia|]. split; [done|].
    unfold compression. cbn [startSamples endSamples resolution].
    rewrite idiv_pos_divisor by lia.
    f_equal. unfold Int32.div, Int32.sub.
    assert (1 <= at_ (mipmapReader.levelCompression rd) 0
                 * mipmapReader.chunkSize rd) by nia.
    rewrite (wrap_id (endSamples requested - startSamples requested))
      by in_int_range.
    rewrite Z.quot_same by lia. apply wrap_id. in_int_range.
  - destruct (_ <=? _) in Hres; [|done].
    injection Hres as _ <-. lia.
Qed.

(** A view made of whole chunks of a level is its own snapping. *)
Lemma snapped_fixed rd v j a e :
  let c := at_ (mipmapReader.levelCompression rd) j in
  let cs := mipmapReader.chunkSize rd in
  1 <= c -> 1 <= cs ->
  startSamples v = a * (c * cs) ->
  endSamples v = e * (c * cs) ->
  resolution v = (e - a) * cs ->
  snapped rd v j = v.
Proof.
  cbv zeta. intros Hc Hcs E1 E2 E3.
  destruct v as [s0 e0 r0]. cbn [startSamples endSamples resolution] in *.
  subst s0 e0 r0. unfold snapped. cbn [startSamples endSamples resolution].
  set (c := at_ (mipmapReader.levelCompression rd) j) in *.
  set (cs := mipmapReader.chunkSize rd) in *.
  assert (HR : 1 <= c * cs) by nia.
  set (R := c * cs) in *.
  rewrite Z.div_mul by lia.
  replace (e * R + R - 1) with (e * R + (R - 1)) by lia.
  rewrite Z.div_add_l, (Z.div_small (R - 1)), Z.add_0_r by lia.
  f_equal.
  replace (e * R - a * R) with ((e - a) * cs * c) by (unfold R; lia).
  by rewrite Z.div_mul by lia.
Qed.

Lemma requestView_reported rd requested v i :
  reader_ok LEVELS rd = true ->
  mipmapReader.requestView LEVELS rd requested = Returns (v, i) ->
  i = reported rd
        (mipmapReader.scan_levels LEVELS (mipmapReader.levelCompression rd)
           (Double.div
              (Double.of_int (endSamples requested - startSamples requested))
              (Double.of_int (resolution requested)))).
Proof.
  intros Hrd Hres.
  pose proof (requestView_returns_request_ok LEVELS rd requested _ Hres) as Hreq.
  rewrite requestView_explicit in Hres by done. cbv zeta in Hres.
  unfold reported.
  destruct (_ && _).
  - by injection Hres as _ <-.
  - destruct (_ <=? _) in Hres; [|done]. by injection Hres as _ <-.
Qed.

Lemma reported_mono rd s1 s2 :
  -1 <= s2 <= s1 -> reported rd s2 <= reported rd s1.
Proof.
  unfold reported. intros H.
  destruct (s1 <? 0) eqn:H1, (s2 <? 0) eqn:H2,
    (mipmapReader.allowOriginal rd); cbn [andb];
    try apply Z.ltb_lt in H1; try apply Z.ltb_lt in H2;
    try apply Z.ltb_ge in H1; try apply Z.ltb_ge in H2; lia.
Qed.

(** With a resolution of zero the quotient is [+inf]: the search stops at
    once, at the coarsest level. *)
Lemma scan_levels_zero_resolution lc a n :
  0 < a ->
  mipmapReader.scan_levels (S n) lc
    (Double.div (Double.of_int a) (Double.of_int 0)) = Z.of_nat n.
Proof.
  intros Ha. cbn [mipmapReader.scan_levels].
  unfold Double.div, Double.of_int. cbn [Z.eqb].
  destruct (a =? 0) eqn:Hz; [apply Z.eqb_eq in Hz; lia|].
  destruct (a <? 0) eqn:Hn; [apply Z.ltb_lt in Hn; lia|].
  reflexivity.
Qed.


End RequestViewAnswers.

(** X9. A view that [requestView] returns at a stored level is again a
    valid request, made of whole chunks of the level: its resolution is a
    positive multiple of [chunkSize], its span is the resolution times the
    compression of the level, and [mipmapReaderView::compression] gives
    exactly that compression. *)
Theorem requestView_returns_aligned_view (LEVELS : nat) (rd : mipmapReader.t)
    (requested returned : mipmapReaderView) (i : Z) :
  reader_ok LEVELS rd = true ->
  mipmapReader.requestView LEVELS rd requested = Returns (returned, i) ->
  0 <= i ->
  let c := at_ (mipmapReader.levelCompression rd) (Z.to_nat i) in
  request_ok rd returned = true
  /\ 0 < resolution returned
  /\ (mipmapReader.chunkSize rd | resolution returned)
  /\ endSamples returned - startSamples returned = resolution returned * c
  /\ compression returned = Returns c.
Proof. apply stored_view_facts. Qed.

Lemma requestView_returns_aligned_view_witness :
  reader_ok 2 (reader44 1000) = true
  /\ mipmapReader.requestView 2 (reader44 1000) (View 300 500 10)
     = Returns (View 256 512 16, 1)
  /\ compression (View 256 512 16) = Returns 16.
Proof.
  split; [reflexivity|]. split; [reflexivity|].
  exact (proj2 (proj2 (proj2 (proj2
           (requestView_returns_aligned_view 2 (reader44 1000) (View 300 500 10)
              (View 256 512 16) 1 eq_refl eq_refl ltac:(lia)))))).
Defined.

(** X10. What [requestView] returns can be handed to the extraction: for
    a view returned at a stored level, neither [read] nor [readSpectrum]
    throws the logic error; for the original data (level [-1]) the view
    has compression 1, and both throw when no level has compression 1. *)
Theorem requestView_result_is_readable (LEVELS : nat) (CHANNELS : Z)
    {E : mipmapReader.External} (rd : mipmapReader.t)
    (requested returned : mipmapReaderView) (i : Z)
    (fuel : nat) (dst : gmap Z Z) (yLower yUpper : mipmapReader.real) :
  reader_ok LEVELS rd = true ->
  mipmapReader.requestView LEVELS rd requested = Returns (returned, i) ->
  let thrown := LogicError "no mipmap level for this resolution" in
  (0 <= i ->
     mipmapReader.read LEVELS CHANNELS fuel rd returned dst yLower yUpper <> thrown
     /\ mipmapReader.readSpectrum LEVELS CHANNELS fuel rd returned dst yLower yUpper
        <> thrown)
  /\ (i < 0 ->
      compression returned = Returns 1
      /\ ((forall j, (j < LEVELS)%nat ->
             at_ (mipmapReader.levelCompression rd) j <> 1) ->
          mipmapReader.read LEVELS CHANNELS fuel rd returned dst yLower yUpper = thrown
          /\ mipmapReader.readSpectrum LEVELS CHANNELS fuel rd returned dst
               yLower yUpper = thrown)).
Proof.
  intros Hrd Hres. cbv zeta. split.
  - intros Hi.
    destruct (stored_view_facts LEVELS rd requested returned i Hrd Hres Hi)
      as (_ & _ & _ & _ & Hc).
    destruct (requestView_stored LEVELS rd requested returned i Hrd Hres Hi)
      as (_ & Hlt & _).
    split; intros Hthrow.
    + apply (read_throws LEVELS CHANNELS _ _ _ _ _ _ _ Hc) in Hthrow.
      by apply (proj1 (find_level_none _ _ _) Hthrow _ Hlt).
    + apply (readSpectrum_throws LEVELS CHANNELS _ _ _ _ _ _ _ Hc) in Hthrow.
      by apply (proj1 (find_level_none _ _ _) Hthrow _ Hlt).
  - intros Hi.
    destruct (raw_view_facts LEVELS rd requested returned i Hrd Hres Hi)
      as (_ & _ & _ & Hc).
    split; [done|]. intros Hnone. split.
    + apply (read_throws LEVELS CHANNELS _ _ _ _ _ _ _ Hc).
      by apply find_level_none.
    + apply (readSpectrum_throws LEVELS CHANNELS _ _ _ _ _ _ _ Hc).
      by apply find_level_none.
Qed.

Lemma requestView_result_is_readable_witness :
  reader_ok 2 (reader44 1000) = true
  /\ mipmapReader.requestView 2 (reader44 1000) (View 300 500 10)
     = Returns (View 256 512 16, 1)
  /\ mipmapReader.read 2 1 (E := integer_external) 40 (reader44 1000)
       (View 256 512 16) ∅ (-100) 100
     <> LogicError "no mipmap level for this resolution".
Proof.
  split; [reflexivity|]. split; [reflexivity|].
  exact (proj1 (proj1 (requestView_result_is_readable 2 1 (E := integer_external)
                  (reader44 1000) (View 300 500 10) (View 256 512 16) 1
                  40 ∅ (-100) 100 eq_refl eq_refl) ltac:(lia))).
Defined.

(** X11. [requestView] is idempotent on its answers: when the
    compressions of the levels do not decrease with the level, asking
    again with a view returned at a stored level returns the same view,
    at a level of the same compression. *)
Theorem requestView_idempotent (LEVELS : nat) (rd : mipmapReader.t)
    (requested returned : mipmapReaderView) (i : Z) :
  reader_ok LEVELS rd = true ->
  compression_sorted rd ->
  mipmapReader.requestView LEVELS rd requested = Returns (returned, i) ->
  0 <= i ->
  exists j,
    mipmapReader.requestView LEVELS rd returned = Returns (returned, j)
    /\ i <= j
    /\ at_ (mipmapReader.levelCompression rd) (Z.to_nat j)
       = at_ (mipmapReader.levelCompression rd) (Z.to_nat i).
Proof.
  intros Hrd Hsorted Hres Hi.
  destruct (stored_view_facts LEVELS rd requested returned i Hrd Hres Hi)
    as (Hok & Hpos & _ & Hspan & _).
  destruct (requestView_stored LEVELS rd requested returned i Hrd Hres Hi)
    as (Hreq & Hlt & Hv & Hend).
  pose proof (reader_ok_elim LEVELS rd Hrd) as (HL & Hlen & Hcs & Hlc).
  destruct (Hlc _ Hlt) as [Hc _].
  pose proof (request_ok_elim rd requested Hreq) as (Hs & Hse & He).
  destruct (snapped_shape rd requested (Z.to_nat i) Hc Hcs ltac:(lia))
    as (a & e & Hae & E1 & E2 & E3).
  rewrite <- Hv in E1, E2, E3.
  assert (Hq : qualifies returned (at_ (mipmapReader.levelCompression rd) (Z.to_nat i))).
  { unfold qualifies. apply Qratio_pos; [done|]. rewrite Hspan. lia. }
  pose proof (scan_levels_choice LEVELS rd returned Hrd Hok ltac:(lia)) as Hscan.
  cbv zeta in Hscan.
  rewrite requestView_explicit by done. cbv zeta.
  set (s := mipmapReader.scan_levels _ _ _) in *.
  destruct Hscan as [[_ Hnone]|[Hs0 (Hj & Hqj & Hmax)]].
  { exfalso. by apply (Hnone _ Hlt). }
  assert (Hij : (Z.to_nat i <= Z.to_nat s)%nat).
  { destruct (le_lt_dec (Z.to_nat i) (Z.to_nat s)) as [|Hgt]; [done|].
    exfalso. apply (Hmax (Z.to_nat i)); [lia|done]. }
  assert (Heq : at_ (mipmapReader.levelCompression rd) (Z.to_nat s)
                = at_ (mipmapReader.levelCompression rd) (Z.to_nat i)).
  { apply Z.le_antisymm.
    - pose proof (proj1 (Qratio_pos _ _ _ Hpos) Hqj) as Hle.
      rewrite Hspan in Hle.
      apply (Z.mul_le_mono_pos_r _ _ (resolution returned)); lia.
    - apply Hsorted. lia. }
  destruct (s <? 0) eqn:Hneg; [apply Z.ltb_lt in Hneg; lia|].
  cbn [andb].
  assert (Hfix : snapped rd returned (Z.to_nat s) = returned).
  { apply (snapped_fixed rd returned (Z.to_nat s) a e); rewrite ?Heq; done. }
  rewrite Hfix.
  pose proof (request_ok_elim rd returned Hok) as (_ & _ & He').
  destruct (Z.leb_spec (endSamples returned) (mipmapReader.length rd)); [|lia].
  exists (Z.of_nat (Z.to_nat s)). rewrite Nat2Z.id. split; [done|]. split; [lia|done].
Qed.

Lemma requestView_idempotent_witness :
  mipmapReader.requestView 2 (reader44 1000) (View 300 500 10)
    = Returns (View 256 512 16, 1)
  /\ exists j,
       mipmapReader.requestView 2 (reader44 1000) (View 256 512 16)
         = Returns (View 256 512 16, j)
       /\ 1 <= j
       /\ at_ (mipmapReader.levelCompression (reader44 1000)) (Z.to_nat j)
          = at_ (mipmapReader.levelCompression (reader44 1000)) (Z.to_nat 1).
Proof.
  split; [reflexivity|].
  apply (requestView_idempotent 2 (reader44 1000) (View 300 500 10)
           (View 256 512 16) 1); [reflexivity| |reflexivity|lia].
  intros i j Hij. vm_compute in Hij.
  destruct i as [|[|i]], j as [|[|j]]; vm_compute; intros; try discriminate; lia.
Defined.

(** X12. Asking for more points never gives a coarser level: of two
    requests over the same samples, the one with the larger (positive)
    resolution is answered at a level that is at most the other's. *)
Theorem requestView_level_antitone (LEVELS : nat) (rd : mipmapReader.t)
    (r1 r2 v1 v2 : mipmapReaderView) (i1 i2 : Z) :
  reader_ok LEVELS rd = true ->
  startSamples r1 = startSamples r2 ->
  endSamples r1 = endSamples r2 ->
  0 < resolution r1 <= resolution r2 ->
  mipmapReader.requestView LEVELS rd r1 = Returns (v1, i1) ->
  mipmapReader.requestView LEVELS rd r2 = Returns (v2, i2) ->
  i2 <= i1.
Proof.
  intros Hrd Hstart Hend Hres H1 H2.
  pose proof (requestView_returns_request_ok LEVELS rd r1 _ H1) as Hreq1.
  pose proof (requestView_returns_request_ok LEVELS rd r2 _ H2) as Hreq2.
  rewrite (requestView_reported LEVELS rd r1 v1 i1 Hrd H1).
  rewrite (requestView_reported LEVELS rd r2 v2 i2 Hrd H2).
  pose proof (scan_levels_choice LEVELS rd r1 Hrd Hreq1 ltac:(lia)) as Hs1.
  pose proof (scan_levels_choice LEVELS rd r2 Hrd Hreq2 ltac:(lia)) as Hs2.
  cbv zeta in Hs1, Hs2.
  apply reported_mono.
  set (s1 := mipmapReader.scan_levels LEVELS (mipmapReader.levelCompression rd)
               (Double.div (Double.of_int (endSamples r1 - startSamples r1))
                           (Double.of_int (resolution r1)))) in *.
  set (s2 := mipmapReader.scan_levels LEVELS (mipmapReader.levelCompression rd)
               (Double.div (Double.of_int (endSamples r2 - startSamples r2))
                           (Double.of_int (resolution r2)))) in *.
  clearbody s1 s2.
  pose proof (reader_ok_elim LEVELS rd Hrd) as (HL & Hlen & Hcs & Hlc).
  destruct Hs2 as [[-> _]|[Hs2 (Hj2 & Hq2 & _)]].
  { destruct Hs1 as [[-> _]|[? _]]; lia. }
  assert (Hq1 : qualifies r1 (at_ (mipmapReader.levelCompression rd) (Z.to_nat s2))).
  { unfold qualifies in *. apply Qratio_pos; [lia|].
    pose proof (proj1 (Qratio_pos _ _ (resolution r2) ltac:(lia)) Hq2) as Hle.
    destruct (Hlc _ Hj2) as [Hc _].
    replace (endSamples r1 - startSamples r1)
      with (endSamples r2 - startSamples r2) by lia.
    etrans; [|exact Hle]. apply Z.mul_le_mono_nonneg_l; lia. }
  destruct Hs1 as [[_ Hnone]|[Hs1 (Hj1 & _ & Hmax)]].
  { exfalso. by apply (Hnone _ Hj2). }
  split; [lia|].
  destruct (Z_le_gt_dec s2 s1) as [|Hgt]; [done|].
  exfalso. apply (Hmax (Z.to_nat s2)); [lia|done].
Qed.

Lemma requestView_level_antitone_witness :
  mipmapReader.requestView 2 (reader44 1000) (View 300 500 10)
    = Returns (View 256 512 16, 1)
  /\ mipmapReader.requestView 2 (reader44 1000) (View 300 500 40)
     = Returns (View 256 512 64, 0)
  /\ 0 <= 1.
Proof.
  split; [reflexivity|]. split; [reflexivity|].
  apply (requestView_level_antitone 2 (reader44 1000) (View 300 500 10)
           (View 300 500 40) (View 256 512 16) (View 256 512 64) 1 0);
    [reflexivity|reflexivity|reflexivity|simpl; lia|reflexivity|reflexivity].
Defined.

(** X13. [requestView] does not reject a resolution that is not positive.
    With a resolution of zero the quotient is [+inf] and the coarsest
    level is taken; with a negative resolution no level is at least as
    detailed, so the original data are returned when [allowOriginal] is
    set, and level 0 otherwise. *)
Theorem requestView_nonpositive_resolution (LEVELS : nat) (rd : mipmapReader.t)
    (requested : mipmapReaderView) :
  reader_ok LEVELS rd = true ->
  request_ok rd requested = true ->
  let at_level (i : nat) :=
    if endSamples (snapped rd requested i) <=? mipmapReader.length rd
    then Returns (snapped rd requested i, Z.of_nat i)
    else AssertionFailed in
  (resolution requested = 0 ->
   mipmapReader.requestView LEVELS rd requested = at_level (LEVELS - 1)%nat)
  /\ (resolution requested < 0 ->
      mipmapReader.requestView LEVELS rd requested =
        if mipmapReader.allowOriginal rd
        then Returns (View (startSamples requested) (endSamples requested)
                           (endSamples requested - startSamples requested), -1)
        else at_level 0%nat).
Proof.
  intros Hrd Hreq. cbv zeta.
  pose proof (reader_ok_elim LEVELS rd Hrd) as (HL & Hlen & Hcs & Hlc).
  pose proof (request_ok_elim rd requested Hreq) as (Hs & Hse & He).
  rewrite requestView_explicit by done. cbv zeta.
  split; intros Hres.
  - rewrite Hres.
    destruct LEVELS as [|n]; [lia|].
    rewrite scan_levels_zero_resolution by lia.
    destruct (Z.of_nat n <? 0) eqn:Hneg; [apply Z.ltb_lt in Hneg; lia|].
    cbn [andb]. rewrite Nat2Z.id.
    replace (S n - 1)%nat with n by lia. done.
  - pose proof (scan_levels_choice LEVELS rd requested Hrd Hreq ltac:(lia)) as Hscan.
    cbv zeta in Hscan.
    set (s := mipmapReader.scan_levels _ _ _) in *.
    destruct Hscan as [[-> _]|[_ (Hj & Hq & _)]].
    + cbn [Z.ltb Z.compare andb Z.to_nat].
      destruct (mipmapReader.allowOriginal rd); done.
    + exfalso. pose proof (proj1 (Qratio_neg _ _ _ Hres) Hq) as Hle.
      destruct (Hlc _ Hj) as [Hc _]. nia.
Qed.

Lemma requestView_nonpositive_resolution_witness :
  reader_ok 2 (reader44 1000) = true
  /\ request_ok (reader44 1000) (View 300 500 0) = true
  /\ mipmapReader.requestView 2 (reader44 1000) (View 300 500 0)
     = Returns (View 256 512 16, 1).
Proof.
  split; [reflexivity|]. split; [reflexivity|].
  exact (proj1 (requestView_nonpositive_resolution 2 (reader44 1000)
                  (View 300 500 0) eq_refl eq_refl) eq_refl).
Defined.

(** ** The chunk loops of [read] and [readSpectrum] *)

Lemma chunks_read_bounds R ce :
  1 <= ce ->
  1 <= chunks_read R ce
  /\ ((chunks_read R ce - 1) * ce < R \/ chunks_read R ce = 1)
  /\ R <= chunks_read R ce * ce.
Proof.
  intros Hce. unfold chunks_read.
  destruct (Z.leb_spec R ce) as [Hle|Hgt]; [lia|].
  pose proof (Z.div_mod (R + ce - 1) ce ltac:(lia)) as Hdm.
  pose proof (Z.mod_pos_bound (R + ce - 1) ce ltac:(lia)) as Hmod.
  set (q := (R + ce - 1) / ce) in *.
  assert (Hq : 1 <= q) by nia.
  split; [done|]. split; [left|]; nia.
Qed.

(** The chunks cover the destination exactly when the number of elements
    asked for is a positive multiple of the chunk. *)
Lemma chunks_read_exact R ce :
  1 <= ce ->
  chunks_read R ce * ce = R <-> 0 < R /\ (ce | R).
Proof.
  intros Hce. pose proof (chunks_read_bounds R ce Hce) as (H1 & H2 & H3).
  split.
  - intros Heq. split; [nia|]. exists (chunks_read R ce). lia.
  - intros [Hpos [t Ht]]. unfold chunks_read.
    destruct (Z.leb_spec R ce) as [Hle|Hgt].
    + assert (t = 1) by nia. lia.
    + subst R. replace (t * ce + ce - 1) with (ce - 1 + t * ce) by lia.
      rewrite Z.div_add, Z.div_small by lia. lia.
Qed.

Section ChunkLoop.

Variable LEVELS : nat.
Variables ce R : Z.
Variable inner : mipmapChunkFinder -> Z -> gmap Z Z -> gmap Z Z.
Variable val : mipmapChunkFinder -> Z -> Z.
Variable loop :
  nat -> mipmapChunkFinder -> Z -> gmap Z Z -> outcome (gmap Z Z * mipmapChunkFinder).

Hypothesis loop_S : forall n f o d,
  loop (S n) f o d =
    if R <=? Int32.add o ce then Returns (inner f o d, f)
    else loop n (advanceChunk LEVELS f) (Int32.add o ce) (inner f o d).
Hypothesis Hce : 1 <= ce.
Hypothesis Hmax : 2 * (Z.max R 0 + ce) + 1 <= Int32.max_int.
Hypothesis inner_spec : forall f o d k,
  0 <= o <= Z.max R 0 ->
  inner f o d !! k =
    if decide (2 * o <= k < 2 * (o + ce)) then Some (val f (k - 2 * o))
    else d !! k.

(** A loop of this shape that starts at [o] and visits [m] chunks. *)
Lemma chunk_loop_spec (m : nat) : forall fuel f o d,
  0 <= o <= Z.max R 0 ->
  (o + Z.of_nat m * ce < R \/ m = 0%nat) ->
  R <= o + (Z.of_nat m + 1) * ce ->
  (m < fuel)%nat ->
  exists d',
    loop fuel f o d = Returns (d', Nat.iter m (advanceChunk LEVELS) f)
    /\ forall k,
         d' !! k =
           if decide (2 * o <= k < 2 * (o + (Z.of_nat m + 1) * ce))
           then Some (val (Nat.iter (Z.to_nat ((k - 2 * o) / (2 * ce)))
                             (advanceChunk LEVELS) f)
                          ((k - 2 * o) mod (2 * ce)))
           else d !! k.
Proof.
  induction m as [|m IH]; intros fuel f o d Ho Hlow Hup Hfuel;
    (destruct fuel as [|fuel]; [lia|]); rewrite loop_S;
    unfold Int32.add; rewrite max_int_val in Hmax;
    rewrite (wrap_id (o + ce)) by in_int_range.
  - destruct (Z.leb_spec R (o + ce)) as [_|Hlt]; [|lia].
    eexists. split; [reflexivity|]. intros k.
    rewrite inner_spec by done.
    repeat case_decide; try lia; [|done].
    rewrite Z.div_small, Z.mod_small by lia. done.
  - destruct (Z.leb_spec R (o + ce)) as [Hle|Hlt]; [nia|].
    destruct (IH fuel (advanceChunk LEVELS f) (o + ce) (inner f o d))
      as (d' & Hrun & Hvals); [lia| |lia|lia|].
    { destruct m; [by right|left]. lia. }
    exists d'. split.
    { rewrite Hrun. by rewrite Nat.iter_succ_r. }
    intros k. rewrite Hvals, inner_spec by done.
    repeat case_decide; try lia; try done.
    + replace (k - 2 * o) with (k - 2 * (o + ce) + 1 * (2 * ce)) by lia.
      rewrite Z.div_add, Z_mod_plus_full by lia.
      assert (0 <= (k - 2 * (o + ce)) / (2 * ce)) by (apply Z.div_pos; lia).
      rewrite Z2Nat.inj_add by lia. rewrite Nat.add_comm.
      change (Z.to_nat 1) with 1%nat. cbn [Nat.add].
      by rewrite Nat.iter_succ_r.
    + rewrite Z.div_small, Z.mod_small by lia. done.
Qed.

(** The whole loop, from [dstOffs = 0]. *)
Lemma chunk_loop_from_zero fuel f d :
  chunks_read R ce <= Z.of_nat fuel ->
  exists d',
    loop fuel f 0 d
      = Returns (d', Nat.iter (Z.to_nat (chunks_read R ce - 1)) (advanceChunk LEVELS) f)
    /\ forall k,
         d' !! k =
           if decide (0 <= k < 2 * (chunks_read R ce * ce))
           then Some (val (Nat.iter (Z.to_nat (k / (2 * ce))) (advanceChunk LEVELS) f)
                          (k mod (2 * ce)))
           else d !! k.
Proof.
  intros Hfuel.
  pose proof (chunks_read_bounds R ce Hce) as (H1 & H2 & H3).
  destruct (chunk_loop_spec (Z.to_nat (chunks_read R ce - 1)) fuel f 0 d)
    as (d' & Hrun & Hvals); rewrite ?Z2Nat.id by lia; [lia| |lia|lia|].
  { destruct H2 as [H2|H2]; [left; lia|right; lia]. }
  exists d'. split; [done|].
  intros k. rewrite Hvals. rewrite Z2Nat.id by lia.
  rewrite Z.mul_0_r, Z.sub_0_r, Z.add_0_l.
  replace (chunks_read R ce - 1 + 1) with (chunks_read R ce) by lia.
  done.
Qed.

End ChunkLoop.

Section ExtractionRuns.

Variable LEVELS : nat.
Variable CHANNELS : Z.
Context {E : mipmapReader.External}.

(** The loop of [read] over the elements of one chunk writes the slots
    [2*(dstOffs+i) .. 2*(dstOffs+i+n) - 1] and nothing else. *)
Lemma read_inner rd yLower yUpper A B offs dstOffs n : forall i dst k,
  0 <= dstOffs ->
  2 * (dstOffs + Z.of_nat i + Z.of_nat n) + 1 <= Int32.max_int ->
  for_loop n i (fun x dst =>
    mipmapReader.read_element rd yLower yUpper A B offs dstOffs (Z.of_nat x) dst)
    dst !! k
  = if decide (2 * (dstOffs + Z.of_nat i) <= k
               < 2 * (dstOffs + Z.of_nat i + Z.of_nat n))
    then Some (slot32_at rd yLower yUpper A B offs (k - 2 * dstOffs))
    else dst !! k.
Proof.
  induction n as [|n IH]; intros i dst k Hd Hmax; simpl.
  - case_decide; [lia | done].
  - rewrite IH by lia.
    unfold mipmapReader.read_element. cbv zeta.
    rewrite max_int_val in Hmax.
    assert (Hadd : Int32.add dstOffs (Z.of_nat i) = dstOffs + Z.of_nat i)
      by (apply wrap_id; in_int_range).
    assert (Hmul : Int32.mul (dstOffs + Z.of_nat i) 2 = (dstOffs + Z.of_nat i) * 2)
      by (apply wrap_id; in_int_range).
    assert (Hadd1 : Int32.add ((dstOffs + Z.of_nat i) * 2) 1
                    = (dstOffs + Z.of_nat i) * 2 + 1)
      by (apply wrap_id; in_int_range).
    rewrite !Hadd, !Hmul, !Hadd1.
    repeat case_decide; try lia.
    + done.
    + unfold slot32_at.
      destruct (decide (k = (dstOffs + Z.of_nat i) * 2 + 1)) as [->|Hk1].
      * rewrite lookup_insert_eq.
        replace ((dstOffs + Z.of_nat i) * 2 + 1 - 2 * dstOffs)
          with (1 + Z.of_nat i * 2) by lia.
        rewrite Z.div_add by lia. change (1 / 2) with 0. rewrite Z.add_0_l.
        replace (Z.even (1 + Z.of_nat i * 2)) with false; [done|].
        symmetry. rewrite <- Z.negb_odd.
        replace (1 + Z.of_nat i * 2) with (1 + 2 * Z.of_nat i) by lia.
        by rewrite Z.odd_add_mul_2.
      * rewrite lookup_insert_ne by done.
        assert (k = (dstOffs + Z.of_nat i) * 2) as -> by lia.
        rewrite lookup_insert_eq.
        replace ((dstOffs + Z.of_nat i) * 2 - 2 * dstOffs)
          with (Z.of_nat i * 2) by lia.
        rewrite Z.div_mul by lia.
        replace (Z.even (Z.of_nat i * 2)) with true; [done|].
        symmetry. replace (Z.of_nat i * 2) with (0 + 2 * Z.of_nat i) by lia.
        by rewrite Z.even_add_mul_2.
    + rewrite !lookup_insert_ne by lia. done.
Qed.

(** The loop of [read]: with fuel for every chunk it returns, the indexer
    has advanced once per chunk after the first, and the destination
    holds the chunks one after the other. *)
Lemma read_chunks_run rd yLower yUpper A B ce R fuel f dst :
  1 <= ce ->
  2 * (Z.max R 0 + ce) + 1 <= Int32.max_int ->
  chunks_read R ce <= Z.of_nat fuel ->
  exists dst',
    mipmapReader.read_chunks LEVELS fuel rd yLower yUpper A B ce R f 0 dst
      = Returns (dst', Nat.iter (Z.to_nat (chunks_read R ce - 1))
                         (advanceChunk LEVELS) f)
    /\ forall k,
         dst' !! k =
           if decide (0 <= k < 2 * (chunks_read R ce * ce))
           then Some (slot32_at rd yLower yUpper A B
                        (Int32.mul (currIndex (Nat.iter (Z.to_nat (k / (2 * ce)))
                                                 (advanceChunk LEVELS) f)) ce)
                        (k mod (2 * ce)))
           else dst !! k.
Proof.
  intros Hce Hmax Hfuel.
  apply (chunk_loop_from_zero LEVELS ce R
           (fun f o d =>
              for_range 0 (Z.to_nat ce) (fun x dst =>
                mipmapReader.read_element rd yLower yUpper A B
                  (Int32.mul (currIndex f) ce) o (Z.of_nat x) dst) d)
           (fun f y => slot32_at rd yLower yUpper A B (Int32.mul (currIndex f) ce) y)
           (fun fuel f o d =>
              mipmapReader.read_chunks LEVELS fuel rd yLower yUpper A B ce R f o d));
    try done.
  intros f0 o d k Ho. unfold for_range. rewrite Nat.sub_0_r.
  rewrite read_inner by lia.
  rewrite Z2Nat.id by lia.
  repeat case_decide; try lia; done.
Qed.

(** The loop of [readSpectrum], in the same way. *)
Lemma spectrum_chunks_run rd yLower yUpper A B R fuel f dst :
  let cs := mipmapReader.chunkSize rd in
  1 <= cs ->
  2 * (Z.max R 0 + cs) + 1 <= Int32.max_int ->
  chunks_read R cs <= Z.of_nat fuel ->
  exists dst',
    mipmapReader.spectrum_chunks LEVELS CHANNELS fuel rd yLower yUpper A B cs R f 0 dst
      = Returns (dst', Nat.iter (Z.to_nat (chunks_read R cs - 1))
                         (advanceChunk LEVELS) f)
    /\ forall k,
         dst' !! k =
           if decide (0 <= k < 2 * (chunks_read R cs * cs))
           then Some (sample_at rd yLower yUpper A B
                        (Int32.mul
                           (Int32.mul
                              (currIndex (Nat.iter (Z.to_nat (k / (2 * cs)))
                                            (advanceChunk LEVELS) f)) CHANNELS) cs)
                        (k mod (2 * cs) / 2))
           else dst !! k.
Proof.
  intros cs Hcs Hmax Hfuel.
  apply (chunk_loop_from_zero LEVELS cs R
           (fun f o d =>
              for_range 0 (Z.to_nat cs) (fun x dst =>
                mipmapReader.spectrum_element rd yLower yUpper A B
                  (Int32.mul (Int32.mul (currIndex f) CHANNELS) cs) o (Z.of_nat x) dst) d)
           (fun f y => sample_at rd yLower yUpper A B
                         (Int32.mul (Int32.mul (currIndex f) CHANNELS) cs) (y / 2))
           (fun fuel f o d =>
              mipmapReader.spectrum_chunks LEVELS CHANNELS fuel rd yLower yUpper A B
                cs R f o d));
    try done.
  intros f0 o d k Ho. unfold for_range. rewrite Nat.sub_0_r.
  rewrite spectrum_inner by lia.
  rewrite Z2Nat.id by lia.
  repeat case_decide; try lia; [|done].
  do 2 f_equal.
  replace (k - 2 * o) with (k + (- o) * 2) by lia.
  rewrite Z.div_add by lia. lia.
Qed.

End ExtractionRuns.

Section ExtractionAtLevel.

Variable LEVELS : nat.
Variable CHANNELS : Z.
Context {E : mipmapReader.External}.

(** [read], once the level is found and the divisors are not zero. *)
Lemma read_at_level fuel rd view dst yLower yUpper c i :
  compression view = Returns c ->
  mipmapReader.find_level LEVELS (mipmapReader.levelCompression rd) c = i ->
  (i < LEVELS)%nat ->
  1 <= c -> 1 <= mipmapReader.chunkSize rd ->
  mipmapReader.read LEVELS CHANNELS fuel rd view dst yLower yUpper =
    let A := mipmapReader.div
               (mipmapReader.sub (mipmapReader.of_int mipmapReader.valMax)
                                 (mipmapReader.of_int mipmapReader.valMin))
               (mipmapReader.sub yUpper yLower) in
    let B := mipmapReader.of_int mipmapReader.valMin in
    '(dst', f) ← mipmapReader.read_chunks LEVELS fuel rd yLower yUpper A B
                   (Int32.mul (mipmapReader.chunkSize rd) CHANNELS)
                   (Int32.mul (resolution view) CHANNELS)
                   (goToChunk LEVELS i
                      (Int32.div (Int32.div (startSamples view) c)
                                 (mipmapReader.chunkSize rd))
                      (mipmapReader.finder rd))
                   0 dst;
    Returns (dst', mipmapReader.set_finder f rd).
Proof.
  intros Hc Hfind Hi Hc0 Hcs0.
  unfold mipmapReader.read.
  unfold compression in Hc. rewrite Hc. cbn [mbind outcome_bind].
  rewrite Hfind. destruct (Nat.eqb_spec i LEVELS) as [->|_]; [lia|].
  rewrite (idiv_pos_divisor _ c) by done. cbn [mbind outcome_bind].
  rewrite idiv_pos_divisor by done. cbn [mbind outcome_bind]. done.
Qed.

(** [readSpectrum], once the level is found and the start chunk known. *)
Lemma readSpectrum_at_level fuel rd view dst yLower yUpper c i start :
  compression view = Returns c ->
  mipmapReader.find_level LEVELS (mipmapReader.levelCompression rd) c = i ->
  (i < LEVELS)%nat ->
  mipmapReader.spectrum_start rd view i c = Returns start ->
  mipmapReader.readSpectrum LEVELS CHANNELS fuel rd view dst yLower yUpper =
    let A := mipmapReader.div
               (mipmapReader.sub (mipmapReader.of_int mipmapReader.valMax)
                                 (mipmapReader.of_int mipmapReader.valMin))
               (mipmapReader.sub yUpper yLower) in
    let B := mipmapReader.of_int mipmapReader.valMin in
    '(dst', f) ← mipmapReader.spectrum_chunks LEVELS CHANNELS fuel rd yLower yUpper
                   A B (mipmapReader.chunkSize rd) (resolution view)
                   (goToChunk LEVELS i start (mipmapReader.finder rd)) 0 dst;
    Returns (dst', mipmapReader.set_finder f rd).
Proof.
  intros Hc Hfind Hi Hstart.
  unfold mipmapReader.readSpectrum.
  unfold compression in Hc. rewrite Hc. cbn [mbind outcome_bind].
  rewrite Hfind. destruct (Nat.eqb_spec i LEVELS) as [->|_]; [lia|].
  rewrite Hstart. cbn [mbind outcome_bind]. done.
Qed.

(** The start chunk of [readSpectrum] is defined when the divisors are
    positive. *)
Lemma spectrum_start_returns rd view i c :
  1 <= at_ (mipmapReader.levelCompression rd) i ->
  1 <= mipmapReader.chunkSize rd -> 1 <= c ->
  exists start, mipmapReader.spectrum_start rd view i c = Returns start.
Proof.
  intros Hl Hcs Hc. unfold mipmapReader.spectrum_start.
  rewrite (idiv_pos_divisor _ (at_ _ i)) by done. cbn [mbind outcome_bind].
  rewrite (idiv_pos_divisor _ (mipmapReader.chunkSize rd)) by done.
  cbn [mbind outcome_bind].
  rewrite (idiv_pos_divisor _ c) by done. cbn [mbind outcome_bind].
  rewrite (idiv_pos_divisor _ (mipmapReader.chunkSize rd)) by done.
  cbn [mbind outcome_bind]. eauto.
Qed.

(** The level that the extraction finds for a compression that a level has. *)
Lemma find_level_found lc c j :
  (j < LEVELS)%nat -> at_ lc j = c ->
  (mipmapReader.find_level LEVELS lc c < LEVELS)%nat
  /\ at_ lc (mipmapReader.find_level LEVELS lc c) = c.
Proof.
  intros Hj Hc.
  pose proof (find_level_spec LEVELS lc c) as (Hle & _ & Hat). cbv zeta in *.
  destruct (decide (mipmapReader.find_level LEVELS lc c = LEVELS)) as [Heq|Hne].
  - exfalso. by apply (proj1 (find_level_none LEVELS lc c) Heq j Hj).
  - split; [lia|]. apply Hat. lia.
Qed.

End ExtractionAtLevel.

(** X14. [read] on a valid view whose compression a level has, on a
    valid, initialised indexer, with element indexes that fit in an
    [int]: with fuel for
    [n = chunks_read (resolution*CHANNELS) (chunkSize*CHANNELS)] chunks
    the call returns; the indexer is left [n - 1] chunks after the
    chunk [startSamples / compression / chunkSize]; slot [k] of the first
    [2*n*chunkSize*CHANNELS] slots of [dst] holds the clamped and rescaled
    lower (even [k]) or upper (odd [k]) bound of the element of the chunk
    it falls in, every other slot is left as it was, and every element
    read lies in a chunk inside the ring. The slots written are the
    [2*resolution*CHANNELS] documented ones exactly when the resolution is
    positive and a multiple of the chunk; otherwise [read] writes past
    them. *)
Theorem read_fills_destination (LEVELS : nat) (CHANNELS : Z)
    {E : mipmapReader.External} (fuel : nat) (rd : mipmapReader.t)
    (view : mipmapReaderView) (dst : gmap Z Z)
    (yLower yUpper : mipmapReader.real) (c : Z) (i : nat) :
  finder_ok LEVELS (mipmapReader.finder rd) = true ->
  request_ok rd view = true ->
  mipmapReader.length rd <= Int32.max_int ->
  compression view = Returns c ->
  mipmapReader.find_level LEVELS (mipmapReader.levelCompression rd) c = i ->
  (i < LEVELS)%nat ->
  1 <= c ->
  1 <= mipmapReader.chunkSize rd ->
  1 <= CHANNELS ->
  let ce := mipmapReader.chunkSize rd * CHANNELS in
  let R := resolution view * CHANNELS in
  Int32.min_int <= R ->
  totalChunkCount (mipmapReader.finder rd) * ce <= Int32.max_int ->
  2 * (Z.max R 0 + ce) + 1 <= Int32.max_int ->
  chunks_read R ce <= Z.of_nat fuel ->
  let A := mipmapReader.div
             (mipmapReader.sub (mipmapReader.of_int mipmapReader.valMax)
                               (mipmapReader.of_int mipmapReader.valMin))
             (mipmapReader.sub yUpper yLower) in
  let B := mipmapReader.of_int mipmapReader.valMin in
  let start := startSamples view / c / mipmapReader.chunkSize rd in
  let n := chunks_read R ce in
  let slot (q : nat) :=
    currIndex (cursor LEVELS (mipmapReader.finder rd) i start q) in
  exists dst',
    mipmapReader.read LEVELS CHANNELS fuel rd view dst yLower yUpper
      = Returns (dst',
                 mipmapReader.set_finder
                   (cursor LEVELS (mipmapReader.finder rd) i start (Z.to_nat (n - 1)))
                   rd)
    /\ (forall k,
          dst' !! k =
            if decide (0 <= k < 2 * (n * ce))
            then Some (slot_at rd yLower yUpper A B
                         (slot (Z.to_nat (k / (2 * ce))) * ce) (k mod (2 * ce)))
            else dst !! k)
    /\ (forall (q : nat) (x : Z),
          0 <= x < ce ->
          0 <= slot q < totalChunkCount (mipmapReader.finder rd)
          /\ 0 <= slot q * ce + x < totalChunkCount (mipmapReader.finder rd) * ce)
    /\ R <= n * ce
    /\ (n * ce = R <-> 0 < R /\ (ce | R)).
Proof.
  intros Hok Hreq Hlen Hc Hfind Hi Hc1 Hcs HCH. cbv zeta.
  intros HR Hring Hmax Hfuel.
  assert (Hce : 1 <= mipmapReader.chunkSize rd * CHANNELS) by nia.
  rewrite (read_at_level LEVELS CHANNELS fuel rd view dst yLower yUpper c i)
    by done.
  cbv zeta.
  pose proof Hmax as Hmax'. rewrite max_int_val in Hmax'. rewrite min_int_val in HR.
  assert (E1 : Int32.mul (mipmapReader.chunkSize rd) CHANNELS
               = mipmapReader.chunkSize rd * CHANNELS)
    by (apply wrap_id; in_int_range).
  assert (E2 : Int32.mul (resolution view) CHANNELS = resolution view * CHANNELS)
    by (apply wrap_id; in_int_range).
  destruct (start_chunk_exact rd view c Hreq Hlen Hc1 Hcs) as [D Dr].
  rewrite E1, E2, D.
  set (start := startSamples view / c / mipmapReader.chunkSize rd) in *.
  set (ce := mipmapReader.chunkSize rd * CHANNELS) in *.
  assert (Hslot : forall q,
            0 <= currIndex (cursor LEVELS (mipmapReader.finder rd) i start q)
            < totalChunkCount (mipmapReader.finder rd)).
  { intros q. by apply cursor_ring. }
  match goal with
  | |- context [mipmapReader.read_chunks _ _ _ _ _ ?a ?b _ ?R ?f _ _] =>
      destruct (read_chunks_run LEVELS rd yLower yUpper a b ce R fuel f dst Hce
                  Hmax Hfuel)
        as (dst' & Hrun & Hvals)
  end.
  rewrite Hrun. cbn [mbind outcome_bind].
  exists dst'. split; [done|]. split; [|split].
  - intros k. rewrite Hvals. case_decide as Hk; [|done]. f_equal.
    fold (cursor LEVELS (mipmapReader.finder rd) i start (Z.to_nat (k / (2 * ce)))).
    pose proof (Z.mod_pos_bound k (2 * ce) ltac:(lia)) as Hy.
    assert (Hy2 : 0 <= k mod (2 * ce) / 2 < ce).
    { split; [apply Z.div_pos; lia | apply Z.div_lt_upper_bound; lia]. }
    destruct (element_index_exact _ ce _ (k mod (2 * ce) / 2)
                (Hslot (Z.to_nat (k / (2 * ce)))) Hce Hring Hy2)
      as (_ & Emul & Eadd).
    unfold slot32_at, slot_at.
    by rewrite Emul, Eadd, lower32_signed, upper32_signed.
  - intros q x Hx. split; [apply Hslot|].
    by destruct (element_index_exact _ ce _ x (Hslot q) Hce Hring Hx) as (Hin & _).
  - pose proof (chunks_read_bounds (resolution view * CHANNELS) ce Hce)
      as (_ & _ & Hup).
    split; [done|]. by apply chunks_read_exact.
Qed.

Lemma read_fills_destination_witness :
  finder_ok 2 (mipmapReader.finder (reader44 512)) = true
  /\ exists dst',
       mipmapReader.read 2 1 (E := integer_external) 2 (reader44 512)
         (View 0 512 32) ∅ (-100) 100
       = Returns (dst',
                  mipmapReader.set_finder
                    (cursor 2 (mipmapReader.finder (reader44 512)) 1 0 1)
                    (reader44 512))
       /\ dst' !! 70 = None.
Proof.
  split; [reflexivity|].
  destruct (read_fills_destination 2 1 (E := integer_external) 2 (reader44 512)
              (View 0 512 32) ∅ (-100) 100 16 1
              eq_refl eq_refl ltac:(vm_compute; discriminate) eq_refl eq_refl
              ltac:(lia) ltac:(lia)
              ltac:(vm_compute; discriminate) ltac:(lia)
              ltac:(vm_compute; discriminate) ltac:(vm_compute; discriminate)
              ltac:(vm_compute; discriminate) ltac:(vm_compute; discriminate))
    as (dst' & Hrun & Hvals & _).
  exists dst'. split; [exact Hrun|].
  rewrite (Hvals 70). reflexivity.
Defined.

(** X15. [readSpectrum] (two channels) on a valid view whose compression
    a level has, on a valid, initialised indexer, with chunk and element
    indexes that fit in an [int]: with fuel for
    [n = chunks_read resolution chunkSize] chunks the call returns; the
    indexer is left [n - 1] chunks after the start chunk, which is the
    chunk of [startSamples] moved by half of the chunks of the level,
    modulo their number; the first [2*n*chunkSize] slots of [dst] hold the samples
    of the [n] chunks in order, each twice, every other slot is left as it
    was, and every element read lies in a chunk inside the ring. The slots
    written are the [2*resolution] documented ones exactly when the
    resolution is positive and a multiple of [chunkSize]. *)
Theorem readSpectrum_fills_destination (LEVELS : nat)
    {E : mipmapReader.External} (fuel : nat) (rd : mipmapReader.t)
    (view : mipmapReaderView) (dst : gmap Z Z)
    (yLower yUpper : mipmapReader.real) (c : Z) (i : nat) :
  finder_ok LEVELS (mipmapReader.finder rd) = true ->
  request_ok rd view = true ->
  mipmapReader.length rd <= Int32.max_int ->
  compression view = Returns c ->
  mipmapReader.find_level LEVELS (mipmapReader.levelCompression rd) c = i ->
  (i < LEVELS)%nat ->
  1 <= c ->
  let cs := mipmapReader.chunkSize rd in
  let R := resolution view in
  1 <= cs ->
  let totalChunks := mipmapReader.length rd / c / cs in
  totalChunks + totalChunks / 2 <= Int32.max_int ->
  totalChunkCount (mipmapReader.finder rd) * (2 * cs) <= Int32.max_int ->
  2 * (Z.max R 0 + cs) + 1 <= Int32.max_int ->
  chunks_read R cs <= Z.of_nat fuel ->
  let A := mipmapReader.div
             (mipmapReader.sub (mipmapReader.of_int mipmapReader.valMax)
                               (mipmapReader.of_int mipmapReader.valMin))
             (mipmapReader.sub yUpper yLower) in
  let B := mipmapReader.of_int mipmapReader.valMin in
  let n := chunks_read R cs in
  let start := (startSamples view / c / cs + totalChunks / 2) mod totalChunks in
  let slot (q : nat) :=
    currIndex (cursor LEVELS (mipmapReader.finder rd) i start q) in
  exists dst',
    mipmapReader.readSpectrum LEVELS 2 fuel rd view dst yLower yUpper
      = Returns (dst',
                 mipmapReader.set_finder
                   (cursor LEVELS (mipmapReader.finder rd) i start (Z.to_nat (n - 1)))
                   rd)
    /\ (forall k,
          dst' !! k =
            if decide (0 <= k < 2 * (n * cs))
            then Some (spectrum_at rd yLower yUpper A B
                         (slot (Z.to_nat (k / (2 * cs))) * 2 * cs)
                         (k mod (2 * cs) / 2))
            else dst !! k)
    /\ (forall (q : nat) (x : Z),
          0 <= x < cs ->
          0 <= slot q < totalChunkCount (mipmapReader.finder rd)
          /\ 0 <= slot q * 2 * cs + 2 * x
          /\ slot q * 2 * cs + 2 * x + 1
             < totalChunkCount (mipmapReader.finder rd) * (2 * cs))
    /\ R <= n * cs
    /\ (n * cs = R <-> 0 < R /\ (cs | R)).
Proof.
  intros Hok Hreq Hlen Hc Hfind Hi Hc1. cbv zeta. intros Hcs Hsum Hring Hmax Hfuel.
  destruct (spectrum_start_exact LEVELS rd view i c Hreq Hlen Hfind Hi Hc1 Hcs Hsum)
    as [Hstart Hstart0].
  cbv zeta in Hstart, Hstart0.
  set (start := (startSamples view / c / mipmapReader.chunkSize rd
                 + mipmapReader.length rd / c / mipmapReader.chunkSize rd / 2)
                mod (mipmapReader.length rd / c / mipmapReader.chunkSize rd)) in *.
  rewrite (readSpectrum_at_level LEVELS 2 fuel rd view dst yLower yUpper
             c i start) by done.
  cbv zeta.
  assert (Hslot : forall q,
            0 <= currIndex (cursor LEVELS (mipmapReader.finder rd) i start q)
            < totalChunkCount (mipmapReader.finder rd)).
  { intros q. by apply cursor_ring. }
  match goal with
  | |- context [mipmapReader.spectrum_chunks _ _ _ _ _ _ ?a ?b _ ?R ?f _ _] =>
      destruct (spectrum_chunks_run LEVELS 2 rd yLower yUpper a b R fuel f dst
                  Hcs Hmax Hfuel)
        as (dst' & Hrun & Hvals)
  end.
  rewrite Hrun. cbn [mbind outcome_bind].
  exists dst'. split; [done|]. split; [|split].
  - intros k. rewrite Hvals. case_decide as Hk; [|done]. f_equal.
    fold (cursor LEVELS (mipmapReader.finder rd) i start
            (Z.to_nat (k / (2 * mipmapReader.chunkSize rd)))).
    pose proof (Z.mod_pos_bound k (2 * mipmapReader.chunkSize rd) ltac:(lia)) as Hy.
    assert (Hy2 : 0 <= k mod (2 * mipmapReader.chunkSize rd) / 2
                  < mipmapReader.chunkSize rd).
    { split; [apply Z.div_pos; lia | apply Z.div_lt_upper_bound; lia]. }
    destruct (spectrum_index_exact _ (mipmapReader.chunkSize rd) _
                (k mod (2 * mipmapReader.chunkSize rd) / 2)
                (Hslot (Z.to_nat (k / (2 * mipmapReader.chunkSize rd))))
                Hcs Hring Hy2)
      as (Ere & Eim & _).
    unfold sample_at, spectrum_at. by rewrite Eim, Ere.
  - intros q x Hx. split; [apply Hslot|].
    by destruct (spectrum_index_exact _ (mipmapReader.chunkSize rd) _ x
                   (Hslot q) Hcs Hring Hx) as (_ & _ & Hin).
  - pose proof (chunks_read_bounds (resolution view) (mipmapReader.chunkSize rd) Hcs)
      as (_ & _ & Hup).
    split; [done|]. by apply chunks_read_exact.
Qed.

Lemma readSpectrum_fills_destination_witness :
  finder_ok 2 (mipmapReader.finder (reader44 512)) = true
  /\ exists dst',
       mipmapReader.readSpectrum 2 2 (E := integer_external) 2 (reader44 512)
         (View 128 256 32) ∅ (-100) 100
       = Returns (dst',
                  mipmapReader.set_finder
                    (cursor 2 (mipmapReader.finder (reader44 512)) 0 6 1)
                    (reader44 512))
       /\ dst' !! 64 = None.
Proof.
  split; [reflexivity|].
  destruct (readSpectrum_fills_destination 2 (E := integer_external) 2
              (reader44 512) (View 128 256 32) ∅ (-100) 100 4 0
              eq_refl eq_refl ltac:(vm_compute; discriminate) eq_refl eq_refl
              ltac:(lia) ltac:(lia)
              ltac:(vm_compute; discriminate) ltac:(vm_compute; discriminate)
              ltac:(vm_compute; discriminate) ltac:(vm_compute; discriminate)
              ltac:(vm_compute; discriminate))
    as (dst' & Hrun & Hvals & _).
  exists dst'. split; [exact Hrun|].
  rewrite (Hvals 64). reflexivity.
Defined.

(** X16. The views of [requestView] fit the documented destination: on a
    valid, initialised indexer, with chunk and element indexes that fit in
    an [int], for a view returned at a stored level [read] returns and writes
    the slots [0 .. resolution*CHANNELS*2 - 1] of [dst] and no other, and
    with two channels [readSpectrum] returns and writes the slots
    [0 .. resolution*2 - 1] and no other, given fuel for
    [resolution / chunkSize] chunks and slot numbers that fit in an
    [int]. *)
Theorem returned_view_fits_destination (LEVELS : nat) (CHANNELS : Z)
    {E : mipmapReader.External} (rd : mipmapReader.t)
    (requested returned : mipmapReaderView) (i : Z)
    (fuel : nat) (dst : gmap Z Z) (yLower yUpper : mipmapReader.real) :
  reader_ok LEVELS rd = true ->
  finder_ok LEVELS (mipmapReader.finder rd) = true ->
  mipmapReader.requestView LEVELS rd requested = Returns (returned, i) ->
  0 <= i ->
  1 <= CHANNELS ->
  totalChunkCount (mipmapReader.finder rd) * (mipmapReader.chunkSize rd * CHANNELS)
    <= Int32.max_int ->
  2 * (resolution returned * CHANNELS + mipmapReader.chunkSize rd * CHANNELS) + 1
    <= Int32.max_int ->
  resolution returned <= Z.of_nat fuel * mipmapReader.chunkSize rd ->
  (exists dst' rd',
     mipmapReader.read LEVELS CHANNELS fuel rd returned dst yLower yUpper
       = Returns (dst', rd')
     /\ forall k,
          if decide (0 <= k < resolution returned * CHANNELS * 2)
          then is_Some (dst' !! k) else dst' !! k = dst !! k)
  /\ (CHANNELS = 2 ->
      (let totalChunks :=
         mipmapReader.length rd
         / at_ (mipmapReader.levelCompression rd) (Z.to_nat i)
         / mipmapReader.chunkSize rd in
       totalChunks + totalChunks / 2 <= Int32.max_int) ->
      exists dst' rd',
        mipmapReader.readSpectrum LEVELS CHANNELS fuel rd returned dst yLower yUpper
          = Returns (dst', rd')
        /\ forall k,
             if decide (0 <= k < resolution returned * 2)
             then is_Some (dst' !! k) else dst' !! k = dst !! k).
Proof.
  intros Hrd Hok Hres Hi HCH Hring Hmax Hfuel.
  destruct (stored_view_facts LEVELS rd requested returned i Hrd Hres Hi)
    as (_ & Hpos & [t Ht] & _ & Hc).
  destruct (requestView_stored LEVELS rd requested returned i Hrd Hres Hi)
    as (_ & Hlt & _).
  pose proof (reader_ok_elim LEVELS rd Hrd) as (HL & Hlen & Hcs & Hlc).
  destruct (Hlc _ Hlt) as [Hc1 _].
  set (c := at_ (mipmapReader.levelCompression rd) (Z.to_nat i)) in *.
  destruct (find_level_found LEVELS (mipmapReader.levelCompression rd) c
              (Z.to_nat i) Hlt eq_refl) as [Hfound Hat].
  set (i' := mipmapReader.find_level LEVELS (mipmapReader.levelCompression rd) c) in *.
  set (cs := mipmapReader.chunkSize rd) in *.
  set (r := resolution returned) in *.
  assert (Ht1 : 1 <= t) by nia.
  assert (Htf : t <= Z.of_nat fuel) by nia.
  assert (Hce : 1 <= cs * CHANNELS) by nia.
  assert (HR : 0 < r * CHANNELS) by nia.
  assert (Hrr : r <= r * CHANNELS) by nia.
  assert (Hcc : cs <= cs * CHANNELS) by nia.
  rewrite max_int_val in Hmax.
  split.
  - rewrite (read_at_level LEVELS CHANNELS fuel rd returned dst yLower yUpper c i')
      by done.
    cbv zeta. fold cs r.
    assert (E1 : Int32.mul cs CHANNELS = cs * CHANNELS)
      by (apply wrap_id; in_int_range).
    assert (E2 : Int32.mul r CHANNELS = r * CHANNELS)
      by (apply wrap_id; in_int_range).
    rewrite E1, E2.
    assert (Hn : chunks_read (r * CHANNELS) (cs * CHANNELS) * (cs * CHANNELS)
                 = r * CHANNELS).
    { apply chunks_read_exact; [done|]. split; [done|]. exists t. lia. }
    assert (Hnt : chunks_read (r * CHANNELS) (cs * CHANNELS) = t) by nia.
    match goal with
    | |- context [mipmapReader.read_chunks _ _ _ _ _ ?a ?b ?ce ?R ?f _ _] =>
        destruct (read_chunks_run LEVELS rd yLower yUpper a b ce R fuel f dst Hce
                    ltac:(rewrite max_int_val; lia) ltac:(lia))
          as (dst' & Hrun & Hvals)
    end.
    rewrite Hrun. cbn [mbind outcome_bind].
    eexists _, _. split; [reflexivity|].
    intros k. rewrite Hvals, Hn.
    repeat case_decide; try lia; done.
  - intros -> _.
    destruct (spectrum_start_returns rd returned i' c) as [start Hstart];
      [lia | done | done |].
    rewrite (readSpectrum_at_level LEVELS 2 fuel rd returned dst yLower yUpper
               c i' start) by done.
    cbv zeta. fold cs r.
    assert (Hn : chunks_read r cs * cs = r).
    { apply chunks_read_exact; [done|]. split; [done|]. exists t. lia. }
    assert (Hnt : chunks_read r cs = t) by nia.
    match goal with
    | |- context [mipmapReader.spectrum_chunks _ _ _ _ _ _ ?a ?b _ ?R ?f _ _] =>
        destruct (spectrum_chunks_run LEVELS 2 rd yLower yUpper a b R fuel f dst
                    Hcs ltac:(rewrite max_int_val; fold cs; lia)
                    ltac:(fold cs; lia))
          as (dst' & Hrun & Hvals)
    end.
    fold cs in Hrun, Hvals.
    rewrite Hrun. cbn [mbind outcome_bind].
    eexists _, _. split; [reflexivity|].
    intros k. rewrite Hvals, Hn.
    repeat case_decide; try lia; done.
Qed.

Lemma returned_view_fits_destination_witness :
  finder_ok 2 (mipmapReader.finder (reader44 1000)) = true
  /\ mipmapReader.requestView 2 (reader44 1000) (View 300 500 10)
     = Returns (View 256 512 16, 1)
  /\ (exists dst' rd',
        mipmapReader.read 2 2 (E := integer_external) 1 (reader44 1000)
          (View 256 512 16) ∅ (-100) 100 = Returns (dst', rd')
        /\ forall k,
             if decide (0 <= k < resolution (View 256 512 16) * 2 * 2)
             then is_Some (dst' !! k) else dst' !! k = (∅ : gmap Z Z) !! k)
  /\ (exists dst' rd',
        mipmapReader.readSpectrum 2 2 (E := integer_external) 1 (reader44 1000)
          (View 256 512 16) ∅ (-100) 100 = Returns (dst', rd')
        /\ forall k,
             if decide (0 <= k < resolution (View 256 512 16) * 2)
             then is_Some (dst' !! k) else dst' !! k = (∅ : gmap Z Z) !! k).
Proof.
  split; [reflexivity|]. split; [reflexivity|].
  destruct (returned_view_fits_destination 2 2 (E := integer_external)
              (reader44 1000) (View 300 500 10) (View 256 512 16) 1
              1 ∅ (-100) 100 eq_refl eq_refl eq_refl ltac:(lia) ltac:(lia)
              ltac:(vm_compute; discriminate)
              ltac:(vm_compute; discriminate) ltac:(vm_compute; discriminate))
    as [Hread Hspectrum].
  split; [exact Hread | exact (Hspectrum eq_refl ltac:(vm_compute; discriminate))].
Defined.

(** ** The packed elements *)

(** X17. The two halves of an element. Unpacking inverts packing: the
    64-bit word with the two's complement of [upper] in its high half and
    that of [lower] in its low half unpacks to [lower] and [upper], for
    any two [int32_t]; and a 64-bit word is the packing of the two values
    unpacked from it, so no two words unpack alike. *)
Theorem unpacking_inverts_packing (lower upper element : Z) :
  (Int32.min_int <= lower <= Int32.max_int ->
   Int32.min_int <= upper <= Int32.max_int ->
   lower32 (pack lower upper) = lower /\ upper32 (pack lower upper) = upper)
  /\ (0 <= element < 2 ^ 64 ->
      pack (lower32 element) (upper32 element) = element).
Proof.
  split.
  - intros Hl Hu. unfold lower32, upper32.
    rewrite !land_low_mask, Z.shiftr_div_pow2 by lia.
    rewrite pack_sum.
    pose proof (Z.mod_pos_bound lower (2 ^ 32) ltac:(lia)).
    pose proof (Z.mod_pos_bound upper (2 ^ 32) ltac:(lia)).
    split.
    + rewrite Z.add_comm, Z_mod_plus_full, Z.mod_mod by lia.
      by apply wrap_of_mod.
    + rewrite Z.add_comm, Z.div_add, (Z.div_small (lower mod 2 ^ 32)) by lia.
      rewrite Z.add_0_l, Z.mod_mod by lia.
      by apply wrap_of_mod.
  - intros He. rewrite pack_sum. unfold lower32, upper32.
    rewrite !wrap_mod, !land_low_mask, Z.shiftr_div_pow2 by lia.
    rewrite !Z.mod_mod by lia.
    assert (0 <= element / 2 ^ 32 < 2 ^ 32).
    { split; [apply Z.div_pos; lia|apply Z.div_lt_upper_bound; lia]. }
    rewrite (Z.mod_small (element / 2 ^ 32)) by lia.
    pose proof (Z.div_mod element (2 ^ 32) ltac:(lia)). lia.
Qed.

Lemma unpacking_inverts_packing_witness :
  (lower32 (pack (-5) 7) = -5 /\ upper32 (pack (-5) 7) = 7)
  /\ pack (lower32 9223372036854775811) (upper32 9223372036854775811)
     = 9223372036854775811.
Proof.
  split.
  - apply (proj1 (unpacking_inverts_packing (-5) 7 9223372036854775811));
      vm_compute; split; discriminate.
  - apply (proj2 (unpacking_inverts_packing (-5) 7 9223372036854775811)).
    vm_compute. split; [discriminate|reflexivity].
Defined.

(** ** [mipmapReader::init] *)

Lemma length_compression32_from B : forall c, length (compression32_from c B) = length B.
Proof. induction B as [|b B IH]; intros c; simpl; [done | by rewrite IH]. Qed.

Lemma length_compression_from B : forall c, length (compression_from c B) = length B.
Proof. induction B as [|b B IH]; intros c; simpl; [done | by rewrite IH]. Qed.

Lemma compression32_from_S B : forall c k x b,
  (S k < length B)%nat -> compression32_from c B !! k = Some x -> B !! k = Some b ->
  compression32_from c B !! S k = Some (Int32.mul x b).
Proof.
  induction B as [|b0 B IH]; intros c k x b Hk Hx Hb; simpl in *; [lia|].
  destruct k as [|k]; simpl in *.
  - injection Hx as <-. injection Hb as <-.
    destruct B as [|b1 B]; simpl in *; [lia | done].
  - apply (IH _ k x b); [lia | done | done].
Qed.

Lemma compression_from_S B : forall c k x b,
  (S k < length B)%nat -> compression_from c B !! k = Some x -> B !! k = Some b ->
  compression_from c B !! S k = Some (x * b).
Proof.
  induction B as [|b0 B IH]; intros c k x b Hk Hx Hb; simpl in *; [lia|].
  destruct k as [|k]; simpl in *.
  - injection Hx as <-. injection Hb as <-.
    destruct B as [|b1 B]; simpl in *; [lia | done].
  - apply (IH _ k x b); [lia | done | done].
Qed.

(** Without overflow the stored compressions are the exact products. *)
Lemma compression32_exact B : forall c,
  Forall (fun b => 1 <= b) B -> 1 <= c ->
  forallb (fun x => x <=? Int32.max_int) (compression_from c B) = true ->
  compression32_from c B = compression_from c B.
Proof.
  induction B as [|b B IH]; intros c HB Hc Hmax; simpl in *; [done|].
  apply Forall_cons in HB as [Hb HB].
  apply andb_true_iff in Hmax as [_ Hmax].
  destruct B as [|b' B]; [done|].
  assert (Hcb : c * b <= Int32.max_int).
  { simpl in Hmax. apply andb_true_iff in Hmax as [Hmax _]. by apply Z.leb_le. }
  unfold Int32.mul. rewrite wrap_id by (rewrite min_int_val; nia).
  f_equal. apply IH; [done | nia | done].
Qed.

(** The exact compressions do not decrease with the level. *)
Lemma compression_from_ge B : forall c j x,
  Forall (fun b => 1 <= b) B -> 1 <= c ->
  compression_from c B !! j = Some x -> c <= x.
Proof.
  induction B as [|b B IH]; intros c j x HB Hc Hx; simpl in *; [done|].
  apply Forall_cons in HB as [Hb HB].
  destruct j as [|j]; simpl in *.
  - injection Hx as <-. lia.
  - pose proof (IH (c * b) j x HB ltac:(nia) Hx). nia.
Qed.

Lemma compression_from_mono B : forall c i j,
  Forall (fun b => 1 <= b) B -> 1 <= c ->
  (i <= j < length B)%nat ->
  at_ (compression_from c B) i <= at_ (compression_from c B) j.
Proof.
  induction B as [|b B IH]; intros c i j HB Hc Hij; simpl in *; [lia|].
  pose proof HB as HB0.
  apply Forall_cons in HB as [Hb HB].
  destruct j as [|j].
  - assert (i = 0%nat) as -> by lia. done.
  - destruct i as [|i].
    + unfold at_ at 1. simpl.
      destruct (lookup_lt_is_Some_2 (compression_from (c * b) B) j) as [x Hx];
        [rewrite length_compression_from; lia|].
      unfold at_. simpl. rewrite Hx. simpl.
      pose proof (compression_from_ge B (c * b) j x HB ltac:(nia) Hx). nia.
    + unfold at_ in *. simpl. apply IH; [done | nia | lia].
Qed.

Section ReaderInit.

Variable LEVELS : nat.

(** The loop that copies the branch factors into the indexer. *)
Lemma for_loop_copy_steps steps n : forall i rd,
  (i + n = LEVELS)%nat ->
  length (levelSteps (mipmapReader.finder rd)) = LEVELS -> length steps = LEVELS ->
  take i (levelSteps (mipmapReader.finder rd)) = take i steps ->
  for_loop n i (fun i rd =>
    mipmapReader.set_finder
      (set_levelSteps (<[i := at_ steps i]> (levelSteps (mipmapReader.finder rd)))
                      (mipmapReader.finder rd)) rd) rd
  = mipmapReader.set_finder (set_levelSteps steps (mipmapReader.finder rd)) rd.
Proof.
  induction n as [|n IH]; intros i rd Hn Hlen Hsteps Htake; simpl.
  - rewrite !take_ge in Htake by lia.
    destruct rd as [f ? ? ? ? ? ?]. destruct f. simpl in *. by subst.
  - rewrite IH.
    + destruct rd as [f ? ? ? ? ? ?]. by destruct f.
    + lia.
    + destruct rd as [f ? ? ? ? ? ?]. destruct f. simpl in *.
      by rewrite length_insert.
    + done.
    + destruct rd as [f ? ? ? ? ? ?]. destruct f as [ls ? ? ? ? ?]. simpl in *.
      destruct (lookup_lt_is_Some_2 steps i) as [b Hb]; [lia|].
      rewrite (at_lookup _ _ _ Hb).
      rewrite (take_S_r _ _ _ Hb).
      erewrite take_S_r; last by (apply list_lookup_insert_eq; lia).
      rewrite take_insert_ge by lia. by rewrite Htake.
Qed.

(** The loop that fills [levelCompression]. *)
Lemma for_loop_init_compression steps base n : forall i rd,
  (1 <= i)%nat -> (i + n = LEVELS)%nat ->
  length (mipmapReader.levelCompression rd) = LEVELS -> length steps = LEVELS ->
  take i (mipmapReader.levelCompression rd) = take i (compression32_from base steps) ->
  for_loop n i (fun i rd =>
    mipmapReader.set_levelCompression
      (<[i := Int32.mul (at_ (mipmapReader.levelCompression rd) (i - 1))
                        (at_ steps (i - 1))]>
         (mipmapReader.levelCompression rd)) rd) rd
  = mipmapReader.set_levelCompression (compression32_from base steps) rd.
Proof.
  induction n as [|n IH]; intros i rd Hi Hn Hlen Hsteps Htake; simpl.
  - rewrite !take_ge in Htake by (rewrite ?length_compression32_from; lia).
    rewrite <- Htake. by destruct rd.
  - rewrite IH.
    + by destruct rd.
    + lia.
    + lia.
    + destruct rd. simpl in *. by rewrite length_insert.
    + done.
    + set (C32 := compression32_from base steps).
      assert (HlenC : length C32 = LEVELS)
        by (unfold C32; rewrite length_compression32_from; lia).
      destruct (lookup_lt_is_Some_2 steps (i - 1)) as [b Hb]; [lia|].
      destruct (lookup_lt_is_Some_2 C32 (i - 1)) as [x Hx]; [lia|].
      assert (Hx' : mipmapReader.levelCompression rd !! (i - 1)%nat = Some x).
      { rewrite <- (lookup_take_lt _ i) by lia. rewrite Htake.
        rewrite lookup_take_lt by lia. done. }
      rewrite (at_lookup _ _ _ Hx'), (at_lookup _ _ _ Hb).
      assert (HS : C32 !! i = Some (Int32.mul x b)).
      { replace i with (S (i - 1)) at 1 by lia.
        apply compression32_from_S; [lia | done | done]. }
      rewrite (take_S_r _ _ _ HS).
      destruct rd. simpl in *.
      erewrite take_S_r; last by (apply list_lookup_insert_eq; lia).
      rewrite take_insert_ge by lia. by rewrite Htake.
Qed.

(** [mipmapReader::init], computed. *)
Lemma reader_init_computes steps rd :
  (1 <= LEVELS)%nat ->
  length steps = LEVELS ->
  length (levelSteps (mipmapReader.finder rd)) = LEVELS ->
  length (mipmapReader.levelCompression rd) = LEVELS ->
  mipmapReader.init LEVELS steps rd
  = mipmapReader.set_finder
      (init LEVELS (set_levelSteps steps (mipmapReader.finder rd)))
      (mipmapReader.set_levelCompression
         (compression32_from (mipmapReader.baseLevelStep rd) steps) rd).
Proof.
  intros HL Hsteps Hlen Hlc. unfold mipmapReader.init, for_range.
  rewrite Nat.sub_0_r.
  rewrite (for_loop_copy_steps steps) by (done || lia).
  rewrite (for_loop_init_compression steps (mipmapReader.baseLevelStep rd)).
  - destruct rd as [f ? ? ? ? ? ?]. by destruct f.
  - lia.
  - lia.
  - destruct rd. simpl in *. by rewrite length_insert.
  - done.
  - destruct rd as [f ? lc ? ? ? ?]. simpl in *.
    destruct lc as [|c0 lc]; simpl in *; [lia|].
    destruct steps as [|b0 steps]; simpl in *; [lia|]. done.
Qed.

(** [mipmapChunkFinder::init] on a valid configuration gives a valid
    indexer. *)
Lemma init_finder_ok f :
  steps_ok LEVELS (levelSteps f) = true ->
  length (levelSizes f) = LEVELS -> length (levelIndex f) = LEVELS ->
  finder_ok LEVELS (init LEVELS f) = true.
Proof.
  intros Hok Hsizes Hidx.
  pose proof (init_wf LEVELS f Hok Hsizes Hidx) as Hwf.
  destruct Hwf as [W1 W2 W3 W4 W5 W6 W7].
  assert (Hlen : length (levelSteps f) = LEVELS).
  { unfold steps_ok in Hok. rewrite !andb_true_iff in Hok.
    destruct Hok as [[[_ Hl] _] _]. by apply Nat.eqb_eq in Hl. }
  assert (Hst : levelSteps (init LEVELS f) = levelSteps f)
    by (by rewrite init_computes).
  unfold finder_ok. rewrite Hst in *. rewrite Hok, W4, W5, W6.
  rewrite Z.eqb_refl, Nat.eqb_refl, !andb_true_r.
  clear. induction (exact_sizes (levelSteps f)) as [|x l IH]; simpl; [done|].
  by rewrite Z.eqb_refl, IH.
Qed.

End ReaderInit.

(** X18. [mipmapReader::init] on a valid configuration: when no product
    overflows, [levelCompression] holds [baseLevelStep] at level 0 and, at
    each level above, the compression of the level below times its branch
    factor, so the compressions do not decrease with the level; the
    indexer holds the branch factors and is initialised; the sample
    source, [length], [chunkSize], [baseLevelStep] and [allowOriginal] are
    kept. *)
Theorem reader_init_levels (LEVELS : nat) (steps : list Z) (rd : mipmapReader.t) :
  steps_ok LEVELS steps = true ->
  length (levelSteps (mipmapReader.finder rd)) = LEVELS ->
  length (levelSizes (mipmapReader.finder rd)) = LEVELS ->
  length (levelIndex (mipmapReader.finder rd)) = LEVELS ->
  length (mipmapReader.levelCompression rd) = LEVELS ->
  1 <= mipmapReader.baseLevelStep rd ->
  forallb (fun c => c <=? Int32.max_int)
          (compression_from (mipmapReader.baseLevelStep rd) steps) = true ->
  let rd' := mipmapReader.init LEVELS steps rd in
  let lc := mipmapReader.levelCompression rd' in
  lc = compression_from (mipmapReader.baseLevelStep rd) steps
  /\ length lc = LEVELS
  /\ at_ lc 0 = mipmapReader.baseLevelStep rd
  /\ (forall i, (S i < LEVELS)%nat -> at_ lc (S i) = at_ lc i * at_ steps i)
  /\ compression_sorted rd'
  /\ levelSteps (mipmapReader.finder rd') = steps
  /\ finder_ok LEVELS (mipmapReader.finder rd') = true
  /\ mipmapReader.mipmap rd' = mipmapReader.mipmap rd
  /\ mipmapReader.length rd' = mipmapReader.length rd
  /\ mipmapReader.chunkSize rd' = mipmapReader.chunkSize rd
  /\ mipmapReader.baseLevelStep rd' = mipmapReader.baseLevelStep rd
  /\ mipmapReader.allowOriginal rd' = mipmapReader.allowOriginal rd
  /\ (1 <= mipmapReader.chunkSize rd ->
      forallb (fun c => mipmapReader.length rd + c * mipmapReader.chunkSize rd
                        <? 2 ^ 31) lc = true ->
      reader_ok LEVELS rd' = true).
Proof.
  intros Hok Hls Hsz Hix Hlc Hbase Hmax. cbv zeta.
  pose proof Hok as Hok'.
  unfold steps_ok in Hok'. rewrite !andb_true_iff in Hok'.
  destruct Hok' as [[[HL Hlen] Hpos] _].
  apply Nat.leb_le in HL. apply Nat.eqb_eq in Hlen.
  assert (HB : Forall (fun b => 1 <= b) steps).
  { apply Forall_forall. intros b Hb.
    rewrite forallb_forall in Hpos. apply Z.leb_le, Hpos.
    by apply list_elem_of_In. }
  rewrite reader_init_computes by done.
  rewrite compression32_exact by done.
  destruct rd as [f mm lc0 len cs base allow].
  cbn [mipmapReader.finder mipmapReader.levelCompression mipmapReader.baseLevelStep
       mipmapReader.set_finder mipmapReader.set_levelCompression mipmapReader.mipmap
       mipmapReader.length mipmapReader.chunkSize mipmapReader.allowOriginal] in *.
  set (C := compression_from base steps).
  assert (HlenC : length C = LEVELS)
    by (unfold C; rewrite length_compression_from; lia).
  split; [done|]. split; [done|].
  split.
  { unfold C. destruct steps; simpl in *; [lia | done]. }
  split.
  { intros i Hi.
    destruct (lookup_lt_is_Some_2 steps i) as [b Hb]; [lia|].
    destruct (lookup_lt_is_Some_2 C i) as [x Hx]; [lia|].
    rewrite (at_lookup _ _ _ Hb), (at_lookup _ _ _ Hx).
    apply at_lookup. apply compression_from_S; [lia | done | done]. }
  split.
  { intros i j Hij.
    cbn [mipmapReader.levelCompression mipmapReader.set_finder
         mipmapReader.set_levelCompression] in *.
    apply compression_from_mono; [done | done | lia]. }
  split.
  { rewrite init_computes by (destruct f; done). by destruct f. }
  split; [apply init_finder_ok; destruct f; done|].
  do 5 (split; [done|]).
  intros Hcs Hfit. unfold reader_ok.
  cbn [mipmapReader.levelCompression mipmapReader.chunkSize mipmapReader.length
       mipmapReader.set_finder mipmapReader.set_levelCompression] in *.
  rewrite HlenC, Nat.eqb_refl.
  destruct (Nat.leb_spec 1 LEVELS); [|lia].
  destruct (Z.leb_spec 1 cs); [|lia].
  cbn [andb]. apply forallb_forall. intros c Hc.
  rewrite forallb_forall in Hfit. rewrite (Hfit c Hc), andb_true_r.
  apply Z.leb_le.
  apply list_elem_of_In, list_elem_of_lookup in Hc as [j Hj].
  pose proof (compression_from_ge steps base j c HB Hbase Hj). lia.
Qed.

Lemma reader_init_levels_witness :
  mipmapReader.levelCompression
    (mipmapReader.init 2 [4; 4] (mipmapReader.new_reader 2 (fun _ => 0) 1000))
  = [4; 16]
  /\ reader_ok 2
       (mipmapReader.init 2 [4; 4] (mipmapReader.new_reader 2 (fun _ => 0) 1000))
     = true.
Proof.
  pose proof (reader_init_levels 2 [4; 4]
                (mipmapReader.new_reader 2 (fun _ => 0) 1000)
                eq_refl eq_refl eq_refl eq_refl eq_refl ltac:(simpl; lia) eq_refl)
    as H.
  cbv zeta in H. split; [exact (proj1 H)|].
  apply H; [vm_compute; discriminate | reflexivity].
Defined.
